(** * SultanAnalysisEngine: semantic search over an indexed corpus

    A shallow embedding of
    [backend/src/engine/SultanAnalysisEngine.ts] and the properties of its
    corpus index, embedding cache, cosine scorer and two-tier retrieval.

    Conventions of the embedding:
    - a JavaScript string is the list of its UTF-16 code units;
    - a JavaScript [number] that holds a score or a vector component is an
      IEEE 754 binary64 value, modelled by Rocq's primitive floats; the
      integer-valued numbers of the program (surah numbers, ayah numbers,
      [topK]) are integers;
    - module-level mutable bindings ([verses], [embeddingCache]) are fields
      of an explicit state, threaded through a state-and-exception monad;
    - the embedding provider is the environment: an oracle gives the
      response to the n-th request issued by the process. Every request
      is answered (a response that never arrives is not modelled), and
      the order in which the answers to concurrent requests arrive is a
      parameter of the call, its schedule;
    - a call is followed from its start to its return. When it falls
      back to the keyword search, the requests of the pool that still
      wait stay in flight: their callbacks run on and store their
      vectors after the call has returned. These late stores are steps
      of their own in [reachable], beside the calls. *)

From Stdlib Require Import ZArith NArith List Floats Lia Bool Ascii String.
From Stdlib Require Import Sorted DecimalN DecimalZ DecimalFacts.
From stdpp Require Import base option list gmap.

Set Default Proof Using "Type".
Local Open Scope Z_scope.

(** ** JavaScript strings and arrays *)

Module JS.

(** A UTF-16 code unit. *)
Definition char16 := N.

(** A string value: its sequence of code units. *)
Abbreviation jsstring := (list N).

(** An ASCII literal as a string value (used to write examples). *)
Definition lit (s : string) : jsstring :=
  List.map N_of_ascii (list_ascii_of_string s).

(** [ToIntegerOrInfinity] followed by the clamping that
    [Array.prototype.slice] and [String.prototype.slice] apply to a
    relative index: a negative index counts from the end. *)
Definition clampIndex (len rel : Z) : Z :=
  if rel <? 0 then Z.max (len + rel) 0 else Z.min rel len.

(** [xs.slice(start, end)], for arrays and for strings alike. *)
Definition slice {A : Type} (start end_ : Z) (xs : list A) : list A :=
  let len := Z.of_nat (length xs) in
  let k := clampIndex len start in
  let final := clampIndex len end_ in
  take (Z.to_nat (final - k)) (drop (Z.to_nat k) xs).

(** The code points that [String.prototype.trim] strips: ECMAScript
    WhiteSpace (TAB, VT, FF, ZWNBSP and the Unicode space separators) and
    LineTerminator (LF, CR, LS, PS). All lie in the Basic Multilingual
    Plane, so each is one code unit. *)
Definition isWhiteSpace (c : char16) : bool :=
  ((9 <=? c) && (c <=? 13) || (c =? 32) || (c =? 160) || (c =? 5760)
   || (8192 <=? c) && (c <=? 8202) || (c =? 8232) || (c =? 8233)
   || (c =? 8239) || (c =? 8287) || (c =? 12288) || (c =? 65279))%N.

Fixpoint trimStart (s : jsstring) : jsstring :=
  match s with
  | c :: s' => if isWhiteSpace c then trimStart s' else s
  | [] => []
  end.

Definition trimEnd (s : jsstring) : jsstring :=
  rev (trimStart (rev s)).

(** [s.trim()] *)
Definition trim (s : jsstring) : jsstring := trimEnd (trimStart s).

(** [s.startsWith(p)] *)
Fixpoint startsWith (s p : jsstring) {struct p} : bool :=
  match p, s with
  | [], _ => true
  | _ :: _, [] => false
  | a :: p', b :: s' => (a =? b)%N && startsWith s' p'
  end.

(** [s.includes(p)]: [p] occurs in [s] as a contiguous run of code
    units. *)
Fixpoint includes (s p : jsstring) : bool :=
  startsWith s p ||
  match s with
  | [] => false
  | _ :: s' => includes s' p
  end.

(** The truthiness of a string: only the empty string is falsy. *)
Definition truthy (s : jsstring) : bool :=
  match s with [] => false | _ :: _ => true end.

(** Decimal digits of a natural number, most significant first. *)
Fixpoint digits (u : Decimal.uint) : jsstring :=
  match u with
  | Decimal.Nil => []
  | Decimal.D0 u => 48%N :: digits u
  | Decimal.D1 u => 49%N :: digits u
  | Decimal.D2 u => 50%N :: digits u
  | Decimal.D3 u => 51%N :: digits u
  | Decimal.D4 u => 52%N :: digits u
  | Decimal.D5 u => 53%N :: digits u
  | Decimal.D6 u => 54%N :: digits u
  | Decimal.D7 u => 55%N :: digits u
  | Decimal.D8 u => 56%N :: digits u
  | Decimal.D9 u => 57%N :: digits u
  end.

(** [String(n)] for an integer-valued number [n]: decimal digits without
    leading zeros, a minus sign in front of a negative one. (Integers of
    magnitude 1e21 and more print in exponent notation in JavaScript;
    surah and ayah numbers are far below.) *)
Definition numberToString (n : Z) : jsstring :=
  match Z.to_int n with
  | Decimal.Pos u => digits u
  | Decimal.Neg u => 45%N :: digits u
  end.

End JS.

Import JS.

(** ** Data model *)

(** One entry of [QURANIC_DATA.surahs]; [content] is optional. *)
Record Surah := {
  number : Z;
  name : jsstring;
  content : option (list jsstring);
}.

Record Verse := {
  ayahId : jsstring;
  surahNumber : Z;
  surahName : jsstring;
  ayahNumber : Z;
  text : jsstring;
}.

(** An embedding: [number[]]. *)
Abbreviation Vec := (list float).

Record SearchResult := {
  verse : Verse;
  score : float;
}.

(** The body of the POST request to [OLLAMA_URL/api/embed]. *)
Record Request := {
  model : jsstring;
  input : jsstring;
}.

(** What comes back for one request, as far as [embed] looks at it:
    [fetch] rejects; [res.ok] is false; [res.json()] rejects or the body
    is not an object; or the body is parsed, with its optional
    [embeddings] typed as the code declares them ([number[][]]). *)
Inductive Response :=
| NetworkError
| HttpError (status : Z) (body : jsstring)
| BadBody
| JsonBody (embeddings : option (list Vec)).

(** The values that can be thrown. *)
Inductive Exn :=
| FetchRejected
| OllamaEmbedFailed (status : Z) (body : jsstring)
| JsonRejected
| NoEmbeddingReturned.

(** The module's mutable bindings, and the log of the requests sent so
    far (the log is not in the program: it records its network effect). *)
Record State := {
  verses : list Verse;
  embeddingCache : gmap jsstring Vec;
  requests : list Request;
}.

(** ** The state-and-exception monad of the async functions *)

Inductive Result (A : Type) :=
| Ok (a : A)
| Throw (e : Exn).

Arguments Ok {A} a.

Arguments Throw {A} e.

Definition M (A : Type) : Type := State -> Result A * State.

Definition ret {A} (a : A) : M A := fun st => (Ok a, st).

Definition throw {A} (e : Exn) : M A := fun st => (Throw e, st).

Definition bind {A B} (m : M A) (k : A -> M B) : M B := fun st =>
  match m st with
  | (Ok a, st') => k a st'
  | (Throw e, st') => (Throw e, st')
  end.

(** [try { body } catch { handler }]; the state changes made before the
    throw stay. *)
Definition tryCatch {A} (body : M A) (handler : Exn -> M A) : M A := fun st =>
  match body st with
  | (Ok a, st') => (Ok a, st')
  | (Throw e, st') => handler e st'
  end.

Definition get : M State := fun st => (Ok st, st).

Declare Scope js_scope.

Delimit Scope js_scope with js.

Notation "'let*' x := m 'in' k" := (bind m (fun x => k))
  (at level 10, x name, m at level 100, k at level 200) : js_scope.

Local Open Scope js_scope.

(** ** The engine *)

Definition EMBED_MODEL : jsstring := lit "nomic-embed-text".

Definition MAX_VERSES_TO_EMBED : Z := 80.

(** The score given to every keyword match: the literal [0.9]. *)
Definition keywordScore : float := 0x1.ccccccccccccdp-1%float.

(** *** Corpus index (lines 24-36) *)

(** The record pushed for line [idx] of [surah]. *)
Definition mkVerse (surah : Surah) (idx : nat) (t : jsstring) : Verse := {|
  ayahId := numberToString (number surah) ++ [58%N]
            ++ numberToString (Z.of_nat idx + 1);
  surahNumber := number surah;
  surahName := name surah;
  ayahNumber := Z.of_nat idx + 1;
  text := t;
|}.

(** One iteration of the [for ... of] loop: [content.forEach] pushes one
    record per line onto the array built so far. *)
Definition pushSurah (acc : list Verse) (surah : Surah) : list Verse :=
  let content := default [] (content surah) in
  acc ++ imap (mkVerse surah) content.

(** The array [verses] after the loop over [surahs]. *)
Definition buildVerses (surahs : list Surah) : list Verse :=
  fold_left pushSurah surahs [].

(** *** Similarity scorer (lines 61-73) *)

(** The [for] loop: [i] runs over the common length, the three
    accumulators are updated in this order. *)
Fixpoint cosineLoop (a b : Vec) (dot normA normB : float)
  : float * float * float :=
  match a, b with
  | x :: a', y :: b' =>
      cosineLoop a' b' (dot + x * y)%float (normA + x * x)%float
                 (normB + y * y)%float
  | _, _ => (dot, normA, normB)
  end.

Definition cosineSimilarity (a b : Vec) : float :=
  if negb (Nat.eqb (length a) (length b)) then 0%float
  else
    let '(dot, normA, normB) := cosineLoop a b 0 0 0 in
    let denom := (sqrt normA * sqrt normB)%float in
    if (denom =? 0)%float then 0%float else (dot / denom)%float.

(** *** [Array.prototype.sort] with the comparator of line 99 *)

Definition compareFn (a b : SearchResult) : float :=
  (score b - score a)%float.

(** [a] has to come after [b]: the comparator's value is positive. A NaN
    from the comparator counts as [+0], so it is not. *)
Definition sortsAfter (a b : SearchResult) : bool :=
  (0 <? compareFn a b)%float.

Fixpoint insertSorted (x : SearchResult) (l : list SearchResult)
  : list SearchResult :=
  match l with
  | [] => [x]
  | y :: l' => if sortsAfter x y then y :: insertSorted x l' else x :: l
  end.

(** The sort is stable: an element stays in front of the later elements
    that the comparator calls equal to it. For a consistent comparator
    (no NaN among the scores) every stable sort returns this list, and
    the language requires the sort to be stable. For an inconsistent one
    (a NaN score) the language leaves the order to the implementation:
    an engine returns some rearrangement of the array, not necessarily
    this one. What is proved of the order of a result is therefore
    proved for scores that are numbers; with a NaN only what holds of
    every rearrangement is claimed. *)
Definition sort (l : list SearchResult) : list SearchResult :=
  foldr insertSorted [] l.

Section Engine.

(** [String.prototype.toLowerCase], a built-in of the platform. *)
Variable toLowerCase : jsstring -> jsstring.

(** The embedding provider: the response to the [n]-th request the
    process has issued, given that request. *)
Variable respond : nat -> Request -> Response.

(** *** Embedding client (lines 40-59) *)

(** [embed] up to its first suspension: either the cached vector, or a
    request now in flight. *)
Inductive Started :=
  | Cached (cached : Vec)
  | InFlight (id : nat) (cacheKey : jsstring) (req : Request).

Definition embedStart (t : jsstring) : M Started := fun st =>
  let cacheKey := slice 0 200 t in
  match embeddingCache st !! cacheKey with
  | Some cached => (Ok (Cached cached), st)
  | None =>
      let req := {| model := EMBED_MODEL; input := t |} in
      (Ok (InFlight (length (requests st)) cacheKey req),
       {| verses := verses st;
          embeddingCache := embeddingCache st;
          requests := requests st ++ [req] |})
  end.

(** [embed] from the arrival of the response on. *)
Definition embedFinish (id : nat) (cacheKey : jsstring) (req : Request)
  : M Vec := fun st =>
  match respond id req with
  | NetworkError => (Throw FetchRejected, st)
  | HttpError status err => (Throw (OllamaEmbedFailed status err), st)
  | BadBody => (Throw JsonRejected, st)
  | JsonBody embeddings =>
      match embeddings ≫= head with
      | None => (Throw NoEmbeddingReturned, st)
      | Some vec =>
          (Ok vec,
           {| verses := verses st;
              embeddingCache := <[cacheKey := vec]> (embeddingCache st);
              requests := requests st |})
      end
  end.

(** [await embed(text)] with nothing else running in between. *)
Definition embed (t : jsstring) : M Vec :=
  let* started := embedStart t in
  match started with
  | Cached cached => ret cached
  | InFlight id cacheKey req => embedFinish id cacheKey req
  end.

(** *** Retrieval (lines 81-118) *)

(** One promise of [searchPool.map(async (v) => ...)]. *)
Inductive Slot :=
  | Running (v : Verse) (id : nat) (cacheKey : jsstring) (req : Request)
  | Fulfilled (r : SearchResult).

(** The callback of line 93 up to its first suspension. *)
Definition startSlot (queryEmbedding : Vec) (v : Verse) : M Slot :=
  let* started := embedStart (text v) in
  match started with
  | Cached vec =>
      ret (Fulfilled {| verse := v;
                        score := cosineSimilarity queryEmbedding vec |})
  | InFlight id cacheKey req => ret (Running v id cacheKey req)
  end.

(** [searchPool.map(...)]: the callbacks start one after the other, each
    running to its first suspension, before any response is handled. *)
Fixpoint startAll (queryEmbedding : Vec) (pool : list Verse)
  : M (list Slot) :=
  match pool with
  | [] => ret []
  | v :: pool' =>
      let* s := startSlot queryEmbedding v in
      let* ss := startAll queryEmbedding pool' in
      ret (s :: ss)
  end.

(** The responses arrive in the order [order] (positions in the pool).
    Each arrival resumes its callback; the first one that throws
    rejects [Promise.all], and the [await] on it throws: the call goes
    on to its catch block and returns. The callbacks that still wait
    then are not part of the call any more; what they store when their
    responses arrive is a late store (see [reachable]). *)
Fixpoint settle (queryEmbedding : Vec) (order : list nat)
  (slots : list Slot) : M (list Slot) :=
  match order with
  | [] => ret slots
  | i :: order' =>
      match slots !! i with
      | Some (Running v id cacheKey req) =>
          let* vec := embedFinish id cacheKey req in
          settle queryEmbedding order'
            (<[i := Fulfilled {| verse := v;
                   score := cosineSimilarity queryEmbedding vec |}]> slots)
      | _ => settle queryEmbedding order' slots
      end
  end.

Definition fulfilled (s : Slot) : option SearchResult :=
  match s with
  | Fulfilled r => Some r
  | Running _ _ _ _ => None
  end.

(** [await Promise.all(searchPool.map(...))]. The schedule [sched] names
    the responses that arrive first, in their order of arrival; the
    others follow in the order of their requests. The value is the array
    of the results by position in the pool. *)
Definition promiseAll (sched : list nat) (queryEmbedding : Vec)
  (pool : list Verse) : M (list SearchResult) :=
  let* slots := startAll queryEmbedding pool in
  let* slots' :=
    settle queryEmbedding (sched ++ seq 0 (length slots)) slots in
  ret (omap fulfilled slots').

(** Lines 91-98: the array [scored]. *)
Definition scorePool (sched : list nat) (q : jsstring)
  (searchPool : list Verse) : M (list SearchResult) :=
  let* queryEmbedding := embed q in
  promiseAll sched queryEmbedding searchPool.

(** Lines 103-108: the keyword search of the [catch] block. *)
Definition keywordResults (q : jsstring) (topK : Z) (vs : list Verse)
  : list SearchResult :=
  let lower := toLowerCase q in
  (fun v => {| verse := v; score := keywordScore |}) <$>
    slice 0 topK
      (filter
         (fun v => includes (text v) q
                   || includes (toLowerCase (text v)) lower)
         vs).

(** [semanticSearch(query, topK = 10)]; [None] is an omitted [topK]. *)
Definition semanticSearch (sched : list nat) (query : jsstring)
  (topK : option Z) : M (list SearchResult) :=
  let topK := default 10 topK in
  let q := trim query in
  if negb (truthy q) then ret []
  else
    let* st := get in
    let searchPool := slice 0 MAX_VERSES_TO_EMBED (verses st) in
    tryCatch
      (let* scored := scorePool sched q searchPool in
       ret (slice 0 topK (sort scored)))
      (fun _ =>
         let* st' := get in
         ret (keywordResults q topK (verses st'))).

(** [getContextForQuery(query, maxVerses = 5)] *)
Definition getContextForQuery (sched : list nat) (query : jsstring)
  (maxVerses : option Z) : M (list Verse) :=
  let maxVerses := default 5 maxVerses in
  let* results := semanticSearch sched query (Some maxVerses) in
  ret (verse <$> results).

End Engine.

(** The state of the module once it is loaded. *)
Definition loaded (surahs : list Surah) : State := {|
  verses := buildVerses surahs;
  embeddingCache := ∅;
  requests := [];
|}.

(** ** Definitions for the statements

    What the theorems below speak about, beside the functions of the
    program: the worth of a response, the slots a call creates, the
    array [scored] as the responses determine it, the states the module
    can reach, and the keyword search in the words of the
    specification. *)

(** What a response is worth to [embed]: the vector it takes from it. *)
Definition usable (r : Response) : option Vec :=
  match r with
  | JsonBody embeddings => embeddings ≫= head
  | _ => None
  end.

(** The state [st'] comes from [st] by sending the requests [new] and
    filling cache entries: the index is the same, no request is lost. *)
Definition sends (new : list Request) (st st' : State) : Prop :=
  verses st' = verses st /\ requests st' = requests st ++ new.

Section Outcomes.

Variable toLowerCase : jsstring -> jsstring.
Variable respond : nat -> Request -> Response.

(** The slots that [startAll] creates, computed from the cache it finds
    and the number [n] of requests sent before. *)
Fixpoint planSlots (queryEmbedding : Vec) (cache : gmap jsstring Vec)
  (n : nat) (pool : list Verse) : list Slot :=
  match pool with
  | [] => []
  | v :: pool' =>
      match cache !! slice 0 200 (text v) with
      | Some vec =>
          Fulfilled {| verse := v;
                       score := cosineSimilarity queryEmbedding vec |}
          :: planSlots queryEmbedding cache n pool'
      | None =>
          Running v n (slice 0 200 (text v))
                  {| model := EMBED_MODEL; input := text v |}
          :: planSlots queryEmbedding cache (S n) pool'
      end
  end.

(** The requests it sends: one per record whose key is not cached. *)
Fixpoint planRequests (cache : gmap jsstring Vec) (pool : list Verse)
  : list Request :=
  match pool with
  | [] => []
  | v :: pool' =>
      match cache !! slice 0 200 (text v) with
      | Some _ => planRequests cache pool'
      | None =>
          {| model := EMBED_MODEL; input := text v |}
          :: planRequests cache pool'
      end
  end.

(** The record a slot works for. *)
Definition slotVerse (s : Slot) : Verse :=
  match s with
  | Running v _ _ _ => v
  | Fulfilled r => verse r
  end.

(** What a slot resolves to once its response is there; [None] when
    the response makes [embed] throw. It does not depend on when the
    response arrives. *)
Definition slotResult (queryEmbedding : Vec) (s : Slot)
  : option SearchResult :=
  match s with
  | Fulfilled r => Some r
  | Running v id _ req =>
      (fun vec => {| verse := v;
                     score := cosineSimilarity queryEmbedding vec |})
        <$> usable (respond id req)
  end.

Definition isFulfilled (s : Slot) : Prop := exists r, s = Fulfilled r.

(** The array [scored] of a call, as the responses determine it: the
    query's vector, then one result per record of the pool. [None] when
    a response makes [embed] throw. The schedule does not occur. *)
Definition semanticScores (q : jsstring) (pool : list Verse) (st : State)
  : option (list SearchResult) :=
  match embed respond q st with
  | (Ok queryEmbedding, st1) =>
      mapM (slotResult queryEmbedding)
        (planSlots queryEmbedding (embeddingCache st1)
           (length (requests st1)) pool)
  | (Throw _, _) => None
  end.

(** The states the module can be in between two calls: loaded, then any
    number of steps, each of them a call of one of its two functions,
    started when the call before it has returned, or a late store.

    A late store is what a callback of [embed] does that a call left in
    flight when it fell back: when its response arrives, the callback
    resumes at line 50 and, if the response carries a vector, stores it
    under the key of its text (line 57). The relation lets the response
    to any request of the log be stored at any moment between two calls,
    and again later, so that the late stores of the program are among
    its steps. A late store that lands while a later call waits for a
    response is counted before that call or after it; what is proved
    through [reachable] is preserved by every single store, so that it
    holds wherever the store lands. *)
Inductive reachable (surahs : list Surah) : State -> Prop :=
| reach_loaded : reachable surahs (loaded surahs)
| reach_semanticSearch sched query topK st :
    reachable surahs st ->
    reachable surahs
      (snd (semanticSearch toLowerCase respond sched query topK st))
| reach_getContextForQuery sched query maxVerses st :
    reachable surahs st ->
    reachable surahs
      (snd (getContextForQuery toLowerCase respond sched query maxVerses st))
| reach_lateStore (id : nat) req st :
    reachable surahs st ->
    requests st !! id = Some req ->
    reachable surahs
      (snd (embedFinish respond id (slice 0 200 (input req)) req st)).

End Outcomes.

(** The records of one group: one per line of its content, none when the
    content is absent. *)
Definition surahVerses (surah : Surah) : list Verse :=
  imap (mkVerse surah) (default [] (content surah)).

(** [p] occurs in [s] as a literal substring. *)
Definition contains (s p : jsstring) : Prop :=
  exists pre post, s = pre ++ p ++ post.

Lemma startsWith_prefix (s p : jsstring) :
  startsWith s p = true <-> exists post, s = p ++ post.
Proof.
  revert s. induction p as [|a p IH]; intros s; simpl.
  - split; [intros _; now exists s | reflexivity].
  - destruct s as [|b s].
    + split; [discriminate | intros [post H]; discriminate].
    + rewrite andb_true_iff, N.eqb_eq, IH. split.
      * intros [-> [post ->]]. now exists post.
      * intros [post [= -> ->]]. split; [reflexivity | now exists post].
Qed.

Lemma includes_contains (s p : jsstring) :
  includes s p = true <-> contains s p.
Proof.
  induction s as [|b s IH].
  - simpl. rewrite orb_false_r, startsWith_prefix. split.
    + intros [post H]. now exists [], post.
    + intros (pre & post & H). destruct pre; [now exists post|discriminate].
  - cbn [includes]. rewrite orb_true_iff, startsWith_prefix, IH. split.
    + intros [[post H]|(pre & post & ->)].
      * now exists [], post.
      * now exists (b :: pre), post.
    + intros ([|c pre] & post & H).
      * left. now exists post.
      * right. injection H as -> ->. now exists pre, post.
Qed.

Global Instance contains_dec (s p : jsstring) : Decision (contains s p).
Proof.
  destruct (includes s p) eqn:E.
  - left. now apply includes_contains.
  - right. intros H. apply includes_contains in H. congruence.
Defined.

(** A record matches a query: its raw text contains the query as a
    literal substring, or its lowercased text contains the lowercased
    query. *)
Definition spec_matches (toLowerCase : jsstring -> jsstring)
  (query : jsstring) (v : Verse) : Prop :=
  contains (text v) query \/
  contains (toLowerCase (text v)) (toLowerCase query).

(** The fallback keyword search as the specification words it: the
    matching records of the whole index, in corpus order, the first
    [topK] of them, each with the score [0.9]. *)
Definition spec_fallback (toLowerCase : jsstring -> jsstring)
  (query : jsstring) (topK : Z) (corpus : list Verse)
  : list SearchResult :=
  (fun v => {| verse := v; score := keywordScore |}) <$>
    take (Z.to_nat topK) (filter (spec_matches toLowerCase query) corpus).

(** The three sums of the loop of [cosineSimilarity]. *)
Definition dotp (a b : Vec) : float :=
  fold_left (fun acc p => (acc + fst p * snd p)%float) (zip a b) 0%float.

Definition sumsq (v : Vec) : float :=
  fold_left (fun acc x => (acc + x * x)%float) v 0%float.

(** [Math.sqrt] of the sum of squares, as the code computes it. *)
Definition norm (v : Vec) : float := sqrt (sumsq v).

(** [a] may stand in front of [b]: the score of [b] is not above that
    of [a]. *)
Definition byScore (a b : SearchResult) : Prop :=
  (score b <=? score a)%float = true.

Definition scoreIsNumber (r : SearchResult) : Prop :=
  is_nan (score r) = false.

(** The same results, with other records in their places. *)
Definition relabel (f : Verse -> Verse) (r : SearchResult) : SearchResult :=
  {| verse := f (verse r); score := score r |}.

(** The value of a finite float in units of [2^emin], an integer; the
    infinities are beyond every finite value. The rank of NaN is never
    looked at. *)
Definition rank (x : spec_float) : Z :=
  match x with
  | S754_zero _ => 0
  | S754_nan => 0
  | S754_infinity s => cond_Zopp s (2 ^ 2098)
  | S754_finite s m e => cond_Zopp s (Zpos m * 2 ^ (e + 1074))
  end.

Definition notNaN (x : spec_float) : Prop := x <> S754_nan.

(** A float is positive: [+0 < x]. *)
Definition sf_pos (x : spec_float) : bool := SFltb (S754_zero false) x.

(** The array [scored] as the cache alone gives it, when the key of the
    query and the key of every record of the pool are cached: no
    response is needed. [None] when a key is missing. *)
Definition cachedScores (cache : gmap jsstring Vec) (q : jsstring)
  (pool : list Verse) : option (list SearchResult) :=
  queryEmbedding ← cache !! slice 0 200 q;
  mapM (fun v =>
          (fun vec => {| verse := v;
                         score := cosineSimilarity queryEmbedding vec |})
            <$> cache !! slice 0 200 (text v))
       pool.

(** A provider that answers by the text it is sent, whenever it is
    asked: [E] gives its response to a text. *)
Definition byContent (E : jsstring -> Response)
  : nat -> Request -> Response :=
  fun _ req => E (input req).

(** The cache holds, under every key of less than 200 code units, the
    vector that [E] gives for that key. (Such a key is the whole text
    that was embedded; a key of 200 units can stand for a longer
    text.) *)
Definition cacheAgrees (E : jsstring -> Response)
  (cache : gmap jsstring Vec) : Prop :=
  forall k vec,
    (length k < 200)%nat -> cache !! k = Some vec -> usable (E k) = Some vec.

(** The array [scored] as the provider [E] alone determines it: the
    cosine similarity of the vector of the query with the vector of each
    record of the pool. [None] when [E] has no vector for one of them. *)
Definition cosineScores (E : jsstring -> Response) (q : jsstring)
  (pool : list Verse) : option (list SearchResult) :=
  queryEmbedding ← usable (E q);
  mapM (fun v =>
          (fun vec => {| verse := v;
                         score := cosineSimilarity queryEmbedding vec |})
            <$> usable (E (text v)))
       pool.

(** The results whose score equals [s], as [===] on numbers has it
    ([+0] and [-0] are equal, NaN equals nothing). *)
Definition sameScore (s : float) (r : SearchResult) : Prop :=
  (score r =? s)%float = true.

Global Instance sameScore_dec (s : float) (r : SearchResult) :
  Decision (sameScore s r).
Proof. unfold sameScore. apply _. Defined.

(** An infinity or NaN. *)
Definition sf_nonfinite (x : spec_float) : bool :=
  match x with
  | S754_infinity _ | S754_nan => true
  | _ => false
  end.

(** ** Concrete inputs, to run the definitions on *)

(** [toLowerCase] on strings of ASCII code units, where it only maps
    [A]-[Z] to [a]-[z]. *)
Definition asciiLower (s : jsstring) : jsstring :=
  List.map
    (fun c => if ((65 <=? c) && (c <=? 90))%N then (c + 32)%N else c) s.

(** The corpus of the scenarios: one group of two lines. *)
Definition twoLines : list Surah :=
  [ {| number := 1; name := lit "A";
       content := Some [lit "the sun rises"; lit "the moon sets"] |} ].

(** A provider that answers every request, with a vector that puts the
    texts about the sun on one axis and the others on the other. *)
Definition healthy (n : nat) (r : Request) : Response :=
  if includes (input r) (lit "sun") then JsonBody (Some [[1; 0]%float])
  else JsonBody (Some [[0; 1]%float]).

(** A provider that cannot be reached. *)
Definition down (n : nat) (r : Request) : Response := NetworkError.

(** A provider that answers HTTP 500 to the first request it gets and
    is healthy afterwards. *)
Definition failsOnce (n : nat) (r : Request) : Response :=
  match n with
  | O => HttpError 500 (lit "busy")
  | S _ => healthy n r
  end.

(** A corpus longer than the pool: eighty lines about the moon, then one
    about the sun. *)
Definition longCorpus : list Surah :=
  [ {| number := 2; name := lit "B";
       content := Some (replicate 80 (lit "the moon sets")
                        ++ [lit "the sun rises"]) |} ].

(** Two texts of 201 code units that share their first 200. *)
Definition longTextX : jsstring := replicate 200 97%N ++ lit "x".

Definition longTextY : jsstring := replicate 200 97%N ++ lit "y".

(** Two groups that carry the same number. *)
Definition sameNumber : list Surah :=
  [ {| number := 1; name := lit "A"; content := Some [lit "first"] |};
    {| number := 1; name := lit "A again"; content := Some [lit "second"] |} ].

(** Three lines, and a provider whose vector for the middle one has an
    infinite component (JSON [1e999]). *)
Definition threeLines : list Surah :=
  [ {| number := 3; name := lit "C";
       content := Some [lit "north"; lit "huge"; lit "east"] |} ].

Definition overflowing (n : nat) (r : Request) : Response :=
  if includes (input r) (lit "east") then JsonBody (Some [[1; 0]%float])
  else if includes (input r) (lit "huge")
       then JsonBody (Some [[infinity; 0]%float])
       else JsonBody (Some [[0; 1]%float]).

(** A provider by content: one axis for the texts about the sun, the
    other for the rest. *)
Definition sunOrOther (t : jsstring) : Response :=
  if includes t (lit "sun") then JsonBody (Some [[1; 0]%float])
  else JsonBody (Some [[0; 1]%float]).

(** ** Facts about the JavaScript built-ins *)

Section Builtins.

Context {A : Type}.

Lemma slice_0_nonneg (k : Z) (xs : list A) :
  0 <= k -> slice 0 k xs = take (Z.to_nat k) xs.
Proof.
  intros Hk. unfold slice, clampIndex.
  replace (0 <? 0) with false by reflexivity.
  destruct (Z.ltb_spec k 0); [lia|].
  rewrite (Z.min_l 0) by lia. simpl drop.
  rewrite Z.sub_0_r.
  destruct (Z.le_ge_cases k (Z.of_nat (length xs))) as [Hl|Hl].
  - now rewrite Z.min_l by lia.
  - rewrite Z.min_r by lia. rewrite Nat2Z.id.
    rewrite !take_ge; auto; lia.
Qed.

Lemma slice_0_neg (k : Z) (xs : list A) :
  k < 0 -> slice 0 k xs = take (length xs - Z.to_nat (- k)) xs.
Proof.
  intros Hk. unfold slice, clampIndex.
  replace (0 <? 0) with false by reflexivity.
  destruct (Z.ltb_spec k 0); [|lia].
  rewrite (Z.min_l 0) by lia. simpl drop. rewrite Z.sub_0_r.
  f_equal. lia.
Qed.

Lemma slice_0_sublist (k : Z) (xs : list A) :
  exists n, slice 0 k xs = take n xs.
Proof.
  destruct (Z.lt_ge_cases k 0).
  - eexists. now apply slice_0_neg.
  - eexists. now apply slice_0_nonneg.
Qed.

Lemma slice_0_subseteq (k : Z) (xs : list A) : slice 0 k xs ⊆ xs.
Proof.
  destruct (slice_0_sublist k xs) as [n ->].
  intros x Hx. apply elem_of_take in Hx as (i & Hi & _).
  eapply list_elem_of_lookup_2; eauto.
Qed.

Lemma slice_0_length_le (k : Z) (xs : list A) :
  0 <= k -> Z.of_nat (length (slice 0 k xs)) <= k.
Proof.
  intros Hk. rewrite slice_0_nonneg by assumption.
  rewrite length_take. lia.
Qed.

End Builtins.

Lemma trimStart_blank (s : jsstring) :
  Forall (fun c => isWhiteSpace c = true) s -> trimStart s = [].
Proof.
  induction 1 as [|c s Hc _ IH]; simpl; [reflexivity|].
  now rewrite Hc.
Qed.

Lemma trim_blank (s : jsstring) :
  Forall (fun c => isWhiteSpace c = true) s -> trim s = [].
Proof.
  intros H. unfold trim, trimEnd. now rewrite (trimStart_blank s H).
Qed.

(** ** How the engine moves the state *)

Lemma sends_refl st : sends [] st st.
Proof. split; [reflexivity | now rewrite app_nil_r]. Qed.

Lemma sends_trans n1 n2 st1 st2 st3 :
  sends n1 st1 st2 -> sends n2 st2 st3 -> sends (n1 ++ n2) st1 st3.
Proof.
  intros [V1 R1] [V2 R2]. split; [congruence|].
  rewrite R2, R1. now rewrite <- app_assoc.
Qed.

Section EngineFacts.

Variable toLowerCase : jsstring -> jsstring.

Variable respond : nat -> Request -> Response.

Lemma embedStart_cases (t : jsstring) (st : State) :
  (exists cached,
      embeddingCache st !! slice 0 200 t = Some cached /\
      embedStart t st = (Ok (Cached cached), st)) \/
  (embeddingCache st !! slice 0 200 t = None /\
   let req := {| model := EMBED_MODEL; input := t |} in
   exists st',
     embedStart t st
     = (Ok (InFlight (length (requests st)) (slice 0 200 t) req), st') /\
     sends [req] st st' /\ embeddingCache st' = embeddingCache st).
Proof.
  unfold embedStart.
  destruct (embeddingCache st !! slice 0 200 t) as [cached|] eqn:E.
  - left. eauto.
  - right. split; [reflexivity|]. eexists. split; [reflexivity|].
    repeat split.
Qed.

Lemma embedFinish_usable id cacheKey req st vec :
  usable (respond id req) = Some vec ->
  embedFinish respond id cacheKey req st
  = (Ok vec, {| verses := verses st;
                embeddingCache := <[cacheKey := vec]> (embeddingCache st);
                requests := requests st |}).
Proof.
  unfold embedFinish, usable.
  destruct (respond id req); try discriminate.
  now intros ->.
Qed.

Lemma embedFinish_unusable id cacheKey req st :
  usable (respond id req) = None ->
  exists e, embedFinish respond id cacheKey req st = (Throw e, st).
Proof.
  unfold embedFinish, usable.
  destruct (respond id req); eauto.
  intros ->. eauto.
Qed.

Lemma embedFinish_sends id cacheKey req st :
  sends [] st (snd (embedFinish respond id cacheKey req st)).
Proof.
  destruct (usable (respond id req)) as [vec|] eqn:E.
  - rewrite (embedFinish_usable _ _ _ _ _ E). simpl.
    split; simpl; [reflexivity | now rewrite app_nil_r].
  - destruct (embedFinish_unusable _ cacheKey _ st E) as [e ->].
    apply sends_refl.
Qed.

(** *** The promises of the pool *)

Lemma startAll_plan queryEmbedding pool st :
  startAll queryEmbedding pool st
  = (Ok (planSlots queryEmbedding (embeddingCache st)
           (length (requests st)) pool),
     {| verses := verses st;
        embeddingCache := embeddingCache st;
        requests := requests st ++ planRequests (embeddingCache st) pool |}).
Proof.
  revert st. induction pool as [|v pool IH]; intros st.
  - simpl. unfold ret. rewrite app_nil_r. now destruct st.
  - simpl. unfold bind at 1. unfold startSlot, bind at 1, embedStart.
    destruct (embeddingCache st !! slice 0 200 (text v)) as [vec|] eqn:E.
    + unfold ret at 1. unfold bind. rewrite IH. reflexivity.
    + unfold ret at 1. unfold bind. rewrite IH. simpl.
      rewrite length_app. simpl. rewrite Nat.add_1_r.
      now rewrite <- app_assoc.
Qed.

Lemma planSlots_length queryEmbedding cache n pool :
  length (planSlots queryEmbedding cache n pool) = length pool.
Proof.
  revert n. induction pool as [|v pool IH]; intros n; simpl;
    [reflexivity|].
  destruct (cache !! _); simpl; now rewrite IH.
Qed.

Lemma planSlots_verses queryEmbedding cache n pool :
  slotVerse <$> planSlots queryEmbedding cache n pool = pool.
Proof.
  revert n. induction pool as [|v pool IH]; intros n; simpl;
    [reflexivity|].
  destruct (cache !! _); simpl; now rewrite IH.
Qed.

(** A running slot waits for one of the planned requests, and every
    planned request has its slot. *)
Lemma planSlots_running queryEmbedding cache (n : nat) pool
  (old : list Request) (i : nat) v (id : nat) key req :
  length old = n ->
  planSlots queryEmbedding cache n pool !! i = Some (Running v id key req) ->
  (old ++ planRequests cache pool) !! id = Some req /\
  (n <= id)%nat /\ input req = text v /\ pool !! i = Some v.
Proof.
  revert n old i. induction pool as [|w pool IH]; intros n old i Hn;
    simpl; [discriminate|].
  destruct (cache !! slice 0 200 (text w)) as [vec|] eqn:E.
  - destruct i as [|i]; simpl; [discriminate|].
    intros H. now apply (IH n old i Hn) in H.
  - destruct i as [|i]; simpl.
    + intros [= -> <- <- <-]. repeat split; auto.
      rewrite lookup_app_r by lia. now rewrite Hn, Nat.sub_diag.
    + intros H.
      apply (IH (S n) (old ++ [{| model := EMBED_MODEL; input := text w |}]) i)
        in H; [|rewrite length_app; simpl; lia].
      rewrite <- app_assoc in H. simpl in H.
      destruct H as (H1 & H2 & H3 & H4). repeat split; auto. lia.
Qed.

Lemma planRequests_slot queryEmbedding cache (n : nat) pool
  (old : list Request) (id : nat) req :
  length old = n ->
  (n <= id)%nat ->
  (old ++ planRequests cache pool) !! id = Some req ->
  exists i v key,
    planSlots queryEmbedding cache n pool !! i
    = Some (Running v id key req).
Proof.
  revert n old. induction pool as [|w pool IH]; intros n old Hn Hid; simpl.
  - rewrite app_nil_r. intros H. apply lookup_lt_Some in H. lia.
  - destruct (cache !! slice 0 200 (text w)) as [vec|] eqn:E.
    + intros H. destruct (IH n old Hn Hid H) as (i & v & key & Hi).
      exists (S i), v, key. exact Hi.
    + intros H. destruct (decide (id = n)) as [->|Hne].
      * rewrite lookup_app_r in H by lia.
        rewrite Hn, Nat.sub_diag in H. simpl in H. injection H as <-.
        exists O, w, (slice 0 200 (text w)). reflexivity.
      * assert (Hlen : length (old ++ [{| model := EMBED_MODEL;
                                           input := text w |}]) = S n)
          by (rewrite length_app; simpl; lia).
        destruct (IH (S n) _ Hlen) as (i & v & key & Hi);
          [lia | now rewrite <- app_assoc |].
        exists (S i), v, key. exact Hi.
Qed.

Lemma planRequests_inputs cache pool req :
  req ∈ planRequests cache pool ->
  exists v, v ∈ pool /\ req = {| model := EMBED_MODEL; input := text v |}.
Proof.
  induction pool as [|w pool IH]; simpl; [intros H; inversion H|].
  destruct (cache !! _).
  - intros H. destruct (IH H) as (v & Hv & ->). exists v. split; [now right|reflexivity].
  - intros H. apply elem_of_cons in H as [->|H].
    + exists w. split; [now left|reflexivity].
    + destruct (IH H) as (v & Hv & ->). exists v. split; [now right|reflexivity].
Qed.

Lemma settle_spec queryEmbedding (order : list nat) :
  forall (slots : list Slot) (st : State),
    sends [] st (snd (settle respond queryEmbedding order slots st)) /\
    match fst (settle respond queryEmbedding order slots st) with
    | Ok slots' =>
        slotResult respond queryEmbedding <$> slots'
        = slotResult respond queryEmbedding <$> slots /\
        (forall (i : nat) (s : Slot),
            i ∈ order \/ (exists s0, slots !! i = Some s0 /\ isFulfilled s0) ->
            slots' !! i = Some s -> isFulfilled s)
    | Throw _ =>
        exists (i : nat) (s : Slot),
          slots !! i = Some s /\ slotResult respond queryEmbedding s = None
    end.
Proof.
  induction order as [|i order IH]; intros slots st.
  - simpl. split; [apply sends_refl|]. split; [reflexivity|].
    intros j s [Hj|(s0 & Hs0 & Hf)] Hs.
    + inversion Hj.
    + congruence.
  - simpl.
    destruct (slots !! i) as [[v id key req|r]|] eqn:Hi.
    + unfold bind.
      destruct (usable (respond id req)) as [vec|] eqn:Hu.
      * rewrite (embedFinish_usable _ _ _ _ _ Hu).
        set (slots1 := <[i := _]> slots).
        set (st1 := {| verses := _ |}).
        destruct (IH slots1 st1) as [Hsend Hres].
        split.
        { destruct Hsend as [Hv Hr]. split; [exact Hv|].
          rewrite Hr. reflexivity. }
        assert (Hsame : slotResult respond queryEmbedding <$> slots1
                        = slotResult respond queryEmbedding <$> slots).
        { unfold slots1. rewrite list_fmap_insert.
          apply list_insert_id. rewrite list_lookup_fmap, Hi. simpl.
          now rewrite Hu. }
        destruct (fst (settle respond queryEmbedding order slots1 st1))
          as [slots'|e].
        -- destruct Hres as [Hmap Hful]. split; [congruence|].
           intros j s Hj Hs. apply (Hful j s); [|exact Hs].
           destruct (decide (j = i)) as [->|Hne].
           ++ right. eexists. split.
              ** unfold slots1. apply list_lookup_insert_eq.
                 now apply lookup_lt_Some in Hi.
              ** eexists; reflexivity.
           ++ destruct Hj as [Hj|(s0 & Hs0 & Hf)].
              ** left. apply elem_of_cons in Hj as [?|?]; [contradiction|assumption].
              ** right. exists s0. split; [|exact Hf].
                 unfold slots1. now rewrite list_lookup_insert_ne.
        -- destruct Hres as (j & s & Hj & Hs).
           assert (j <> i).
           { intros ->. unfold slots1 in Hj.
             rewrite list_lookup_insert_eq in Hj
               by now apply lookup_lt_Some in Hi.
             injection Hj as <-. discriminate. }
           exists j, s. split; [|exact Hs].
           unfold slots1 in Hj. now rewrite list_lookup_insert_ne in Hj.
      * destruct (embedFinish_unusable id key req st Hu) as [e He]. rewrite He.
        split; [apply sends_refl|]. simpl.
        exists i, (Running v id key req). split; [exact Hi|].
        simpl. now rewrite Hu.
    + destruct (IH slots st) as [Hsend Hres]. split; [exact Hsend|].
      destruct (fst (settle respond queryEmbedding order slots st));
        [|exact Hres].
      destruct Hres as [Hmap Hful]. split; [exact Hmap|].
      intros j s Hj Hs. apply (Hful j s); [|exact Hs].
      destruct Hj as [Hj|Hj]; [|now right].
      apply elem_of_cons in Hj as [->|Hj]; [|now left].
      right. exists (Fulfilled r). split; [exact Hi|]. now exists r.
    + destruct (IH slots st) as [Hsend Hres]. split; [exact Hsend|].
      destruct (fst (settle respond queryEmbedding order slots st))
        as [slots'|e]; [|exact Hres].
      destruct Hres as [Hmap Hful]. split; [exact Hmap|].
      intros j s Hj Hs. apply (Hful j s); [|exact Hs].
      destruct Hj as [Hj|Hj]; [|now right].
      apply elem_of_cons in Hj as [->|Hj]; [|now left].
      exfalso. apply lookup_ge_None in Hi.
      apply lookup_lt_Some in Hs.
      assert (length slots' = length slots).
      { rewrite <- (length_fmap (slotResult respond queryEmbedding) slots'), Hmap.
        apply length_fmap. }
      lia.
Qed.

Lemma mapM_fmap_congr {A B} (f : A -> option B) (l1 l2 : list A) :
  f <$> l1 = f <$> l2 -> mapM f l1 = mapM f l2.
Proof.
  revert l2. induction l1 as [|x l1 IH]; intros [|y l2]; simpl;
    try discriminate; [reflexivity|].
  intros [= Hxy Hl]. rewrite Hxy. now rewrite (IH l2 Hl).
Qed.

Lemma fulfilled_mapM queryEmbedding (slots : list Slot) :
  Forall isFulfilled slots ->
  mapM (slotResult respond queryEmbedding) slots = Some (omap fulfilled slots).
Proof.
  intros H. apply mapM_Some.
  induction H as [|s slots [r ->] _ IH]; simpl; constructor; auto.
Qed.

(** [Promise.all] over the pool resolves to the results of the slots,
    by position, whatever the schedule; it rejects when a slot does. *)
Lemma promiseAll_spec sched queryEmbedding pool st :
  let slots := planSlots queryEmbedding (embeddingCache st)
                 (length (requests st)) pool in
  sends (planRequests (embeddingCache st) pool) st
    (snd (promiseAll respond sched queryEmbedding pool st)) /\
  match mapM (slotResult respond queryEmbedding) slots with
  | Some rs =>
      fst (promiseAll respond sched queryEmbedding pool st) = Ok rs
  | None =>
      exists e,
        fst (promiseAll respond sched queryEmbedding pool st) = Throw e
  end.
Proof.
  intros slots.
  set (st1 := {| verses := verses st;
                 embeddingCache := embeddingCache st;
                 requests := requests st
                             ++ planRequests (embeddingCache st) pool |}).
  assert (Heq : promiseAll respond sched queryEmbedding pool st
                = match settle respond queryEmbedding
                          (sched ++ seq 0 (length slots)) slots st1 with
                  | (Ok slots', st2) => (Ok (omap fulfilled slots'), st2)
                  | (Throw e, st2) => (Throw e, st2)
                  end).
  { unfold promiseAll, bind. now rewrite startAll_plan. }
  rewrite Heq. clear Heq.
  destruct (settle_spec queryEmbedding
              (sched ++ seq 0 (length slots)) slots st1) as [Hsend Hres].
  destruct (settle respond queryEmbedding
              (sched ++ seq 0 (length slots)) slots st1) as [[slots'|e] st2];
    simpl in *.
  - destruct Hres as [Hmap Hful].
    split.
    { destruct Hsend as [Hv Hr]. split; [exact Hv|].
      rewrite Hr. simpl. now rewrite app_nil_r. }
    assert (Hlen : length slots' = length slots).
    { rewrite <- (length_fmap (slotResult respond queryEmbedding) slots'), Hmap.
      apply length_fmap. }
    assert (Hall : Forall isFulfilled slots').
    { apply Forall_lookup. intros i s Hs. apply (Hful i s); [|exact Hs].
      left. apply elem_of_app. right. apply elem_of_seq.
      apply lookup_lt_Some in Hs. lia. }
    rewrite <- (mapM_fmap_congr _ _ _ Hmap).
    now rewrite (fulfilled_mapM _ _ Hall).
  - split.
    { destruct Hsend as [Hv Hr]. split; [exact Hv|].
      rewrite Hr. simpl. now rewrite app_nil_r. }
    destruct Hres as (i & s & Hi & Hs).
    assert (Hnone : mapM (slotResult respond queryEmbedding) slots = None).
    { apply mapM_None. apply Exists_exists. exists s. split; [|exact Hs].
      eapply list_elem_of_lookup_2; eauto. }
    rewrite Hnone. eauto.
Qed.

Lemma scorePool_spec sched q pool st :
  match semanticScores respond q pool st with
  | Some rs => fst (scorePool respond sched q pool st) = Ok rs
  | None => exists e, fst (scorePool respond sched q pool st) = Throw e
  end.
Proof.
  unfold semanticScores, scorePool, bind.
  destruct (embed respond q st) as [[queryEmbedding|e] st1]; [|eauto].
  exact (proj2 (promiseAll_spec sched queryEmbedding pool st1)).
Qed.

End EngineFacts.

(** ** The sort rearranges, nothing more *)

Lemma insertSorted_Permutation (x : SearchResult) (l : list SearchResult) :
  insertSorted x l ≡ₚ x :: l.
Proof.
  induction l as [|y l IH]; simpl; [reflexivity|].
  destruct (sortsAfter x y); [|reflexivity].
  rewrite IH. apply Permutation_swap.
Qed.

Lemma sort_Permutation (l : list SearchResult) : sort l ≡ₚ l.
Proof.
  induction l as [|x l IH]; simpl; [reflexivity|].
  rewrite insertSorted_Permutation. now rewrite IH.
Qed.

Lemma sort_length (l : list SearchResult) : length (sort l) = length l.
Proof. apply Permutation_length, sort_Permutation. Qed.

(** ** The shape of a call *)

Section Calls.

Variable toLowerCase : jsstring -> jsstring.

Variable respond : nat -> Request -> Response.

(** [embed] alone: a hit, a stored vector, or a throw. *)
Lemma embed_hit (t : jsstring) (st : State) (cached : Vec) :
  embeddingCache st !! slice 0 200 t = Some cached ->
  embed respond t st = (Ok cached, st).
Proof.
  intros H. unfold embed, bind, embedStart. now rewrite H.
Qed.

Lemma embed_miss_stored (t : jsstring) (st : State) (vec : Vec) :
  let req := {| model := EMBED_MODEL; input := t |} in
  embeddingCache st !! slice 0 200 t = None ->
  usable (respond (length (requests st)) req) = Some vec ->
  embed respond t st
  = (Ok vec,
     {| verses := verses st;
        embeddingCache := <[slice 0 200 t := vec]> (embeddingCache st);
        requests := requests st ++ [req] |}).
Proof.
  intros req H Hu. unfold embed, bind, embedStart. rewrite H.
  now rewrite (embedFinish_usable respond _ _ _ _ _ Hu).
Qed.

Lemma embed_miss_thrown (t : jsstring) (st : State) :
  let req := {| model := EMBED_MODEL; input := t |} in
  embeddingCache st !! slice 0 200 t = None ->
  usable (respond (length (requests st)) req) = None ->
  exists e,
    embed respond t st
    = (Throw e,
       {| verses := verses st;
          embeddingCache := embeddingCache st;
          requests := requests st ++ [req] |}).
Proof.
  intros req H Hu. unfold embed, bind, embedStart. rewrite H.
  destruct (embedFinish_unusable respond _ (slice 0 200 t) _
              {| verses := verses st;
                 embeddingCache := embeddingCache st;
                 requests := requests st ++ [req] |} Hu) as [e He].
  exists e. exact He.
Qed.

(** The three cases in one statement. *)
Lemma embed_cases (t : jsstring) (st : State) :
  let req := {| model := EMBED_MODEL; input := t |} in
  (exists cached,
      embeddingCache st !! slice 0 200 t = Some cached /\
      embed respond t st = (Ok cached, st)) \/
  (embeddingCache st !! slice 0 200 t = None /\
   exists st',
     sends [req] st st' /\
     ((exists vec,
          usable (respond (length (requests st)) req) = Some vec /\
          embed respond t st = (Ok vec, st')) \/
      (usable (respond (length (requests st)) req) = None /\
       embeddingCache st' = embeddingCache st /\
       exists e, embed respond t st = (Throw e, st')))).
Proof.
  intros req.
  destruct (embeddingCache st !! slice 0 200 t) as [cached|] eqn:E.
  - left. exists cached. split; [reflexivity|]. now apply embed_hit.
  - right. split; [reflexivity|].
    destruct (usable (respond (length (requests st)) req)) as [vec|] eqn:Hu.
    + eexists. split; [|left; exists vec; split; [reflexivity|]].
      2: { apply embed_miss_stored; assumption. }
      split; reflexivity.
    + destruct (embed_miss_thrown t st E Hu) as [e He].
      eexists. split; [|right; split; [reflexivity|split; [|exists e; exact He]]].
      * split; reflexivity.
      * reflexivity.
Qed.

(** The requests of the try block: at most one for the query, then the
    planned ones of the pool. *)
Lemma scorePool_sends sched (q : jsstring) (pool : list Verse) (st : State) :
  exists new,
    sends new st (snd (scorePool respond sched q pool st)) /\
    forall req, req ∈ new ->
      req = {| model := EMBED_MODEL; input := q |} \/
      exists v, v ∈ pool /\ req = {| model := EMBED_MODEL; input := text v |}.
Proof.
  unfold scorePool, bind.
  destruct (embed_cases q st) as [(cached & Hc & He)|(Hc & st1 & Hs & Hcase)].
  - rewrite He.
    destruct (promiseAll_spec respond sched cached pool st) as [Hsend _].
    eexists. split; [exact Hsend|].
    intros req Hreq. right. eapply planRequests_inputs; eauto.
  - destruct Hcase as [(vec & Hu & He)|(Hu & _ & e & He)]; rewrite He.
    + destruct (promiseAll_spec respond sched vec pool st1) as [Hsend _].
      eexists. split; [eapply sends_trans; eauto|].
      intros req Hreq. apply elem_of_app in Hreq as [Hreq|Hreq].
      * left. now apply list_elem_of_singleton in Hreq.
      * right. eapply planRequests_inputs; eauto.
    + simpl. eexists. split; [exact Hs|].
      intros req Hreq. left. now apply list_elem_of_singleton in Hreq.
Qed.

(** A call with a non-blank query: the try block, then the ranking or
    the keyword search. *)
Lemma semanticSearch_unfold sched (query : jsstring) (topK : option Z)
  (st : State) :
  truthy (trim query) = true ->
  semanticSearch toLowerCase respond sched query topK st
  = match scorePool respond sched (trim query)
            (slice 0 MAX_VERSES_TO_EMBED (verses st)) st with
    | (Ok scored, st') => (Ok (slice 0 (default 10 topK) (sort scored)), st')
    | (Throw _, st') =>
        (Ok (keywordResults toLowerCase (trim query) (default 10 topK)
               (verses st')), st')
    end.
Proof.
  intros H. unfold semanticSearch. rewrite H.
  change (negb true) with false. cbv beta iota.
  unfold tryCatch, bind, get, ret.
  destruct (scorePool respond sched (trim query)
              (slice 0 MAX_VERSES_TO_EMBED (verses st)) st) as [[scored|e] st'];
    reflexivity.
Qed.

Lemma semanticSearch_blank_query sched (query : jsstring) (topK : option Z)
  (st : State) :
  truthy (trim query) = false ->
  semanticSearch toLowerCase respond sched query topK st = (Ok [], st).
Proof. intros H. unfold semanticSearch. now rewrite H. Qed.

(** Every call leaves the index as it is and only adds requests. *)
Lemma semanticSearch_sends sched (query : jsstring) (topK : option Z)
  (st : State) :
  exists new,
    sends new st
      (snd (semanticSearch toLowerCase respond sched query topK st)) /\
    forall req, req ∈ new ->
      req = {| model := EMBED_MODEL; input := trim query |} \/
      exists v, v ∈ slice 0 MAX_VERSES_TO_EMBED (verses st) /\
                req = {| model := EMBED_MODEL; input := text v |}.
Proof.
  destruct (truthy (trim query)) eqn:Hq.
  - rewrite (semanticSearch_unfold sched query topK st Hq).
    destruct (scorePool_sends sched (trim query)
                (slice 0 MAX_VERSES_TO_EMBED (verses st)) st)
      as (new & Hsend & Hnew).
    exists new. split; [|exact Hnew].
    destruct (scorePool respond sched (trim query)
                (slice 0 MAX_VERSES_TO_EMBED (verses st)) st)
      as [[scored|e] st']; exact Hsend.
  - rewrite (semanticSearch_blank_query sched query topK st Hq).
    exists []. split; [apply sends_refl|]. intros req Hreq. inversion Hreq.
Qed.

End Calls.

(** ** Where the results come from *)

Section Results.

Variable toLowerCase : jsstring -> jsstring.

Variable respond : nat -> Request -> Response.

Lemma slotResult_verse queryEmbedding (s : Slot) (r : SearchResult) :
  slotResult respond queryEmbedding s = Some r -> verse r = slotVerse s.
Proof.
  destruct s as [v id key req|r0]; simpl.
  - destruct (usable (respond id req)); simpl; [|discriminate].
    now intros [= <-].
  - now intros [= <-].
Qed.

Lemma slotResults_verses queryEmbedding (slots : list Slot)
  (rs : list SearchResult) :
  mapM (slotResult respond queryEmbedding) slots = Some rs ->
  verse <$> rs = slotVerse <$> slots.
Proof.
  intros H. apply mapM_Some in H.
  induction H as [|s r slots rs Hsr _ IH]; [reflexivity|].
  rewrite !fmap_cons. f_equal; [|exact IH].
  eapply slotResult_verse; eauto.
Qed.

(** The array [scored] lists the pool, in the order of the pool. *)
Lemma semanticScores_verses (q : jsstring) (pool : list Verse) (st : State)
  (scored : list SearchResult) :
  semanticScores respond q pool st = Some scored ->
  verse <$> scored = pool.
Proof.
  unfold semanticScores.
  destruct (embed respond q st) as [[queryEmbedding|e] st1]; [|discriminate].
  intros H. rewrite (slotResults_verses _ _ _ H).
  apply planSlots_verses.
Qed.

Lemma scorePool_Ok sched (q : jsstring) (pool : list Verse) (st : State)
  (scored : list SearchResult) :
  fst (scorePool respond sched q pool st) = Ok scored <->
  semanticScores respond q pool st = Some scored.
Proof.
  pose proof (scorePool_spec respond sched q pool st) as H.
  destruct (semanticScores respond q pool st) as [rs|].
  - rewrite H. split; congruence.
  - destruct H as [e ->]. split; discriminate.
Qed.

Lemma scorePool_Throw sched (q : jsstring) (pool : list Verse) (st : State) :
  (exists e, fst (scorePool respond sched q pool st) = Throw e) <->
  semanticScores respond q pool st = None.
Proof.
  pose proof (scorePool_spec respond sched q pool st) as H.
  destruct (semanticScores respond q pool st) as [rs|].
  - rewrite H. split; [intros [e He]|]; discriminate.
  - split; [reflexivity | intros _; exact H].
Qed.

Lemma keywordResults_verses (q : jsstring) (topK : Z) (vs : list Verse)
  (r : SearchResult) :
  r ∈ keywordResults toLowerCase q topK vs ->
  verse r ∈ vs /\ score r = keywordScore.
Proof.
  unfold keywordResults. intros H.
  apply list_elem_of_fmap in H as (v & -> & Hv). simpl.
  split; [|reflexivity].
  apply slice_0_subseteq in Hv. now apply list_elem_of_filter in Hv as [_ Hv].
Qed.

(** A call returns; its results are records of the index; the index is
    what it was. *)
Lemma semanticSearch_returns sched (query : jsstring) (topK : option Z)
  (st : State) :
  exists results st',
    semanticSearch toLowerCase respond sched query topK st = (Ok results, st') /\
    Forall (fun r => verse r ∈ verses st) results /\
    verses st' = verses st.
Proof.
  destruct (semanticSearch_sends toLowerCase respond sched query topK st)
    as (new & [Hv _] & _).
  destruct (truthy (trim query)) eqn:Hq.
  - rewrite (semanticSearch_unfold toLowerCase respond sched query topK st Hq)
      in *.
    pose proof (scorePool_Ok sched (trim query)
                  (slice 0 MAX_VERSES_TO_EMBED (verses st)) st) as HOk.
    destruct (scorePool respond sched (trim query)
                (slice 0 MAX_VERSES_TO_EMBED (verses st)) st)
      as [[scored|e] st']; simpl in *.
    + eexists _, _. split; [reflexivity|]. split; [|exact Hv].
      apply Forall_forall. intros r Hr.
      apply slice_0_subseteq in Hr. rewrite sort_Permutation in Hr.
      apply (slice_0_subseteq MAX_VERSES_TO_EMBED).
      rewrite <- (semanticScores_verses _ _ _ _ (proj1 (HOk scored) eq_refl)).
      now apply list_elem_of_fmap_2.
    + eexists _, _. split; [reflexivity|]. split; [|exact Hv].
      apply Forall_forall. intros r Hr.
      apply keywordResults_verses in Hr as [Hr _]. now rewrite Hv in Hr.
  - rewrite (semanticSearch_blank_query toLowerCase respond sched query topK
               st Hq).
    eexists _, _. split; [reflexivity|]. split; [constructor | reflexivity].
Qed.

(** What the catch block makes of a throw. *)
Lemma semanticSearch_caught sched (query : jsstring) (topK : option Z)
  (st : State) (e : Exn) :
  truthy (trim query) = true ->
  fst (scorePool respond sched (trim query)
         (slice 0 MAX_VERSES_TO_EMBED (verses st)) st) = Throw e ->
  fst (semanticSearch toLowerCase respond sched query topK st)
  = Ok (keywordResults toLowerCase (trim query) (default 10 topK)
          (verses st)).
Proof.
  intros Hq He.
  destruct (semanticSearch_returns sched query topK st)
    as (results & st' & Hcall & _ & Hv).
  rewrite Hcall. cbn [fst]. f_equal.
  rewrite (semanticSearch_unfold toLowerCase respond sched query topK st Hq)
    in Hcall.
  destruct (scorePool respond sched (trim query)
              (slice 0 MAX_VERSES_TO_EMBED (verses st)) st)
    as [[scored|e'] st'']; [discriminate|].
  injection Hcall as <- <-. now rewrite Hv.
Qed.

Lemma getContextForQuery_unfold sched (query : jsstring)
  (maxVerses : option Z) (st : State) :
  getContextForQuery toLowerCase respond sched query maxVerses st
  = match semanticSearch toLowerCase respond sched query
            (Some (default 5 maxVerses)) st with
    | (Ok results, st') => (Ok (verse <$> results), st')
    | (Throw e, st') => (Throw e, st')
    end.
Proof. reflexivity. Qed.

Lemma reachable_verses (surahs : list Surah) (st : State) :
  reachable toLowerCase respond surahs st -> verses st = buildVerses surahs.
Proof.
  induction 1 as [|sched query topK st _ IH|sched query maxVerses st _ IH
                  |id req st _ IH _].
  - reflexivity.
  - destruct (semanticSearch_returns sched query topK st)
      as (rs & st' & -> & _ & Hv). simpl. congruence.
  - rewrite getContextForQuery_unfold.
    destruct (semanticSearch_returns sched query
                (Some (default 5 maxVerses)) st)
      as (rs & st' & -> & _ & Hv). simpl. congruence.
  - destruct (embedFinish_sends respond id (slice 0 200 (input req)) req st)
      as [Hv _].
    congruence.
Qed.

End Results.

(** ** The two scenarios of the specification, run *)

(** Provider healthy, the query "sun" closer to "the sun rises":
    [semanticSearch("sun", 1)] returns the record "1:1" with the top
    cosine score. *)
Example scenario_healthy :
  fst (semanticSearch asciiLower healthy [] (lit "sun") (Some 1)
         (loaded twoLines))
  = Ok [ {| verse := {| ayahId := lit "1:1"; surahNumber := 1;
                        surahName := lit "A"; ayahNumber := 1;
                        text := lit "the sun rises" |};
            score := 1%float |} ].
Proof. vm_compute. reflexivity. Qed.

(** Provider down: [semanticSearch("moon", 5)] returns the record "1:2"
    with the score 0.9. *)
Example scenario_down :
  fst (semanticSearch asciiLower down [] (lit "moon") (Some 5)
         (loaded twoLines))
  = Ok [ {| verse := {| ayahId := lit "1:2"; surahNumber := 1;
                        surahName := lit "A"; ayahNumber := 2;
                        text := lit "the moon sets" |};
            score := keywordScore |} ].
Proof. vm_compute. reflexivity. Qed.

(** ** Availability, blank queries, projection, provenance *)

(** C1: [semanticSearch] never throws. Whatever the query, [topK], the
    responses of the provider and their order of arrival, the call
    returns a sequence of scored records; when the try block throws (the
    query's embedding, a record's embedding, transport or parsing), the
    sequence is that of the keyword search of the catch block. *)
Theorem semanticSearch_never_throws (toLowerCase : jsstring -> jsstring)
  (respond : nat -> Request -> Response) (sched : list nat)
  (query : jsstring) (topK : option Z) (st : State) :
  exists results st',
    semanticSearch toLowerCase respond sched query topK st
    = (Ok results, st') /\
    forall e,
      truthy (trim query) = true ->
      fst (scorePool respond sched (trim query)
             (slice 0 MAX_VERSES_TO_EMBED (verses st)) st) = Throw e ->
      results = keywordResults toLowerCase (trim query) (default 10 topK)
                  (verses st).
Proof.
  destruct (semanticSearch_returns toLowerCase respond sched query topK st)
    as (results & st' & Hcall & _ & Hv).
  exists results, st'. split; [exact Hcall|].
  intros e Hq He.
  pose proof (semanticSearch_caught toLowerCase respond sched query topK st
                e Hq He) as Hcaught.
  rewrite Hcall in Hcaught. now injection Hcaught.
Qed.

Lemma semanticSearch_never_throws_witness :
  exists results st',
    semanticSearch asciiLower down [] (lit "moon") (Some 5) (loaded twoLines)
    = (Ok results, st') /\
    results = keywordResults asciiLower (lit "moon") 5 (buildVerses twoLines).
Proof.
  destruct (semanticSearch_never_throws asciiLower down [] (lit "moon")
              (Some 5) (loaded twoLines)) as (results & st' & Hcall & Hcatch).
  exists results, st'. split; [exact Hcall|].
  apply (Hcatch FetchRejected); reflexivity.
Defined.

(** C3: for a query that is empty or made of white space only,
    [semanticSearch] returns the empty sequence at once: the state after
    the call is the state before it, so no request was sent and the cache
    was not touched. *)
Theorem semanticSearch_blank (toLowerCase : jsstring -> jsstring)
  (respond : nat -> Request -> Response) (sched : list nat)
  (query : jsstring) (topK : option Z) (st : State) :
  Forall (fun c => isWhiteSpace c = true) query ->
  semanticSearch toLowerCase respond sched query topK st = (Ok [], st).
Proof.
  intros H. apply semanticSearch_blank_query. now rewrite (trim_blank query H).
Qed.

Lemma semanticSearch_blank_witness :
  semanticSearch asciiLower healthy [] (lit "   ") None (loaded twoLines)
  = (Ok [], loaded twoLines).
Proof. apply semanticSearch_blank. repeat constructor. Defined.

(** C9: [getContextForQuery(q, k)] returns the records of
    [semanticSearch(q, k)] with the score dropped, in the same order and
    in the same number. *)
Theorem getContextForQuery_projects (toLowerCase : jsstring -> jsstring)
  (respond : nat -> Request -> Response) (sched : list nat)
  (q : jsstring) (k : Z) (st : State) :
  exists results st',
    semanticSearch toLowerCase respond sched q (Some k) st
    = (Ok results, st') /\
    getContextForQuery toLowerCase respond sched q (Some k) st
    = (Ok (verse <$> results), st') /\
    length (verse <$> results) = length results.
Proof.
  destruct (semanticSearch_returns toLowerCase respond sched q (Some k) st)
    as (results & st' & Hcall & _).
  exists results, st'. split; [exact Hcall|]. split.
  - rewrite getContextForQuery_unfold. simpl default. now rewrite Hcall.
  - apply length_fmap.
Qed.

(** C10: in every state the module can reach, [verses] is the index built
    when it was loaded; a call of [semanticSearch] or of
    [getContextForQuery] returns records of that index only, on the
    semantic path and on the keyword path, and leaves the index as it
    is. *)
Theorem results_are_indexed_records (toLowerCase : jsstring -> jsstring)
  (respond : nat -> Request -> Response) (surahs : list Surah)
  (st : State) (sched : list nat) (query : jsstring) (topK : option Z) :
  reachable toLowerCase respond surahs st ->
  verses st = buildVerses surahs /\
  (exists results st',
      semanticSearch toLowerCase respond sched query topK st
      = (Ok results, st') /\
      Forall (fun r => verse r ∈ buildVerses surahs) results /\
      verses st' = buildVerses surahs) /\
  (exists records st',
      getContextForQuery toLowerCase respond sched query topK st
      = (Ok records, st') /\
      Forall (fun v => v ∈ buildVerses surahs) records /\
      verses st' = buildVerses surahs).
Proof.
  intros Hreach.
  pose proof (reachable_verses _ _ _ _ Hreach) as Hst.
  split; [exact Hst|]. split.
  - destruct (semanticSearch_returns toLowerCase respond sched query topK st)
      as (results & st' & Hcall & Hin & Hv).
    exists results, st'. rewrite <- Hst. auto.
  - rewrite getContextForQuery_unfold.
    destruct (semanticSearch_returns toLowerCase respond sched query
                (Some (default 5 topK)) st)
      as (results & st' & -> & Hin & Hv).
    exists (verse <$> results), st'. rewrite <- Hst.
    split; [reflexivity|]. split; [|exact Hv].
    now apply Forall_fmap.
Qed.

Lemma results_are_indexed_records_witness :
  verses (loaded twoLines) = buildVerses twoLines /\
  (exists results st',
      semanticSearch asciiLower healthy [] (lit "sun") (Some 1)
        (loaded twoLines) = (Ok results, st') /\
      Forall (fun r => verse r ∈ buildVerses twoLines) results /\
      verses st' = buildVerses twoLines) /\
  (exists records st',
      getContextForQuery asciiLower healthy [] (lit "sun") (Some 1)
        (loaded twoLines) = (Ok records, st') /\
      Forall (fun v => v ∈ buildVerses twoLines) records /\
      verses st' = buildVerses twoLines).
Proof.
  apply (results_are_indexed_records asciiLower healthy twoLines).
  apply reach_loaded.
Defined.



(** The record the pool leaves out would have ranked first. *)
Example pool_leaves_out_best_match :
  length (buildVerses longCorpus) = 81%nat /\
  (score <$> slice 0 1 (sort
     (default [] (semanticScores healthy (lit "sun")
                    (buildVerses longCorpus) (loaded longCorpus)))))
  = [1%float] /\
  (exists results,
     fst (semanticSearch asciiLower healthy [] (lit "sun") (Some 1)
            (loaded longCorpus)) = Ok results /\
     score <$> results = [0%float]).
Proof.
  split; [reflexivity|]. split; [vm_compute; reflexivity|].
  eexists. split; vm_compute; reflexivity.
Qed.

(** ** The keyword search, in the words of the specification *)

Lemma keywordResults_spec_fallback (toLowerCase : jsstring -> jsstring)
  (q : jsstring) (topK : Z) (vs : list Verse) :
  0 <= topK ->
  keywordResults toLowerCase q topK vs = spec_fallback toLowerCase q topK vs.
Proof.
  intros Hk. unfold keywordResults, spec_fallback.
  rewrite slice_0_nonneg by assumption. do 2 f_equal.
  apply list_filter_iff. intros v. unfold spec_matches.
  rewrite <- !includes_contains. split.
  - intros H. apply Is_true_true in H. now apply orb_true_iff in H.
  - intros H. apply Is_true_true. now apply orb_true_iff.
Qed.

(** ** When the semantic path fails *)

Section Failure.

Variable toLowerCase : jsstring -> jsstring.

Variable respond : nat -> Request -> Response.

Lemma semanticSearch_state sched (query : jsstring) (topK : option Z)
  (st : State) :
  truthy (trim query) = true ->
  snd (semanticSearch toLowerCase respond sched query topK st)
  = snd (scorePool respond sched (trim query)
           (slice 0 MAX_VERSES_TO_EMBED (verses st)) st).
Proof.
  intros Hq.
  rewrite (semanticSearch_unfold toLowerCase respond sched query topK st Hq).
  now destruct (scorePool respond sched (trim query)
                  (slice 0 MAX_VERSES_TO_EMBED (verses st)) st) as [[?|?] ?].
Qed.

(** A running slot whose request is answered without a vector makes
    the pool fail. *)
Lemma planned_request_unusable queryEmbedding (pool : list Verse)
  (st : State) (id : nat) (req : Request) :
  (length (requests st) <= id)%nat ->
  (requests st ++ planRequests (embeddingCache st) pool) !! id = Some req ->
  usable (respond id req) = None ->
  mapM (slotResult respond queryEmbedding)
    (planSlots queryEmbedding (embeddingCache st) (length (requests st)) pool)
  = None.
Proof.
  intros Hid Hreq Hu.
  destruct (planRequests_slot queryEmbedding (embeddingCache st)
              (length (requests st)) pool (requests st) id req
              eq_refl Hid Hreq) as (i & v & key & Hi).
  apply mapM_None, Exists_exists.
  exists (Running v id key req). split.
  - eapply list_elem_of_lookup_2; eauto.
  - simpl. now rewrite Hu.
Qed.

(** One request of the call answered without a usable vector (a
    transport failure, a non-success status, an unreadable body, no
    embedding in it) and the try block throws. *)
Lemma unusable_response_throws sched (q : jsstring) (pool : list Verse)
  (st : State) (id : nat) (req : Request) :
  (length (requests st) <= id)%nat ->
  requests (snd (scorePool respond sched q pool st)) !! id = Some req ->
  usable (respond id req) = None ->
  exists e, fst (scorePool respond sched q pool st) = Throw e.
Proof.
  intros Hid Hreq Hu. apply scorePool_Throw.
  revert Hreq. unfold semanticScores, scorePool, bind.
  destruct (embed_cases respond q st)
    as [(cached & Hc & He)|(Hc & st1 & [Hv Hr] & Hcase)].
  - rewrite He.
    destruct (promiseAll_spec respond sched cached pool st) as [[_ Hsend] _].
    rewrite Hsend. intros Hreq.
    eapply planned_request_unusable; eauto.
  - destruct Hcase as [(vec & Hu0 & He)|(Hu0 & _ & e & He)]; rewrite He;
      [|reflexivity].
    destruct (promiseAll_spec respond sched vec pool st1) as [[_ Hsend] _].
    rewrite Hsend. intros Hreq.
    destruct (decide (id = length (requests st))) as [->|Hne].
    + rewrite Hr in Hreq. rewrite <- app_assoc in Hreq.
      rewrite (lookup_app_r (requests st)) in Hreq by apply Nat.le_refl.
      rewrite Nat.sub_diag in Hreq. simpl in Hreq. injection Hreq as <-.
      congruence.
    + apply (planned_request_unusable vec pool st1 id req); auto.
      rewrite Hr, length_app. simpl. lia.
Qed.

(** Conversely, a throw of the try block comes from a request of the
    call that was answered without a usable vector. *)
Lemma throw_has_unusable_response sched (q : jsstring) (pool : list Verse)
  (st : State) (e : Exn) :
  fst (scorePool respond sched q pool st) = Throw e ->
  exists (id : nat) (req : Request),
    (length (requests st) <= id)%nat /\
    requests (snd (scorePool respond sched q pool st)) !! id = Some req /\
    usable (respond id req) = None.
Proof.
  intros He.
  assert (Hnone : semanticScores respond q pool st = None)
    by (apply (scorePool_Throw respond sched); eauto).
  clear He. revert Hnone. unfold semanticScores, scorePool, bind.
  destruct (embed_cases respond q st)
    as [(cached & Hc & He)|(Hc & st1 & [Hv Hr] & Hcase)].
  - rewrite He. intros Hnone.
    destruct (promiseAll_spec respond sched cached pool st) as [[_ Hsend] _].
    rewrite Hsend.
    apply mapM_None, Exists_exists in Hnone as (s & Hs & Hres).
    apply list_elem_of_lookup in Hs as [i Hi].
    destruct s as [v id key req|r]; [|discriminate].
    destruct (planSlots_running cached (embeddingCache st)
                (length (requests st)) pool (requests st) i v id key req
                eq_refl Hi) as (Hreq & Hid & _).
    exists id, req. repeat split; auto.
    simpl in Hres. now destruct (usable (respond id req)).
  - destruct Hcase as [(vec & Hu & He)|(Hu & _ & e' & He)]; rewrite He.
    + intros Hnone.
      destruct (promiseAll_spec respond sched vec pool st1) as [[_ Hsend] _].
      rewrite Hsend.
      apply mapM_None, Exists_exists in Hnone as (s & Hs & Hres).
      apply list_elem_of_lookup in Hs as [i Hi].
      destruct s as [v id key req|r]; [|discriminate].
      destruct (planSlots_running vec (embeddingCache st1)
                  (length (requests st1)) pool (requests st1) i v id key req
                  eq_refl Hi) as (Hreq & Hid & _).
      exists id, req. repeat split; auto.
      * rewrite Hr, length_app in Hid. simpl in Hid. lia.
      * simpl in Hres. now destruct (usable (respond id req)).
    + intros _. cbn [snd].
      exists (length (requests st)),
        {| model := EMBED_MODEL; input := q |}.
      repeat split; auto.
      rewrite Hr, lookup_app_r by lia. now rewrite Nat.sub_diag.
Qed.

End Failure.

(** C2 (as amended): when a step of the semantic path fails (the try
    block throws), in particular when a request of the call is answered
    without a usable vector (a non-success status, say), the result of
    [semanticSearch(query, topK)], for [topK >= 0], is the keyword
    search over the whole index for the trimmed query: the records whose
    text contains [query.trim()] or whose lowercased text contains its
    lowercase, in corpus order, the first [topK] of them, each with the
    score [0.9]. *)
Theorem fallback_is_keyword_search (toLowerCase : jsstring -> jsstring)
  (respond : nat -> Request -> Response) (sched : list nat)
  (query : jsstring) (topK : Z) (st : State) :
  truthy (trim query) = true ->
  0 <= topK ->
  (exists e,
      fst (scorePool respond sched (trim query)
             (slice 0 MAX_VERSES_TO_EMBED (verses st)) st) = Throw e) \/
  (exists (id : nat) (req : Request),
      (length (requests st) <= id)%nat /\
      requests (snd (semanticSearch toLowerCase respond sched query
                       (Some topK) st)) !! id = Some req /\
      usable (respond id req) = None) ->
  fst (semanticSearch toLowerCase respond sched query (Some topK) st)
  = Ok (spec_fallback toLowerCase (trim query) topK (verses st)).
Proof.
  intros Hq Hk Hfail.
  assert (Hthrow : exists e,
             fst (scorePool respond sched (trim query)
                    (slice 0 MAX_VERSES_TO_EMBED (verses st)) st) = Throw e).
  { destruct Hfail as [Hthrow|(id & req & Hid & Hreq & Hu)]; [exact Hthrow|].
    rewrite (semanticSearch_state toLowerCase respond sched query
               (Some topK) st Hq) in Hreq.
    exact (unusable_response_throws respond sched (trim query)
             (slice 0 MAX_VERSES_TO_EMBED (verses st)) st id req
             Hid Hreq Hu). }
  destruct Hthrow as [e He].
  rewrite (semanticSearch_caught toLowerCase respond sched query (Some topK)
             st e Hq He).
  f_equal. simpl default. now apply keywordResults_spec_fallback.
Qed.

Lemma fallback_is_keyword_search_witness :
  fst (semanticSearch asciiLower failsOnce [] (lit " Moon ") (Some 5)
         (loaded twoLines))
  = Ok (spec_fallback asciiLower (lit "Moon") 5 (buildVerses twoLines)).
Proof.
  apply (fallback_is_keyword_search asciiLower failsOnce [] (lit " Moon ") 5
           (loaded twoLines)); [reflexivity | lia |].
  right. exists 0%nat, {| model := EMBED_MODEL; input := lit "Moon" |}.
  split; [simpl; lia|]. split; reflexivity.
Defined.

(** C2 as stated fails on two counts. With the provider down, the
    query ["sets "] finds the line that ends in "sets", which does not
    contain the query with its trailing blank; and for [topK = -1] the
    call returns a match where a truncation to [topK] leaves none. *)
Lemma fallback_not_on_original_query :
  (fst (scorePool down [] (trim (lit "sets "))
          (slice 0 MAX_VERSES_TO_EMBED (verses (loaded twoLines)))
          (loaded twoLines)) = Throw FetchRejected /\
   fst (semanticSearch asciiLower down [] (lit "sets ") (Some 5)
          (loaded twoLines))
   <> Ok (spec_fallback asciiLower (lit "sets ") 5
            (verses (loaded twoLines)))) /\
  (fst (scorePool down [] (trim (lit "the"))
          (slice 0 MAX_VERSES_TO_EMBED (verses (loaded twoLines)))
          (loaded twoLines)) = Throw FetchRejected /\
   fst (semanticSearch asciiLower down [] (lit "the") (Some (-1))
          (loaded twoLines))
   <> Ok (spec_fallback asciiLower (lit "the") (-1)
            (verses (loaded twoLines)))).
Proof.
  split; (split; [reflexivity | vm_compute; discriminate]).
Qed.

(** ** Memoization of [embed] *)

Lemma planRequests_all_miss (cache : gmap jsstring Vec) (pool : list Verse) :
  Forall (fun v => cache !! slice 0 200 (text v) = None) pool ->
  planRequests cache pool
  = (fun v => {| model := EMBED_MODEL; input := text v |}) <$> pool.
Proof.
  induction 1 as [|v pool Hv _ IH]; [reflexivity|].
  simpl. rewrite Hv. now f_equal.
Qed.

(** C4 (as amended): [embed] is memoized by the first 200 code units of
    its text. A call whose key is cached returns the cached vector and
    leaves the state as it is (no request); a call that returns has its
    vector stored under its key when it returns; so after a call that
    returned, a call on a text with the same first 200 code units returns
    the same vector without a request, and the two together sent one
    request at most. A call that throws stores nothing: it has sent its
    request, the cache is as it was, and the next call on such a text
    sends a request again. And calls that start before a response is
    there each send their own request: two calls of [embed] on texts
    with the same uncached key that both reach their [fetch] have two
    requests in flight, and the callbacks of the pool, started together
    by line 92, send one request for each record whose key is not
    cached, however many of them share a key. *)
Theorem embed_memoized (respond : nat -> Request -> Response)
  (t1 t2 : jsstring) (st : State) :
  slice 0 200 t1 = slice 0 200 t2 ->
  (forall cached,
      embeddingCache st !! slice 0 200 t1 = Some cached ->
      embed respond t1 st = (Ok cached, st)) /\
  (forall vec st1,
      embed respond t1 st = (Ok vec, st1) ->
      embeddingCache st1 !! slice 0 200 t1 = Some vec /\
      embed respond t2 st1 = (Ok vec, st1) /\
      (length (requests st1) <= S (length (requests st)))%nat) /\
  (forall e st1,
      embed respond t1 st = (Throw e, st1) ->
      embeddingCache st1 = embeddingCache st /\
      embeddingCache st1 !! slice 0 200 t2 = None /\
      requests st1 = requests st ++ [{| model := EMBED_MODEL; input := t1 |}] /\
      requests (snd (embed respond t2 st1))
      = requests st ++ [{| model := EMBED_MODEL; input := t1 |};
                        {| model := EMBED_MODEL; input := t2 |}]) /\
  (embeddingCache st !! slice 0 200 t1 = None ->
   exists st1 st2,
     embedStart t1 st
     = (Ok (InFlight (length (requests st)) (slice 0 200 t1)
              {| model := EMBED_MODEL; input := t1 |}), st1) /\
     embedStart t2 st1
     = (Ok (InFlight (S (length (requests st))) (slice 0 200 t2)
              {| model := EMBED_MODEL; input := t2 |}), st2) /\
     embeddingCache st2 = embeddingCache st /\
     requests st2 = requests st ++ [{| model := EMBED_MODEL; input := t1 |};
                                    {| model := EMBED_MODEL; input := t2 |}]) /\
  (forall sched queryEmbedding pool,
      Forall (fun v => embeddingCache st !! slice 0 200 (text v) = None)
        pool ->
      requests (snd (promiseAll respond sched queryEmbedding pool st))
      = requests st
        ++ ((fun v => {| model := EMBED_MODEL; input := text v |}) <$> pool)).
Proof.
  intros Hkey. split; [intros cached; apply embed_hit|].
  split; [|split; [|split]].
  - intros vec st1 Hcall.
    assert (Hstored : embeddingCache st1 !! slice 0 200 t1 = Some vec /\
                      (length (requests st1) <= S (length (requests st)))%nat).
    { destruct (embed_cases respond t1 st)
        as [(cached & Hc & He)|(Hc & st' & [Hv Hr] & Hcase)].
      - rewrite He in Hcall. injection Hcall as <- <-. auto.
      - destruct Hcase as [(vec' & Hu & He)|(_ & _ & e & He)];
          rewrite He in Hcall; [|discriminate].
        injection Hcall as <- <-.
        rewrite (embed_miss_stored respond t1 st vec' Hc Hu) in He.
        injection He as <-. simpl. split.
        + apply lookup_insert_eq.
        + rewrite length_app. simpl. lia. }
    destruct Hstored as [Hstored Hlen].
    split; [exact Hstored|]. split; [|exact Hlen].
    apply embed_hit. now rewrite <- Hkey.
  - intros e st1 Hcall.
    destruct (embed_cases respond t1 st)
      as [(cached & Hc & He)|(Hc & st' & [Hv Hr] & Hcase)];
      [rewrite He in Hcall; discriminate|].
    destruct Hcase as [(vec' & Hu & He)|(_ & Hsame & e' & He)];
      rewrite He in Hcall; [discriminate|].
    injection Hcall as <- <-.
    assert (Hmiss : embeddingCache st' !! slice 0 200 t2 = None)
      by now rewrite Hsame, <- Hkey.
    split; [exact Hsame|]. split; [exact Hmiss|]. split; [exact Hr|].
    destruct (embed_cases respond t2 st')
      as [(cached & Hc2 & _)|(_ & st2 & [_ Hr2] & Hcase2)];
      [congruence|].
    assert (Hst2 : snd (embed respond t2 st') = st2)
      by (destruct Hcase2 as [(vec & _ & ->)|(_ & _ & e2 & ->)];
          reflexivity).
    rewrite Hst2, Hr2, Hr. now rewrite <- app_assoc.
  - intros Hc. unfold embedStart. rewrite Hc. eexists _, _.
    split; [reflexivity|]. cbn [embeddingCache requests].
    rewrite <- Hkey, Hc, length_app. cbn [length].
    rewrite Nat.add_1_r, <- app_assoc.
    split; [reflexivity|]. split; reflexivity.
  - intros sched queryEmbedding pool Hpool.
    destruct (promiseAll_spec respond sched queryEmbedding pool st)
      as [[_ Hsend] _].
    rewrite Hsend. now rewrite planRequests_all_miss.
Qed.

Lemma embed_memoized_witness :
  let st1 :=
    {| verses := buildVerses twoLines;
       embeddingCache := <[slice 0 200 longTextX := [0; 1]%float]> ∅;
       requests := [{| model := EMBED_MODEL; input := longTextX |}] |} in
  embed healthy longTextX (loaded twoLines) = (Ok [0; 1]%float, st1) /\
  embed healthy longTextY st1 = (Ok [0; 1]%float, st1).
Proof.
  intros st1.
  assert (Hcall : embed healthy longTextX (loaded twoLines)
                  = (Ok [0; 1]%float, st1))
    by (apply embed_miss_stored; [apply lookup_empty | reflexivity]).
  split; [exact Hcall|].
  pose proof (embed_memoized healthy longTextX longTextY (loaded twoLines)
                eq_refl) as (_ & Hok & _).
  exact (proj1 (proj2 (Hok _ _ Hcall))).
Defined.

(** C4 as stated fails on two counts. When the first call does
    not return, nothing is stored: a provider that answers HTTP 500 once
    gets a second request for the same text. And calls that start
    before the first response is there all miss the cache: for the
    eighty equal lines of [longCorpus] a healthy provider gets eighty
    requests. *)
Lemma embed_retries_after_failure :
  (let st0 := loaded twoLines in
   let st1 := snd (embed failsOnce (lit "sun") st0) in
   let st2 := snd (embed failsOnce (lit "sun") st1) in
   fst (embed failsOnce (lit "sun") st0)
   = Throw (OllamaEmbedFailed 500 (lit "busy")) /\
   fst (embed failsOnce (lit "sun") st1) = Ok [1; 0]%float /\
   input <$> requests st2 = [lit "sun"; lit "sun"]) /\
  input <$> requests (snd (semanticSearch asciiLower healthy []
                             (lit "sun") (Some 1) (loaded longCorpus)))
  = lit "sun" :: replicate 80 (lit "the moon sets").
Proof. vm_compute. repeat split. Qed.

(** ** The corpus index *)

Lemma fold_pushSurah (surahs : list Surah) (acc : list Verse) :
  fold_left pushSurah surahs acc = acc ++ (surahs ≫= surahVerses).
Proof.
  revert acc. induction surahs as [|s surahs IH]; intros acc; simpl.
  - now rewrite app_nil_r.
  - rewrite IH. unfold pushSurah. fold (surahVerses s).
    now rewrite <- app_assoc.
Qed.

Lemma buildVerses_bind (surahs : list Surah) :
  buildVerses surahs = surahs ≫= surahVerses.
Proof. unfold buildVerses. now rewrite fold_pushSurah. Qed.

Lemma buildVerses_cons (s : Surah) (surahs : list Surah) :
  buildVerses (s :: surahs) = surahVerses s ++ buildVerses surahs.
Proof. now rewrite !buildVerses_bind. Qed.

Lemma surahVerses_text (s : Surah) :
  text <$> surahVerses s = default [] (content s).
Proof.
  unfold surahVerses. rewrite fmap_imap.
  generalize (default [] (content s)). intros l.
  change (fun (n : nat) (a : jsstring) => text (mkVerse s n a))
    with (fun (n : nat) (a : jsstring) => a).
  induction l as [|x l IH] using rev_ind; [reflexivity|].
  rewrite imap_app. simpl. now rewrite IH.
Qed.

(** *** Printing numbers *)

Lemma digits_inj (u u' : Decimal.uint) : digits u = digits u' -> u = u'.
Proof.
  revert u'. induction u; destruct u'; simpl; intros H;
    try discriminate H; try reflexivity;
    injection H as H; f_equal; auto.
Qed.

Lemma digits_range (u : Decimal.uint) (c : N) :
  c ∈ digits u -> (48 <= c <= 57)%N.
Proof.
  induction u; simpl; intros H;
    try (apply elem_of_cons in H as [->|H]; [lia | auto]).
  inversion H.
Qed.

Lemma numberToString_range (n : Z) (c : N) :
  c ∈ numberToString n -> c = 45%N \/ (48 <= c <= 57)%N.
Proof.
  unfold numberToString. destruct (Z.to_int n) as [u|u]; intros H.
  - right. eapply digits_range; eauto.
  - apply elem_of_cons in H as [->|H]; [now left|].
    right. eapply digits_range; eauto.
Qed.

Lemma numberToString_inj (n m : Z) :
  numberToString n = numberToString m -> n = m.
Proof.
  unfold numberToString. intros H. apply DecimalZ.to_int_inj.
  destruct (Z.to_int n) as [u|u], (Z.to_int m) as [u'|u'].
  - f_equal. now apply digits_inj.
  - exfalso. assert (Hc : 45%N ∈ digits u) by (rewrite H; now left).
    apply digits_range in Hc. lia.
  - exfalso. assert (Hc : 45%N ∈ digits u') by (rewrite <- H; now left).
    apply digits_range in Hc. lia.
  - injection H as H. f_equal. now apply digits_inj.
Qed.

(** Two strings cut at their first colon are equal part by part. *)
Lemma colon_split (a b c d : jsstring) :
  58%N ∉ a -> 58%N ∉ c ->
  a ++ 58%N :: b = c ++ 58%N :: d -> a = c /\ b = d.
Proof.
  revert c. induction a as [|x a IH]; intros [|y c] Ha Hc; simpl; intros H.
  - injection H as ->. auto.
  - injection H as <- _. exfalso. apply Hc. now left.
  - injection H as -> _. exfalso. apply Ha. now left.
  - injection H as -> H.
    destruct (IH c) as [-> ->]; auto.
    + intros Hin. apply Ha. now right.
    + intros Hin. apply Hc. now right.
Qed.

Lemma numberToString_no_colon (n : Z) : 58%N ∉ numberToString n.
Proof.
  intros H. apply numberToString_range in H as [H|H]; [discriminate | lia].
Qed.

(** The identifier tells the group number and the line. *)
Lemma ayahId_inj (s s' : Surah) (i i' : nat) (t t' : jsstring) :
  ayahId (mkVerse s i t) = ayahId (mkVerse s' i' t') ->
  number s = number s' /\ i = i'.
Proof.
  simpl. intros H.
  apply colon_split in H as [Hn Hi]; try apply numberToString_no_colon.
  apply numberToString_inj in Hn, Hi. split; [exact Hn | lia].
Qed.

Lemma surahVerses_lookup (s : Surah) (p : nat) (v : Verse) :
  surahVerses s !! p = Some v <->
  exists t, default [] (content s) !! p = Some t /\ v = mkVerse s p t.
Proof.
  unfold surahVerses. rewrite list_lookup_imap.
  destruct (default [] (content s) !! p) as [t|]; simpl; split.
  - intros H. injection H as <-. exists t. split; reflexivity.
  - intros (t' & Ht & ->). injection Ht as ->. reflexivity.
  - discriminate.
  - intros (t' & Ht & _). discriminate.
Qed.

Lemma surahVerses_ids_NoDup (s : Surah) : NoDup (ayahId <$> surahVerses s).
Proof.
  apply NoDup_alt. intros i j x Hi Hj.
  rewrite list_lookup_fmap in Hi, Hj.
  destruct (surahVerses s !! i) as [v|] eqn:Ei; [|discriminate].
  destruct (surahVerses s !! j) as [w|] eqn:Ej; [|discriminate].
  apply surahVerses_lookup in Ei as (t & _ & ->).
  apply surahVerses_lookup in Ej as (t' & _ & ->).
  simpl in Hi, Hj. injection Hi as Hi. injection Hj as Hj.
  rewrite <- Hj in Hi.
  now apply (ayahId_inj s s i j t t') in Hi as [_ Hi].
Qed.

Lemma buildVerses_elem (surahs : list Surah) (v : Verse) :
  v ∈ buildVerses surahs <->
  exists s i t,
    s ∈ surahs /\ default [] (content s) !! i = Some t /\ v = mkVerse s i t.
Proof.
  rewrite buildVerses_bind, list_elem_of_bind. split.
  - intros (s & Hv & Hs). apply list_elem_of_lookup in Hv as [i Hi].
    apply surahVerses_lookup in Hi as (t & Ht & ->).
    exists s, i, t. auto.
  - intros (s & i & t & Hs & Ht & ->). exists s. split; [|exact Hs].
    apply list_elem_of_lookup. exists i. apply surahVerses_lookup.
    exists t. auto.
Qed.

Lemma buildVerses_ids_NoDup (surahs : list Surah) :
  NoDup (number <$> surahs) -> NoDup (ayahId <$> buildVerses surahs).
Proof.
  induction surahs as [|s surahs IH]; intros Hnd.
  - constructor.
  - rewrite fmap_cons in Hnd. apply NoDup_cons in Hnd as [Hs Hnd].
    rewrite buildVerses_cons, fmap_app. apply NoDup_app.
    split; [apply surahVerses_ids_NoDup|]. split; [|now apply IH].
    intros x Hx Hx'.
    apply list_elem_of_fmap in Hx as (v & -> & Hv).
    apply list_elem_of_fmap in Hx' as (w & Hvw & Hw).
    apply list_elem_of_lookup in Hv as [i Hi].
    apply surahVerses_lookup in Hi as (t & _ & ->).
    apply buildVerses_elem in Hw as (s' & i' & t' & Hs' & _ & ->).
    apply ayahId_inj in Hvw as [Hn _].
    apply Hs. rewrite Hn. now apply list_elem_of_fmap_2.
Qed.

(** C5 (as amended): for every sequence of groups the index holds one
    record per line of content, [sum |content or empty|] in all, in
    input order (group order, then line order); the record of line [i]
    (counted from 0) of a group has [ayahNumber = i + 1], the 1-based
    line number, and [ayahId = "<surahNumber>:<ayahNumber>"]; a group
    without content contributes nothing; and the identifiers are
    pairwise distinct when the group numbers are. The construction is a
    total function: it cannot fail. *)
Theorem buildVerses_index (surahs : list Surah) :
  length (buildVerses surahs)
  = sum_list ((fun s => length (default [] (content s))) <$> surahs) /\
  buildVerses surahs
  = surahs ≫= (fun s => imap (mkVerse s) (default [] (content s))) /\
  text <$> buildVerses surahs = surahs ≫= (fun s => default [] (content s)) /\
  (forall v,
      v ∈ buildVerses surahs <->
      exists s i t,
        s ∈ surahs /\ default [] (content s) !! i = Some t /\
        v = {| ayahId := numberToString (number s) ++ lit ":"
                         ++ numberToString (Z.of_nat i + 1);
               surahNumber := number s;
               surahName := name s;
               ayahNumber := Z.of_nat i + 1;
               text := t |}) /\
  (forall v,
      v ∈ buildVerses surahs ->
      ayahId v = numberToString (surahNumber v) ++ lit ":"
                 ++ numberToString (ayahNumber v)) /\
  (forall before s after,
      content s = None ->
      buildVerses (before ++ s :: after) = buildVerses (before ++ after)) /\
  (NoDup (number <$> surahs) -> NoDup (ayahId <$> buildVerses surahs)).
Proof.
  split; [|split; [|split; [|split; [|split; [|split]]]]].
  - induction surahs as [|s surahs IH]; [reflexivity|].
    rewrite buildVerses_cons, length_app, IH, fmap_cons. simpl.
    unfold surahVerses. now rewrite length_imap.
  - apply buildVerses_bind.
  - induction surahs as [|s surahs IH]; [reflexivity|].
    rewrite buildVerses_cons, fmap_app, IH, surahVerses_text.
    reflexivity.
  - apply buildVerses_elem.
  - intros v Hv. apply buildVerses_elem in Hv as (s & i & t & _ & _ & ->).
    reflexivity.
  - intros before s after Hnone. rewrite !buildVerses_bind, !bind_app.
    f_equal. rewrite bind_cons. unfold surahVerses at 1.
    now rewrite Hnone.
  - apply buildVerses_ids_NoDup.
Qed.

Lemma buildVerses_index_witness :
  NoDup (ayahId <$> buildVerses twoLines).
Proof.
  apply (buildVerses_index twoLines). simpl. apply NoDup_singleton.
Defined.

(** C5 as stated fails on two counts. The first line of a group,
    at position 0 of its content, gets the number 1, and its identifier
    ends in that number, not in the number plus one; and two groups with
    the same number give the same identifier to their first lines. *)
Lemma ayahNumber_is_one_based :
  (exists s v,
      twoLines !! 0%nat = Some s /\
      buildVerses twoLines !! 0%nat = Some v /\
      default [] (content s) !! 0%nat = Some (text v) /\
      ayahNumber v = 1 /\
      ayahNumber v <> Z.of_nat 0 /\
      ayahId v = lit "1:1" /\
      ayahId v <> numberToString (surahNumber v) ++ lit ":"
                  ++ numberToString (ayahNumber v + 1)) /\
  (ayahId <$> buildVerses sameNumber = [lit "1:1"; lit "1:1"] /\
   ~ NoDup (ayahId <$> buildVerses sameNumber)).
Proof.
  split.
  - eexists _, _. repeat split; try reflexivity; vm_compute; discriminate.
  - split; [reflexivity|]. intros H.
    change (ayahId <$> buildVerses sameNumber)
      with [lit "1:1"; lit "1:1"] in H.
    apply NoDup_cons in H as [H _]. apply H. now left.
Qed.

(** ** Binary64 arithmetic

    Facts about the primitive floats, derived from their specification
    ([SpecFloat]): what the comparator of the sort needs (the sign of a
    difference is the order of its operands), and what the guard and the
    quotient of [cosineSimilarity] need. *)

Module B64.

Abbreviation emin := (-1074).

(** *** Digits and canonical mantissas *)

Lemma digits2_pos_bounds (m : positive) :
  2 ^ (Zpos (digits2_pos m) - 1) <= Zpos m < 2 ^ Zpos (digits2_pos m).
Proof.
  induction m as [m IH|m IH|]; simpl digits2_pos.
  - rewrite Pos2Z.inj_succ.
    replace (Z.succ (Zpos (digits2_pos m)) - 1)
      with (Z.succ (Zpos (digits2_pos m) - 1)) by lia.
    rewrite !Z.pow_succ_r by lia. lia.
  - rewrite Pos2Z.inj_succ.
    replace (Z.succ (Zpos (digits2_pos m)) - 1)
      with (Z.succ (Zpos (digits2_pos m) - 1)) by lia.
    rewrite !Z.pow_succ_r by lia. lia.
  - simpl. lia.
Qed.

Lemma bounded_inv (m : positive) (e : Z) :
  bounded prec emax m e = true ->
  emin <= e <= 971 /\
  Zpos (digits2_pos m) <= 53 /\
  (emin < e -> Zpos (digits2_pos m) = 53).
Proof.
  unfold bounded, canonical_mantissa, fexp, SpecFloat.emin, prec, emax.
  intros H. apply andb_true_iff in H as [H1 H2].
  apply Z.eqb_eq in H1. apply Z.leb_le in H2. lia.
Qed.

Lemma pow2_pos (k : Z) : 0 <= k -> 0 < 2 ^ k.
Proof. intros. apply Z.pow_pos_nonneg; lia. Qed.

(** *** An integer that orders the floats *)

Lemma finite_rank_bounds (m : positive) (e : Z) :
  bounded prec emax m e = true ->
  0 < Zpos m * 2 ^ (e + 1074) < 2 ^ 2098.
Proof.
  intros H. apply bounded_inv in H as (He & Hd & _).
  pose proof (digits2_pos_bounds m) as [_ Hm].
  pose proof (pow2_pos (e + 1074) ltac:(lia)) as Hp.
  split; [nia|].
  apply Z.lt_le_trans with (2 ^ Zpos (digits2_pos m) * 2 ^ (e + 1074)).
  - apply Z.mul_lt_mono_pos_r; assumption.
  - rewrite <- Z.pow_add_r by lia. apply Z.pow_le_mono_r; lia.
Qed.

(** Among canonical mantissas, the exponent decides first. *)
Lemma finite_rank_exponent (m1 m2 : positive) (e1 e2 : Z) :
  bounded prec emax m1 e1 = true ->
  bounded prec emax m2 e2 = true ->
  e1 < e2 ->
  Zpos m1 * 2 ^ (e1 + 1074) < Zpos m2 * 2 ^ (e2 + 1074).
Proof.
  intros H1 H2 Hlt.
  apply bounded_inv in H1 as (He1 & Hd1 & _).
  apply bounded_inv in H2 as (He2 & _ & Hd2).
  specialize (Hd2 ltac:(lia)).
  pose proof (digits2_pos_bounds m1) as [_ Hm1].
  pose proof (digits2_pos_bounds m2) as [Hm2 _].
  rewrite Hd2 in Hm2.
  pose proof (pow2_pos (e1 + 1074) ltac:(lia)) as Hp1.
  apply Z.lt_le_trans with (2 ^ 53 * 2 ^ (e1 + 1074)).
  - apply Z.mul_lt_mono_pos_r; [assumption|].
    apply Z.lt_le_trans with (2 ^ Zpos (digits2_pos m1)); [assumption|].
    apply Z.pow_le_mono_r; lia.
  - apply Z.le_trans with (2 ^ (53 - 1) * 2 ^ (e2 + 1074)).
    + rewrite <- !Z.pow_add_r by lia. apply Z.pow_le_mono_r; lia.
    + apply Z.mul_le_mono_nonneg_r; [|assumption].
      apply Z.lt_le_incl, pow2_pos. lia.
Qed.

Lemma compare_cont_Eq (p q : positive) :
  Pos.compare_cont Eq p q = (Zpos p ?= Zpos q).
Proof. reflexivity. Qed.

Ltac compare_by_lia :=
  f_equal; symmetry;
  first [ apply Z.compare_lt_iff; lia
        | apply Z.compare_gt_iff; lia
        | apply Z.compare_eq_iff; lia ].

Lemma SFcompare_rank (x y : spec_float) :
  valid_binary x = true -> valid_binary y = true ->
  notNaN x -> notNaN y ->
  SFcompare x y = Some (rank x ?= rank y).
Proof.
  intros Vx Vy Nx Ny.
  destruct x as [sx|sx| |sx mx ex]; [| |now destruct Nx|];
    (destruct y as [sy|sy| |sy my ey]; [| |now destruct Ny|]);
    cbn [valid_binary] in Vx, Vy;
    try pose proof (finite_rank_bounds mx ex Vx);
    try pose proof (finite_rank_bounds my ey Vy);
    assert (0 < 2 ^ 2098) by (apply pow2_pos; lia).
  - reflexivity.
  - destruct sy; cbn [SFcompare rank cond_Zopp]; compare_by_lia.
  - destruct sy; cbn [SFcompare rank cond_Zopp]; compare_by_lia.
  - destruct sx; cbn [SFcompare rank cond_Zopp]; compare_by_lia.
  - destruct sx, sy; cbn [SFcompare rank cond_Zopp]; compare_by_lia.
  - destruct sx, sy; cbn [SFcompare rank cond_Zopp]; compare_by_lia.
  - destruct sx; cbn [SFcompare rank cond_Zopp]; compare_by_lia.
  - destruct sx, sy; cbn [SFcompare rank cond_Zopp]; compare_by_lia.
  - destruct sx, sy; cbn [SFcompare rank cond_Zopp]; try compare_by_lia.
    + (* both negative *)
      destruct (Z.compare_spec ex ey) as [->|Hlt|Hgt].
      * rewrite compare_cont_Eq.
        destruct (Z.compare_spec (Zpos mx) (Zpos my)) as [E|E|E];
          cbn [CompOpp].
        -- rewrite E. compare_by_lia.
        -- f_equal; symmetry. apply Z.compare_gt_iff. nia.
        -- f_equal; symmetry. apply Z.compare_lt_iff. nia.
      * pose proof (finite_rank_exponent _ _ _ _ Vx Vy Hlt).
        compare_by_lia.
      * pose proof (finite_rank_exponent _ _ _ _ Vy Vx Hgt).
        compare_by_lia.
    + destruct (Z.compare_spec ex ey) as [->|Hlt|Hgt].
      * rewrite compare_cont_Eq.
        destruct (Z.compare_spec (Zpos mx) (Zpos my)) as [E|E|E].
        -- rewrite E. compare_by_lia.
        -- f_equal; symmetry. apply Z.compare_lt_iff. nia.
        -- f_equal; symmetry. apply Z.compare_gt_iff. nia.
      * pose proof (finite_rank_exponent _ _ _ _ Vx Vy Hlt).
        compare_by_lia.
      * pose proof (finite_rank_exponent _ _ _ _ Vy Vx Hgt).
        compare_by_lia.
Qed.

(** *** Rounding keeps the sign *)

Lemma shr_1_m (mrs : shr_record) :
  0 <= shr_m mrs -> shr_m (shr_1 mrs) = shr_m mrs / 2.
Proof.
  destruct mrs as [m r s]. cbn [shr_m]. intros Hm.
  rewrite <- Z.div2_div.
  destruct m as [|[p|p|]|p]; try reflexivity. lia.
Qed.

Lemma pow2_xO (p : positive) : 2 ^ Zpos p~0 = 2 ^ Zpos p * 2 ^ Zpos p.
Proof.
  replace (Zpos p~0) with (Zpos p + Zpos p) by lia.
  apply Z.pow_add_r; lia.
Qed.

Lemma pow2_xI (p : positive) :
  2 ^ Zpos p~1 = 2 * (2 ^ Zpos p * 2 ^ Zpos p).
Proof.
  replace (Zpos p~1) with (Z.succ (Zpos p~0)) by lia.
  rewrite Z.pow_succ_r by lia. now rewrite pow2_xO.
Qed.

Lemma iter_shr_1_m (p : positive) (mrs : shr_record) :
  0 <= shr_m mrs ->
  shr_m (SpecFloat.iter_pos shr_1 p mrs) = shr_m mrs / 2 ^ Zpos p.
Proof.
  revert mrs.
  induction p as [p IH|p IH|]; intros mrs Hm; cbn [SpecFloat.iter_pos].
  - assert (H1 : 0 <= shr_m (shr_1 mrs))
      by (rewrite shr_1_m by assumption; apply Z.div_pos; lia).
    assert (H2 : 0 <= shr_m (SpecFloat.iter_pos shr_1 p (shr_1 mrs)))
      by (rewrite IH by assumption; apply Z.div_pos;
          [assumption | apply pow2_pos; lia]).
    rewrite IH by assumption. rewrite IH by assumption.
    rewrite shr_1_m by assumption.
    pose proof (pow2_pos (Zpos p) ltac:(lia)).
    rewrite !Z.div_div by lia. now rewrite pow2_xI, Z.mul_assoc.
  - assert (H2 : 0 <= shr_m (SpecFloat.iter_pos shr_1 p mrs))
      by (rewrite IH by assumption; apply Z.div_pos;
          [assumption | apply pow2_pos; lia]).
    rewrite IH by assumption. rewrite IH by assumption.
    pose proof (pow2_pos (Zpos p) ltac:(lia)).
    rewrite !Z.div_div by lia. now rewrite pow2_xO.
  - rewrite shr_1_m by assumption. reflexivity.
Qed.

Lemma shr_record_of_loc_m (m : Z) (l : location) :
  shr_m (shr_record_of_loc m l) = m.
Proof. now destruct l as [|[]]. Qed.

(** Shifting a mantissa to its place never shifts it out, as long as
    the exponent is not below [emin]. *)
Lemma shr_fexp_pos (m : positive) (e : Z) (l : location) :
  emin <= e ->
  0 < shr_m (fst (shr_fexp prec emax (Zpos m) e l)) /\
  emin <= snd (shr_fexp prec emax (Zpos m) e l).
Proof.
  intros He. unfold shr_fexp, shr, fexp, SpecFloat.emin, prec, emax.
  cbn [Zdigits2].
  pose proof (digits2_pos_bounds m) as [Hlo _].
  set (d := Zpos (digits2_pos m)) in *.
  destruct (Z.max (d + e - 53) (3 - 1024 - 53) - e) as [|p|p] eqn:En;
    cbn [fst snd].
  - rewrite shr_record_of_loc_m. lia.
  - rewrite iter_shr_1_m by (rewrite shr_record_of_loc_m; lia).
    rewrite shr_record_of_loc_m. split; [|lia].
    apply Z.div_str_pos. split; [apply pow2_pos; lia|].
    apply Z.le_trans with (2 ^ (d - 1)); [|assumption].
    apply Z.pow_le_mono_r; lia.
  - rewrite shr_record_of_loc_m. lia.
Qed.

Lemma round_nearest_even_pos (mx : Z) (lx : location) :
  0 < mx -> 0 < round_nearest_even mx lx.
Proof.
  intros H. destruct lx as [|[]]; cbn [round_nearest_even];
    try destruct (Z.even mx); lia.
Qed.

Lemma binary_round_aux_sign (s : bool) (m : positive) (e : Z)
  (l : location) :
  emin <= e ->
  sf_pos (binary_round_aux prec emax s (Zpos m) e l) = negb s.
Proof.
  intros He. unfold binary_round_aux.
  pose proof (shr_fexp_pos m e l He) as [Hm1 He1].
  destruct (shr_fexp prec emax (Zpos m) e l) as [mrs' e'].
  cbn [fst snd] in Hm1, He1.
  pose proof (round_nearest_even_pos (shr_m mrs') (loc_of_shr_record mrs')
                Hm1) as Hr.
  destruct (round_nearest_even (shr_m mrs') (loc_of_shr_record mrs'))
    as [|m1|m1]; try lia.
  pose proof (shr_fexp_pos m1 e' loc_Exact He1) as [Hm2 _].
  destruct (shr_fexp prec emax (Zpos m1) e' loc_Exact) as [mrs'' e''].
  cbn [fst] in Hm2.
  destruct (shr_m mrs'') as [|m2|m2]; try lia.
  destruct (e'' <=? emax - prec); now destruct s.
Qed.

Lemma pos_iter_xO (m d : positive) :
  Zpos (Pos.iter xO m d) = Zpos m * 2 ^ Zpos d.
Proof.
  change (Pos.iter xO m d) with (shift_pos d m).
  rewrite shift_pos_correct. rewrite Z.mul_comm. reflexivity.
Qed.

Lemma shl_align_value (m : positive) (e e' : Z) :
  e' <= e ->
  Zpos (fst (shl_align m e e')) = Zpos m * 2 ^ (e - e') /\
  snd (shl_align m e e') = e'.
Proof.
  intros Hle. unfold shl_align.
  destruct (e' - e) as [|d|d] eqn:Ed; cbn [fst snd].
  - replace (e - e') with 0 by lia. split; lia.
  - lia.
  - rewrite pos_iter_xO. replace (e - e') with (Zpos d) by lia. auto.
Qed.

Lemma binary_round_sign (s : bool) (m : positive) (e : Z) :
  emin <= e -> sf_pos (binary_round prec emax s m e) = negb s.
Proof.
  intros He. unfold binary_round.
  assert (Hz : emin <= snd (shl_align m e
                              (fexp prec emax (Zpos (digits2_pos m) + e)))).
  { unfold shl_align, fexp, SpecFloat.emin, prec, emax.
    destruct (Z.max _ _ - e) eqn:Ed; cbn [snd]; lia. }
  destruct (shl_align m e (fexp prec emax (Zpos (digits2_pos m) + e)))
    as [mz ez]. cbn [snd] in Hz.
  now apply binary_round_aux_sign.
Qed.

Lemma binary_normalize_sign (M e : Z) :
  emin <= e ->
  sf_pos (binary_normalize prec emax M e false) = (0 <? M).
Proof.
  intros He. destruct M as [|m|m]; cbn [binary_normalize].
  - reflexivity.
  - now rewrite binary_round_sign.
  - now rewrite binary_round_sign.
Qed.

(** *** The sign of a difference *)

Ltac ltb_by_lia :=
  first [ reflexivity
        | symmetry; apply Z.ltb_lt; lia
        | symmetry; apply Z.ltb_ge; lia ].

Lemma SFsub_finite_sign (sx sy : bool) (mx my : positive) (ex ey : Z) :
  bounded prec emax mx ex = true ->
  bounded prec emax my ey = true ->
  sf_pos (SFsub prec emax (S754_finite sy my ey) (S754_finite sx mx ex))
  = (rank (S754_finite sx mx ex) <? rank (S754_finite sy my ey)).
Proof.
  intros Vx Vy.
  pose proof (bounded_inv _ _ Vx) as (Hex & _).
  pose proof (bounded_inv _ _ Vy) as (Hey & _).
  cbn [SFsub rank].
  rewrite binary_normalize_sign by lia.
  destruct (shl_align_value my ey (Z.min ey ex) ltac:(lia)) as [-> _].
  destruct (shl_align_value mx ex (Z.min ey ex) ltac:(lia)) as [-> _].
  set (ez := Z.min ey ex).
  assert (Hy : 2 ^ (ey + 1074) = 2 ^ (ey - ez) * 2 ^ (ez + 1074))
    by (rewrite <- Z.pow_add_r by lia; f_equal; lia).
  assert (Hx : 2 ^ (ex + 1074) = 2 ^ (ex - ez) * 2 ^ (ez + 1074))
    by (rewrite <- Z.pow_add_r by lia; f_equal; lia).
  rewrite Hy, Hx.
  pose proof (pow2_pos (ez + 1074) ltac:(lia)) as HP.
  pose proof (pow2_pos (ey - ez) ltac:(lia)) as HA.
  pose proof (pow2_pos (ex - ez) ltac:(lia)) as HB.
  set (P := 2 ^ (ez + 1074)) in *.
  set (A := Zpos my * 2 ^ (ey - ez)).
  set (B := Zpos mx * 2 ^ (ex - ez)).
  rewrite !Z.mul_assoc. fold A B.
  assert (0 < A) by (unfold A; nia).
  assert (0 < B) by (unfold B; nia).
  assert (HAP : 0 < A * P) by nia.
  assert (HBP : 0 < B * P) by nia.
  destruct sx, sy; cbn [cond_Zopp].
  - destruct (Z.ltb_spec 0 (- A - - B));
      destruct (Z.ltb_spec (- (B * P)) (- (A * P)));
      try reflexivity; exfalso; nia.
  - destruct (Z.ltb_spec 0 (A - - B));
      destruct (Z.ltb_spec (- (B * P)) (A * P));
      try reflexivity; exfalso; nia.
  - destruct (Z.ltb_spec 0 (- A - B));
      destruct (Z.ltb_spec (B * P) (- (A * P)));
      try reflexivity; exfalso; nia.
  - destruct (Z.ltb_spec 0 (A - B));
      destruct (Z.ltb_spec (B * P) (A * P));
      try reflexivity; exfalso; nia.
Qed.

(** For operands that are not NaN, [y - x] is positive exactly when
    [x] is below [y]: the subtraction may round, it never reaches or
    crosses zero. *)
Lemma SFsub_sign (x y : spec_float) :
  valid_binary x = true -> valid_binary y = true ->
  notNaN x -> notNaN y ->
  sf_pos (SFsub prec emax y x) = (rank x <? rank y).
Proof.
  intros Vx Vy Nx Ny.
  destruct x as [sx|sx| |sx mx ex]; [| |now destruct Nx|];
    (destruct y as [sy|sy| |sy my ey]; [| |now destruct Ny|]);
    cbn [valid_binary] in Vx, Vy;
    try pose proof (finite_rank_bounds mx ex Vx);
    try pose proof (finite_rank_bounds my ey Vy);
    assert (0 < 2 ^ 2098) by (apply pow2_pos; lia);
    try (now apply SFsub_finite_sign).
  - now destruct sx, sy.
  - destruct sy; cbn [SFsub sf_pos SFltb SFcompare rank cond_Zopp];
      ltb_by_lia.
  - destruct sy; cbn [SFsub sf_pos SFltb SFcompare rank cond_Zopp];
      ltb_by_lia.
  - destruct sx; cbn [SFsub sf_pos SFltb SFcompare rank cond_Zopp negb];
      ltb_by_lia.
  - destruct sx, sy;
      cbn [SFsub sf_pos SFltb SFcompare rank cond_Zopp negb]; ltb_by_lia.
  - destruct sx, sy;
      cbn [SFsub sf_pos SFltb SFcompare rank cond_Zopp negb]; ltb_by_lia.
  - destruct sx; cbn [SFsub sf_pos SFltb SFcompare rank cond_Zopp negb];
      ltb_by_lia.
  - destruct sx, sy;
      cbn [SFsub sf_pos SFltb SFcompare rank cond_Zopp negb]; ltb_by_lia.
Qed.

(** *** The primitive operations *)

Local Open Scope float_scope.

Lemma is_nan_SF (x : float) : is_nan x = true <-> Prim2SF x = S754_nan.
Proof.
  unfold is_nan. rewrite FloatAxioms.eqb_spec. unfold SFeqb.
  destruct (Prim2SF x) as [s|s| |s m e] eqn:E.
  - split; discriminate.
  - destruct s; split; discriminate.
  - split; reflexivity.
  - rewrite SFcompare_rank;
      [|rewrite <- E; apply Prim2SF_valid ..|discriminate|discriminate].
    rewrite Z.compare_refl. split; discriminate.
Qed.

Lemma not_nan_SF (x : float) : is_nan x = false -> notNaN (Prim2SF x).
Proof.
  intros H E. apply is_nan_SF in E. congruence.
Qed.

Lemma ltb_rank (x y : float) :
  is_nan x = false -> is_nan y = false ->
  (x <? y) = (rank (Prim2SF x) <? rank (Prim2SF y))%Z.
Proof.
  intros Hx Hy. rewrite FloatAxioms.ltb_spec. unfold SFltb.
  rewrite SFcompare_rank by auto using Prim2SF_valid, not_nan_SF.
  reflexivity.
Qed.

Lemma leb_rank (x y : float) :
  is_nan x = false -> is_nan y = false ->
  (x <=? y) = (rank (Prim2SF x) <=? rank (Prim2SF y))%Z.
Proof.
  intros Hx Hy. rewrite FloatAxioms.leb_spec. unfold SFleb.
  rewrite SFcompare_rank by auto using Prim2SF_valid, not_nan_SF.
  unfold Z.leb. now destruct (rank (Prim2SF x) ?= rank (Prim2SF y))%Z.
Qed.

(** The comparator [(a, b) => b - a] is right about floats that are not
    NaN. *)
Lemma sub_sign (x y : float) :
  is_nan x = false -> is_nan y = false ->
  (0 <? y - x) = (x <? y).
Proof.
  intros Hx Hy. rewrite (ltb_rank x y Hx Hy).
  rewrite FloatAxioms.ltb_spec, FloatAxioms.sub_spec.
  change (Prim2SF 0) with (S754_zero false).
  apply SFsub_sign; auto using Prim2SF_valid, not_nan_SF.
Qed.

Lemma ltb_false_leb (x y : float) :
  is_nan x = false -> is_nan y = false ->
  (x <? y) = false -> (y <=? x) = true.
Proof.
  intros Hx Hy. rewrite (ltb_rank x y Hx Hy), (leb_rank y x Hy Hx).
  intros H. apply Z.ltb_ge in H. now apply Z.leb_le.
Qed.

Lemma ltb_true_leb (x y : float) :
  is_nan x = false -> is_nan y = false ->
  (x <? y) = true -> (x <=? y) = true.
Proof.
  intros Hx Hy. rewrite (ltb_rank x y Hx Hy), (leb_rank x y Hx Hy).
  intros H. apply Z.ltb_lt in H. apply Z.leb_le. lia.
Qed.

Lemma leb_trans (x y z : float) :
  is_nan x = false -> is_nan y = false -> is_nan z = false ->
  (x <=? y) = true -> (y <=? z) = true -> (x <=? z) = true.
Proof.
  intros Hx Hy Hz.
  rewrite (leb_rank x y Hx Hy), (leb_rank y z Hy Hz), (leb_rank x z Hx Hz).
  rewrite !Z.leb_le. lia.
Qed.

(** *** Zeros, finite values, and the quotient of a float by itself *)

Lemma is_zero_SF (x : float) :
  is_zero x = true <-> exists s, Prim2SF x = S754_zero s.
Proof.
  unfold is_zero. rewrite FloatAxioms.eqb_spec.
  change (Prim2SF PrimFloat.zero) with (S754_zero false). unfold SFeqb.
  destruct (Prim2SF x) as [s|s| |s m e]; cbn [SFcompare].
  - split; [intros _; now exists s | reflexivity].
  - destruct s; split; try discriminate; intros [s' H]; discriminate.
  - split; [discriminate | intros [s' H]; discriminate].
  - destruct s; split; try discriminate; intros [s' H]; discriminate.
Qed.

Lemma is_finite_SF (x : float) :
  is_finite x = true ->
  (exists s, Prim2SF x = S754_zero s) \/
  (exists s m e, Prim2SF x = S754_finite s m e).
Proof.
  unfold is_finite. intros H. apply negb_true_iff, orb_false_iff in H.
  destruct H as [Hn Hi]. unfold is_infinity in Hi.
  rewrite FloatAxioms.eqb_spec, FloatAxioms.abs_spec in Hi.
  change (Prim2SF PrimFloat.infinity) with (S754_infinity false) in Hi.
  destruct (Prim2SF x) as [s|s| |s m e] eqn:E.
  - left. now exists s.
  - discriminate Hi.
  - apply is_nan_SF in E. congruence.
  - right. now exists s, m, e.
Qed.

Lemma finite_nonzero_SF (x : float) :
  is_finite x = true -> is_zero x = false ->
  exists s m e, Prim2SF x = S754_finite s m e.
Proof.
  intros Hf Hz. destruct (is_finite_SF x Hf) as [H|H]; [|exact H].
  apply is_zero_SF in H. congruence.
Qed.

(** Zero times a finite value is zero. *)
Lemma mul_zero_finite (x y : float) :
  is_zero x = true -> is_finite y = true ->
  is_zero (x * y) = true /\ is_zero (y * x) = true.
Proof.
  intros Hx Hy. apply is_zero_SF in Hx as [s Hx].
  split; apply is_zero_SF; rewrite FloatAxioms.mul_spec, Hx;
    destruct (is_finite_SF y Hy) as [[s' ->]|(s' & m & e & ->)];
    cbn; eauto.
Qed.

Lemma div_eucl_self (m : positive) (k : Z) :
  0 <= k -> Z.div_eucl (Z.shiftl (Zpos m) k) (Zpos m) = (2 ^ k, 0)%Z.
Proof.
  intros Hk. rewrite Z.shiftl_mul_pow2 by assumption.
  assert (H : forall a b, Z.div_eucl a b = (a / b, a mod b)%Z).
  { intros a b. unfold Z.div, Z.modulo. now destruct (Z.div_eucl a b). }
  rewrite H. f_equal.
  - rewrite Z.mul_comm. apply Z.div_mul. lia.
  - rewrite Z.mul_comm. apply Z.mod_mul. lia.
Qed.

(** A finite, non-zero float divided by itself is exactly one. *)
Lemma div_self (x : float) :
  is_finite x = true -> is_zero x = false -> x / x = 1.
Proof.
  intros Hf Hz. destruct (finite_nonzero_SF x Hf Hz) as (s & m & e & E).
  apply Prim2SF_inj. rewrite FloatAxioms.div_spec, E.
  unfold SF64div, SFdiv, SFdiv_core_binary. cbn [Zdigits2].
  rewrite !Z.sub_diag.
  change (Z.min (fexp prec emax 0) 0) with (-53)%Z.
  change (0 - -53)%Z with 53%Z. cbv iota.
  rewrite (div_eucl_self m 53) by lia.
  assert (Hloc : new_location (Zpos m) 0 = loc_Exact).
  { unfold new_location, new_location_even, new_location_odd.
    now destruct (Z.even (Zpos m)). }
  rewrite Hloc. rewrite xorb_nilpotent.
  vm_compute. reflexivity.
Qed.

Local Close Scope float_scope.

End B64.

(** ** The similarity scorer *)

Section Cosine.

Local Open Scope float_scope.

Lemma cosineLoop_spec (a b : Vec) (dot normA normB : float) :
  length a = length b ->
  cosineLoop a b dot normA normB
  = (fold_left (fun acc p => acc + fst p * snd p) (zip a b) dot,
     fold_left (fun acc x => acc + x * x) a normA,
     fold_left (fun acc x => acc + x * x) b normB).
Proof.
  revert b dot normA normB.
  induction a as [|x a IH]; intros [|y b] dot normA normB Hlen;
    try discriminate Hlen; [reflexivity|].
  cbn [cosineLoop]. rewrite IH by (simpl in Hlen; lia). reflexivity.
Qed.

Lemma cosineSimilarity_mismatch (a b : Vec) :
  length a <> length b -> cosineSimilarity a b = 0.
Proof.
  intros H. unfold cosineSimilarity.
  destruct (Nat.eqb_spec (length a) (length b)); [contradiction|].
  reflexivity.
Qed.

Lemma cosineSimilarity_eq (a b : Vec) :
  length a = length b ->
  cosineSimilarity a b
  = if norm a * norm b =? 0 then 0 else dotp a b / (norm a * norm b).
Proof.
  intros H. unfold cosineSimilarity.
  rewrite H, Nat.eqb_refl. cbn [negb].
  rewrite cosineLoop_spec by assumption. reflexivity.
Qed.

Lemma fold_zip_self (v : Vec) (acc : float) :
  fold_left (fun acc p => acc + fst p * snd p) (zip v v) acc
  = fold_left (fun acc x => acc + x * x) v acc.
Proof.
  revert acc. induction v as [|x v IH]; intros acc; [reflexivity|].
  simpl. apply IH.
Qed.

Lemma dotp_self (v : Vec) : dotp v v = sumsq v.
Proof. apply fold_zip_self. Qed.

End Cosine.

(** C6 (as amended): in binary64 arithmetic, [cosineSimilarity(a, b)] is
    0 whenever the lengths differ, and whenever the computed norm of one
    argument is zero and that of the other is finite (the denominator is
    then zero and the guard applies); [cosineSimilarity(v, v)] is
    [n / (sqrt n * sqrt n)] for the computed sum of squares [n] of [v]
    unless that denominator is zero, and it is exactly 1 when [n] is
    finite, not zero, and [sqrt n * sqrt n] gives [n] back. The function
    is total: no argument makes it fail. *)
Theorem cosineSimilarity_guards (a b v : Vec) :
  (length a <> length b -> cosineSimilarity a b = 0%float) /\
  (length a = length b ->
   (is_zero (norm a) = true /\ is_finite (norm b) = true) \/
   (is_finite (norm a) = true /\ is_zero (norm b) = true) ->
   cosineSimilarity a b = 0%float) /\
  cosineSimilarity v v
  = (if norm v * norm v =? 0 then 0
     else sumsq v / (norm v * norm v))%float /\
  (is_finite (sumsq v) = true -> is_zero (sumsq v) = false ->
   (norm v * norm v)%float = sumsq v ->
   cosineSimilarity v v = 1%float).
Proof.
  split; [apply cosineSimilarity_mismatch|]. split; [|split].
  - intros Hlen Hnorm. rewrite cosineSimilarity_eq by assumption.
    assert (Hz : is_zero (norm a * norm b) = true).
    { destruct Hnorm as [[Ha Hb]|[Ha Hb]].
      - apply (B64.mul_zero_finite _ _ Ha Hb).
      - apply (B64.mul_zero_finite _ _ Hb Ha). }
    change ((norm a * norm b =? 0)%float = true) in Hz. now rewrite Hz.
  - rewrite cosineSimilarity_eq by reflexivity. now rewrite dotp_self.
  - intros Hf Hz Hsq. rewrite cosineSimilarity_eq by reflexivity.
    rewrite dotp_self, Hsq.
    change ((sumsq v =? 0)%float = false) in Hz. rewrite Hz.
    now apply B64.div_self.
Qed.

Lemma cosineSimilarity_guards_witness :
  cosineSimilarity [1; 2]%float [3]%float = 0%float /\
  cosineSimilarity [0; 0]%float [3; 4]%float = 0%float /\
  cosineSimilarity [3; 4]%float [3; 4]%float = 1%float.
Proof.
  pose proof (cosineSimilarity_guards [1; 2]%float [3]%float
                [3; 4]%float) as (H1 & _ & _ & H4).
  pose proof (cosineSimilarity_guards [0; 0]%float [3; 4]%float
                [3; 4]%float) as (_ & H2 & _ & _).
  split; [apply H1; simpl; lia|].
  split; [apply H2; [reflexivity | left; split; reflexivity]|].
  apply H4; reflexivity.
Defined.

(** C6 as stated fails in the arithmetic of the code.
    [sqrt 2 * sqrt 2] is not 2, so the similarity of [[1, 1]] with
    itself is the float below 1; the square of [2^-600] underflows to
    zero, so this non-zero vector has similarity 0 with itself; and the
    square of [2^600] overflows, so against it the zero vector gets NaN,
    which the guard [denom === 0] lets through. *)
Lemma cosineSimilarity_not_exact :
  (cosineSimilarity [1; 1]%float [1; 1]%float = 0x1.ffffffffffffep-1%float /\
   (cosineSimilarity [1; 1]%float [1; 1]%float =? 1)%float = false) /\
  (is_zero 0x1p-600%float = false /\
   cosineSimilarity [0x1p-600]%float [0x1p-600]%float = 0%float) /\
  (is_zero (norm [0]%float) = true /\
   is_nan (cosineSimilarity [0]%float [0x1p+600]%float) = true /\
   (cosineSimilarity [0]%float [0x1p+600]%float =? 0)%float = false).
Proof. vm_compute. repeat split. Qed.

(** ** The ranking *)

Lemma sortsAfter_ltb (a b : SearchResult) :
  scoreIsNumber a -> scoreIsNumber b ->
  sortsAfter a b = (score a <? score b)%float.
Proof.
  intros Ha Hb. unfold sortsAfter, compareFn. now apply B64.sub_sign.
Qed.

Lemma insertSorted_sorted (x : SearchResult) (l : list SearchResult) :
  scoreIsNumber x -> Forall scoreIsNumber l ->
  StronglySorted byScore l -> StronglySorted byScore (insertSorted x l).
Proof.
  intros Hx Hl Hs. induction Hs as [|y l Hs IH Hy]; cbn [insertSorted].
  - repeat constructor.
  - apply Forall_cons in Hl as [Hyn Hl].
    rewrite (sortsAfter_ltb x y Hx Hyn).
    destruct (score x <? score y)%float eqn:E.
    + constructor; [now apply IH|].
      rewrite insertSorted_Permutation. constructor; [|exact Hy].
      now apply B64.ltb_true_leb.
    + assert (Hyx : byScore x y) by now apply B64.ltb_false_leb.
      constructor; [now constructor|].
      constructor; [exact Hyx|].
      rewrite Forall_forall in Hy, Hl |- *. intros z Hz.
      apply (B64.leb_trans (score z) (score y) (score x));
        auto; apply Hy || apply Hl; exact Hz.
Qed.

Lemma sort_sorted (l : list SearchResult) :
  Forall scoreIsNumber l -> StronglySorted byScore (sort l).
Proof.
  induction 1 as [|x l Hx Hl IH]; cbn [sort foldr]; [constructor|].
  apply insertSorted_sorted; [exact Hx | | exact IH].
  fold (sort l). now rewrite sort_Permutation.
Qed.

Lemma sorted_lookup (l : list SearchResult) (i j : nat)
  (a b : SearchResult) :
  StronglySorted byScore l -> (i < j)%nat ->
  l !! i = Some a -> l !! j = Some b -> byScore a b.
Proof.
  intros Hs. revert i j.
  induction Hs as [|x l Hs IH Hx]; intros i j Hij Hi Hj; [discriminate|].
  destruct j as [|j]; [lia|]. cbn in Hj.
  destruct i as [|i]; cbn in Hi.
  - injection Hi as <-. rewrite Forall_forall in Hx. apply Hx.
    eapply list_elem_of_lookup_2; eauto.
  - apply (IH i j); auto; lia.
Qed.

(** The sort decides on the scores only. *)
Lemma sort_relabel (f : Verse -> Verse) (l : list SearchResult) :
  sort (relabel f <$> l) = relabel f <$> sort l.
Proof.
  induction l as [|x l IH]; [reflexivity|].
  rewrite fmap_cons. cbn [sort foldr]. fold (sort l).
  fold (sort (relabel f <$> l)). rewrite IH.
  generalize (sort l). clear. intros l.
  induction l as [|y l IH]; [reflexivity|].
  rewrite fmap_cons. cbn [insertSorted].
  change (sortsAfter (relabel f x) (relabel f y)) with (sortsAfter x y).
  destruct (sortsAfter x y); [|reflexivity].
  rewrite fmap_cons. now rewrite IH.
Qed.

(** C8 (as amended): when the try block completes, with the array
    [scored], the call returns a rearrangement of [scored] cut by
    [slice(0, topK)]. When no score is NaN the rearrangement is the one
    of the stable sort by descending score, so a result never comes
    before one with a higher score; with a NaN among the scores the
    comparator is not consistent and the order is the engine's, of which
    nothing is said here. The array lists the pool in the order of the
    pool and is the same for every order of arrival of the responses,
    and so is the result; the sort looks at the scores only. The result
    has at most [topK] elements when [topK >= 0]. *)
Theorem semantic_results_ranked (toLowerCase : jsstring -> jsstring)
  (respond : nat -> Request -> Response) (sched : list nat)
  (query : jsstring) (topK : Z) (st : State) (scored : list SearchResult) :
  truthy (trim query) = true ->
  fst (scorePool respond sched (trim query)
         (slice 0 MAX_VERSES_TO_EMBED (verses st)) st) = Ok scored ->
  exists results sorted : list SearchResult,
    fst (semanticSearch toLowerCase respond sched query (Some topK) st)
    = Ok results /\
    results = slice 0 topK sorted /\
    sorted ≡ₚ scored /\
    (Forall scoreIsNumber scored -> sorted = sort scored) /\
    verse <$> scored = slice 0 MAX_VERSES_TO_EMBED (verses st) /\
    (forall sched',
        fst (scorePool respond sched' (trim query)
               (slice 0 MAX_VERSES_TO_EMBED (verses st)) st) = Ok scored /\
        fst (semanticSearch toLowerCase respond sched' query (Some topK) st)
        = Ok results) /\
    (forall f, sort (relabel f <$> scored) = relabel f <$> sort scored) /\
    (0 <= topK -> Z.of_nat (length results) <= topK) /\
    (Forall scoreIsNumber scored ->
     forall (i j : nat) (a b : SearchResult),
       (i < j)%nat ->
       results !! i = Some a ->
       results !! j = Some b ->
       (score b <=? score a)%float = true).
Proof.
  intros Hq Hok.
  assert (Hcall : forall sched',
             fst (scorePool respond sched' (trim query)
                    (slice 0 MAX_VERSES_TO_EMBED (verses st)) st) = Ok scored /\
             fst (semanticSearch toLowerCase respond sched' query (Some topK)
                    st)
             = Ok (slice 0 topK (sort scored))).
  { intros sched'.
    assert (Hok' : fst (scorePool respond sched' (trim query)
                          (slice 0 MAX_VERSES_TO_EMBED (verses st)) st)
                   = Ok scored).
    { apply scorePool_Ok. now apply (scorePool_Ok respond sched). }
    split; [exact Hok'|].
    rewrite (semanticSearch_unfold toLowerCase respond sched' query
               (Some topK) st Hq).
    destruct (scorePool respond sched' (trim query)
                (slice 0 MAX_VERSES_TO_EMBED (verses st)) st)
      as [[scored'|e] st']; simpl in *; congruence. }
  exists (slice 0 topK (sort scored)), (sort scored).
  split; [apply Hcall|]. split; [reflexivity|].
  split; [apply sort_Permutation|]. split; [reflexivity|]. split.
  { eapply semanticScores_verses. apply (scorePool_Ok respond sched).
    exact Hok. }
  split; [exact Hcall|]. split; [intros f; apply sort_relabel|]. split.
  - apply slice_0_length_le.
  - intros Hnum i j a b Hij Hi Hj.
    destruct (slice_0_sublist topK (sort scored)) as [n Hn].
    rewrite Hn in Hi, Hj.
    apply lookup_take_Some in Hi as [Hi _].
    apply lookup_take_Some in Hj as [Hj _].
    exact (sorted_lookup _ i j a b (sort_sorted scored Hnum) Hij Hi Hj).
Qed.

Lemma semantic_results_ranked_witness :
  exists results,
    fst (semanticSearch asciiLower healthy [1%nat; 0%nat] (lit "moon")
           (Some 2) (loaded twoLines)) = Ok results /\
    text <$> (verse <$> results) = [lit "the moon sets"; lit "the sun rises"] /\
    score <$> results = [1; 0]%float /\
    Z.of_nat (length results) <= 2.
Proof.
  eassert (Hok : fst (scorePool healthy [1%nat; 0%nat] (trim (lit "moon"))
                        (slice 0 MAX_VERSES_TO_EMBED
                           (verses (loaded twoLines)))
                        (loaded twoLines)) = Ok _)
    by (vm_compute; reflexivity).
  destruct (semantic_results_ranked asciiLower healthy [1%nat; 0%nat]
              (lit "moon") 2 (loaded twoLines) _ eq_refl Hok)
    as (results & sorted & H1 & Hr & _ & Hs & _ & _ & _ & H5 & _).
  exists results. split; [exact H1|].
  assert (Hn : sorted = sort _)
    by (apply Hs; repeat constructor; vm_compute; reflexivity).
  rewrite Hr, Hn.
  split; [vm_compute; reflexivity|].
  split; [vm_compute; reflexivity|].
  rewrite <- Hn, <- Hr. apply H5. lia.
Defined.

(** C8 as stated fails on two counts. For [topK = -1] the call
    returns one of the two scored records, more than [topK]; and a NaN
    among the scores (here from an infinite component) is neither above
    nor below anything for the comparator, so the result is not in
    order: the score 0 stands in front of the score 1. *)
Lemma ranking_needs_numbers_and_count :
  (exists results,
      fst (semanticSearch asciiLower healthy [] (lit "moon") (Some (-1))
             (loaded twoLines)) = Ok results /\
      length results = 1%nat /\
      ~ (Z.of_nat (length results) <= -1)) /\
  (exists a b c,
      fst (semanticSearch asciiLower overflowing [] (lit "east") (Some 3)
             (loaded threeLines)) = Ok [a; b; c] /\
      score a = 0%float /\ is_nan (score b) = true /\ score c = 1%float /\
      (score c <=? score a)%float = false).
Proof.
  split.
  - eexists. split; [vm_compute; reflexivity|]. split; [reflexivity|].
    simpl. lia.
  - eexists _, _, _. split; [vm_compute; reflexivity|].
    repeat split.
Qed.

(** ** White space around a query *)

Lemma trimStart_app_blank (pre s : jsstring) :
  Forall (fun c => isWhiteSpace c = true) pre ->
  trimStart (pre ++ s) = trimStart s.
Proof.
  induction 1 as [|c pre Hc _ IH]; simpl; [reflexivity|].
  now rewrite Hc.
Qed.

Lemma trimStart_nil (s : jsstring) :
  trimStart s = [] -> Forall (fun c => isWhiteSpace c = true) s.
Proof.
  induction s as [|c s IH]; simpl; [constructor|].
  destruct (isWhiteSpace c) eqn:Hc; [|discriminate].
  intros H. constructor; auto.
Qed.

Lemma trimStart_app (s post : jsstring) :
  trimStart s <> [] -> trimStart (s ++ post) = trimStart s ++ post.
Proof.
  induction s as [|c s IH]; simpl; [congruence|].
  destruct (isWhiteSpace c); auto.
Qed.

Lemma trimEnd_app_blank (s post : jsstring) :
  Forall (fun c => isWhiteSpace c = true) post ->
  trimEnd (s ++ post) = trimEnd s.
Proof.
  intros H. unfold trimEnd. rewrite rev_app_distr.
  rewrite trimStart_app_blank; [reflexivity|].
  now apply Forall_rev.
Qed.

(** Blanks in front of a string and after it do not reach its [trim]. *)
Lemma trim_padded (pre s post : jsstring) :
  Forall (fun c => isWhiteSpace c = true) pre ->
  Forall (fun c => isWhiteSpace c = true) post ->
  trim (pre ++ s ++ post) = trim s.
Proof.
  intros Hpre Hpost. unfold trim. rewrite trimStart_app_blank by assumption.
  destruct (trimStart s) as [|c t] eqn:E.
  - rewrite trimStart_blank; [reflexivity|].
    apply Forall_app. split; [now apply trimStart_nil | assumption].
  - rewrite trimStart_app by (rewrite E; discriminate).
    rewrite E. now apply trimEnd_app_blank.
Qed.

Lemma trimStart_split (s : jsstring) :
  exists pre,
    Forall (fun c => isWhiteSpace c = true) pre /\ s = pre ++ trimStart s.
Proof.
  induction s as [|c s (pre & Hpre & IH)]; simpl.
  - exists []. split; [constructor | reflexivity].
  - destruct (isWhiteSpace c) eqn:Hc.
    + exists (c :: pre). split; [now constructor|]. simpl. now f_equal.
    + exists []. split; [constructor | reflexivity].
Qed.

Lemma trimEnd_split (s : jsstring) :
  exists post,
    Forall (fun c => isWhiteSpace c = true) post /\ s = trimEnd s ++ post.
Proof.
  destruct (trimStart_split (rev s)) as (pre & Hpre & E).
  exists (rev pre). split; [now apply Forall_rev|].
  unfold trimEnd. rewrite <- rev_app_distr, <- E. now rewrite rev_involutive.
Qed.

(** A string is its [trim] between two runs of blanks. *)
Lemma trim_split (s : jsstring) :
  exists pre post,
    Forall (fun c => isWhiteSpace c = true) pre /\
    Forall (fun c => isWhiteSpace c = true) post /\
    s = pre ++ trim s ++ post.
Proof.
  destruct (trimStart_split s) as (pre & Hpre & E1).
  destruct (trimEnd_split (trimStart s)) as (post & Hpost & E2).
  exists pre, post. split; [exact Hpre|]. split; [exact Hpost|].
  unfold trim. now rewrite <- E2.
Qed.

Lemma trim_idempotent (s : jsstring) : trim (trim s) = trim s.
Proof.
  destruct (trim_split s) as (pre & post & Hpre & Hpost & E).
  rewrite E at 2. symmetry. now apply trim_padded.
Qed.

(** X1: blanks around a query are ignored. A query padded with white
    space in front and behind gives the same call as the query itself
    (same result, same requests, same cache), and so does the query
    trimmed beforehand. *)
Theorem semanticSearch_ignores_padding (toLowerCase : jsstring -> jsstring)
  (respond : nat -> Request -> Response) (sched : list nat)
  (pre query post : jsstring) (topK : option Z) (st : State) :
  Forall (fun c => isWhiteSpace c = true) pre ->
  Forall (fun c => isWhiteSpace c = true) post ->
  semanticSearch toLowerCase respond sched (pre ++ query ++ post) topK st
  = semanticSearch toLowerCase respond sched query topK st /\
  semanticSearch toLowerCase respond sched (trim query) topK st
  = semanticSearch toLowerCase respond sched query topK st /\
  getContextForQuery toLowerCase respond sched (pre ++ query ++ post) topK st
  = getContextForQuery toLowerCase respond sched query topK st.
Proof.
  intros Hpre Hpost.
  assert (H1 : semanticSearch toLowerCase respond sched (pre ++ query ++ post)
               = semanticSearch toLowerCase respond sched query).
  { unfold semanticSearch. now rewrite trim_padded. }
  split; [now rewrite H1|]. split.
  - unfold semanticSearch. now rewrite trim_idempotent.
  - unfold getContextForQuery. now rewrite H1.
Qed.

Lemma semanticSearch_ignores_padding_witness :
  semanticSearch asciiLower healthy [] (lit "  sun ") (Some 1)
    (loaded twoLines)
  = semanticSearch asciiLower healthy [] (lit "sun") (Some 1)
      (loaded twoLines).
Proof.
  apply (semanticSearch_ignores_padding asciiLower healthy [] (lit "  ")
           (lit "sun") (lit " ") (Some 1) (loaded twoLines));
    repeat constructor.
Defined.

(** ** What a call does to the cache and to the network *)

Section CacheFacts.

Variable toLowerCase : jsstring -> jsstring.

Variable respond : nat -> Request -> Response.

(** A running slot waits for the vector of its record's text, under a
    key that the cache did not have when the slot started. *)
Lemma planSlots_running_key queryEmbedding cache (n : nat) pool (i : nat)
  v (id : nat) key req :
  planSlots queryEmbedding cache n pool !! i = Some (Running v id key req) ->
  v ∈ pool /\ key = slice 0 200 (text v) /\
  req = {| model := EMBED_MODEL; input := text v |} /\ cache !! key = None.
Proof.
  revert n i. induction pool as [|w pool IH]; intros n i; simpl;
    [discriminate|].
  destruct (cache !! slice 0 200 (text w)) as [vec|] eqn:E.
  - destruct i as [|i]; simpl; [discriminate|].
    intros H. apply IH in H as (H1 & H2). split; [now right | exact H2].
  - destruct i as [|i]; simpl.
    + intros [= <- _ <- <-]. repeat split; auto. now left.
    + intros H. apply IH in H as (H1 & H2). split; [now right | exact H2].
Qed.

Lemma planRequests_length cache pool :
  (length (planRequests cache pool) <= length pool)%nat.
Proof.
  induction pool as [|v pool IH]; simpl; [lia|].
  destruct (cache !! _); simpl; lia.
Qed.

Lemma promiseAll_unfold sched queryEmbedding pool st :
  promiseAll respond sched queryEmbedding pool st
  = let slots := planSlots queryEmbedding (embeddingCache st)
                   (length (requests st)) pool in
    match settle respond queryEmbedding (sched ++ seq 0 (length slots)) slots
            {| verses := verses st;
               embeddingCache := embeddingCache st;
               requests := requests st
                           ++ planRequests (embeddingCache st) pool |} with
    | (Ok slots', st2) => (Ok (omap fulfilled slots'), st2)
    | (Throw e, st2) => (Throw e, st2)
    end.
Proof. unfold promiseAll, bind. now rewrite startAll_plan. Qed.

(** A property of the cache that every store of a running slot keeps
    holds after the responses are handled. *)
Lemma settle_invariant (I : gmap jsstring Vec -> Prop) queryEmbedding
  (order : list nat) :
  forall (slots : list Slot) (st : State),
    (forall i v id key req vec c,
        slots !! i = Some (Running v id key req) ->
        usable (respond id req) = Some vec ->
        I c -> I (<[key := vec]> c)) ->
    I (embeddingCache st) ->
    I (embeddingCache (snd (settle respond queryEmbedding order slots st))).
Proof.
  induction order as [|i order IH]; intros slots st Hstep Hst;
    [exact Hst|].
  simpl. destruct (slots !! i) as [[v id key req|r]|] eqn:Hi;
    [|now apply IH ..].
  unfold bind.
  destruct (usable (respond id req)) as [vec|] eqn:Hu.
  - rewrite (embedFinish_usable _ _ _ _ _ _ Hu). apply IH.
    + intros j v' id' key' req' vec' c Hj.
      destruct (decide (j = i)) as [->|Hne].
      * rewrite list_lookup_insert_eq in Hj
          by now apply lookup_lt_Some in Hi.
        discriminate.
      * rewrite list_lookup_insert_ne in Hj by congruence.
        now apply (Hstep j v').
    + simpl. now apply (Hstep i v id key req).
  - destruct (embedFinish_unusable respond id key req st Hu) as [e ->].
    exact Hst.
Qed.

(** The same for the whole try block: the stores are those of the
    query and of the records of the pool, each under a key the cache did
    not have when the call began. *)
Lemma scorePool_invariant (I : gmap jsstring Vec -> Prop) sched
  (q : jsstring) (pool : list Verse) (st : State) :
  (forall t id vec c,
      t = q \/ (exists v, v ∈ pool /\ t = text v) ->
      embeddingCache st !! slice 0 200 t = None ->
      usable (respond id {| model := EMBED_MODEL; input := t |}) = Some vec ->
      I c -> I (<[slice 0 200 t := vec]> c)) ->
  I (embeddingCache st) ->
  I (embeddingCache (snd (scorePool respond sched q pool st))).
Proof.
  intros Hstep Hst. unfold scorePool, bind.
  assert (Hpool : forall queryEmbedding st1,
             embeddingCache st ⊆ embeddingCache st1 ->
             I (embeddingCache st1) ->
             I (embeddingCache
                  (snd (promiseAll respond sched queryEmbedding pool st1)))).
  { intros queryEmbedding st1 Hsub Hst1. rewrite promiseAll_unfold.
    cbv zeta.
    set (slots := planSlots _ _ _ _). set (st2 := {| verses := _ |}).
    assert (H2 : I (embeddingCache
                      (snd (settle respond queryEmbedding
                              (sched ++ seq 0 (length slots)) slots st2)))).
    { apply settle_invariant; [|exact Hst1].
      intros i v id key req vec c Hi Hu Hc.
      apply planSlots_running_key in Hi as (Hv & -> & -> & Hnone).
      apply (Hstep (text v) id); auto.
      - right. now exists v.
      - destruct (embeddingCache st !! slice 0 200 (text v)) as [x|] eqn:E;
          [|reflexivity].
        eapply lookup_weaken in E; [|exact Hsub]. congruence. }
    now destruct (settle respond queryEmbedding
                    (sched ++ seq 0 (length slots)) slots st2) as [[?|?] ?]. }
  destruct (embed_cases respond q st)
    as [(cached & Hc & He)|(Hc & st1 & _ & Hcase)].
  - rewrite He. now apply Hpool.
  - destruct Hcase as [(vec & Hu & He)|(Hu & Hsame & e & He)].
    + rewrite He.
      rewrite (embed_miss_stored respond q st vec Hc Hu) in He.
      injection He as <-. apply Hpool; simpl.
      * now apply insert_subseteq.
      * apply (Hstep q (length (requests st))); auto.
    + rewrite He. simpl. now rewrite Hsame.
Qed.

Lemma semanticSearch_invariant (I : gmap jsstring Vec -> Prop) sched
  (query : jsstring) (topK : option Z) (st : State) :
  (forall t id vec c,
      t = trim query \/
      (exists v, v ∈ slice 0 MAX_VERSES_TO_EMBED (verses st) /\ t = text v) ->
      embeddingCache st !! slice 0 200 t = None ->
      usable (respond id {| model := EMBED_MODEL; input := t |}) = Some vec ->
      I c -> I (<[slice 0 200 t := vec]> c)) ->
  I (embeddingCache st) ->
  I (embeddingCache
       (snd (semanticSearch toLowerCase respond sched query topK st))).
Proof.
  intros Hstep Hst. destruct (truthy (trim query)) eqn:Hq.
  - rewrite (semanticSearch_state toLowerCase respond sched query topK st Hq).
    now apply scorePool_invariant.
  - now rewrite (semanticSearch_blank_query toLowerCase respond sched query
                   topK st Hq).
Qed.

Lemma getContextForQuery_state sched (query : jsstring)
  (maxVerses : option Z) (st : State) :
  snd (getContextForQuery toLowerCase respond sched query maxVerses st)
  = snd (semanticSearch toLowerCase respond sched query
           (Some (default 5 maxVerses)) st).
Proof.
  rewrite getContextForQuery_unfold.
  now destruct (semanticSearch toLowerCase respond sched query
                  (Some (default 5 maxVerses)) st) as [[?|?] ?].
Qed.

(** The requests of the try block: their number, and that they are the
    same for every order of arrival. *)
Lemma scorePool_requests (q : jsstring) (pool : list Verse) (st : State) :
  exists new,
    (length new <= S (length pool))%nat /\
    forall sched,
      requests (snd (scorePool respond sched q pool st)) = requests st ++ new.
Proof.
  unfold scorePool, bind.
  destruct (embed_cases respond q st)
    as [(cached & Hc & He)|(Hc & st1 & [Hv Hr] & Hcase)].
  - rewrite He. exists (planRequests (embeddingCache st) pool). split.
    + pose proof (planRequests_length (embeddingCache st) pool). lia.
    + intros sched.
      now destruct (promiseAll_spec respond sched cached pool st)
        as [[_ Hsend] _].
  - destruct Hcase as [(vec & Hu & He)|(Hu & _ & e & He)]; rewrite He.
    + exists ({| model := EMBED_MODEL; input := q |}
              :: planRequests (embeddingCache st1) pool). split.
      * simpl. pose proof (planRequests_length (embeddingCache st1) pool).
        lia.
      * intros sched.
        destruct (promiseAll_spec respond sched vec pool st1)
          as [[_ Hsend] _].
        rewrite Hsend, Hr. now rewrite <- app_assoc.
    + exists [{| model := EMBED_MODEL; input := q |}]. split.
      * simpl. lia.
      * intros _. exact Hr.
Qed.

End CacheFacts.

Lemma slice_0_length_min {A : Type} (k : Z) (xs : list A) :
  0 <= k -> length (slice 0 k xs) = (Z.to_nat k `min` length xs)%nat.
Proof.
  intros Hk. rewrite slice_0_nonneg by assumption. apply length_take.
Qed.

(** X2: the cost of a call. Whatever the size of the index, a call of
    [semanticSearch] sends at most 81 requests, one for the query and
    one for each record of the pool, and at most one more than the index
    has records; the requests sent do not depend on the order in which
    the responses arrive. *)
Theorem semanticSearch_request_bound (toLowerCase : jsstring -> jsstring)
  (respond : nat -> Request -> Response)
  (query : jsstring) (topK : option Z) (st : State) :
  exists new,
    (length new <= 81)%nat /\
    (length new <= S (length (verses st)))%nat /\
    forall sched,
      requests (snd (semanticSearch toLowerCase respond sched query topK st))
      = requests st ++ new /\
      requests (snd (getContextForQuery toLowerCase respond sched query topK
                       st))
      = requests st ++ new.
Proof.
  assert (Hctx : forall sched,
             requests (snd (getContextForQuery toLowerCase respond sched
                              query topK st))
             = requests (snd (semanticSearch toLowerCase respond sched query
                                (Some (default 5 topK)) st))).
  { intros sched. now rewrite getContextForQuery_state. }
  destruct (truthy (trim query)) eqn:Hq.
  - destruct (scorePool_requests respond (trim query)
                (slice 0 MAX_VERSES_TO_EMBED (verses st)) st)
      as (new & Hlen & Hreq).
    rewrite slice_0_length_min in Hlen by (unfold MAX_VERSES_TO_EMBED; lia).
    exists new. split; [unfold MAX_VERSES_TO_EMBED in Hlen; lia|].
    split; [lia|]. intros sched. rewrite Hctx.
    rewrite !(semanticSearch_state toLowerCase respond sched query _ st Hq).
    split; apply Hreq.
  - exists []. split; [simpl; lia|]. split; [simpl; lia|].
    intros sched. rewrite Hctx.
    rewrite !(semanticSearch_blank_query toLowerCase respond sched query _
                st Hq).
    simpl. now rewrite app_nil_r.
Qed.

(** X4: the cache only grows. What a call of [embed], [semanticSearch]
    or [getContextForQuery] does itself to the cache is to add entries:
    with no store of an earlier call landing in the meantime, the
    entries that are in the cache when the call starts are in it, with
    the same vectors, when it returns, and the keys that a search adds
    are keys of the trimmed query or of texts of the pool. A late store
    of an earlier call can replace the vector of an entry, but never
    removes a key. *)
Theorem call_keeps_cache_entries (toLowerCase : jsstring -> jsstring)
  (respond : nat -> Request -> Response) (sched : list nat)
  (t query : jsstring) (topK : option Z) (st : State) :
  embeddingCache st ⊆ embeddingCache (snd (embed respond t st)) /\
  embeddingCache st
  ⊆ embeddingCache
      (snd (semanticSearch toLowerCase respond sched query topK st)) /\
  embeddingCache st
  ⊆ embeddingCache
      (snd (getContextForQuery toLowerCase respond sched query topK st)) /\
  (forall k,
      is_Some (embeddingCache
                 (snd (semanticSearch toLowerCase respond sched query topK
                         st)) !! k) ->
      is_Some (embeddingCache st !! k) \/
      k = slice 0 200 (trim query) \/
      exists v, v ∈ slice 0 MAX_VERSES_TO_EMBED (verses st) /\
                k = slice 0 200 (text v)) /\
  (forall (id : nat) req k,
      is_Some (embeddingCache st !! k) ->
      is_Some (embeddingCache
                 (snd (embedFinish respond id (slice 0 200 (input req)) req
                         st)) !! k)).
Proof.
  assert (Hcall : forall topK',
             embeddingCache st
             ⊆ embeddingCache
                 (snd (semanticSearch toLowerCase respond sched query topK'
                         st))).
  { intros topK'.
    apply (semanticSearch_invariant toLowerCase respond
             (fun c => embeddingCache st ⊆ c)); [|reflexivity].
    intros u id vec c _ Hnone _ Hc. now apply insert_subseteq_r. }
  split; [|split; [apply Hcall|split; [|split]]].
  - destruct (embed_cases respond t st)
      as [(cached & Hc & He)|(Hc & st1 & _ & Hcase)].
    + now rewrite He.
    + destruct Hcase as [(vec & Hu & He)|(Hu & Hsame & e & He)].
      * rewrite (embed_miss_stored respond t st vec Hc Hu). simpl.
        now apply insert_subseteq.
      * rewrite He. simpl. now rewrite Hsame.
  - rewrite getContextForQuery_state. apply Hcall.
  - apply (semanticSearch_invariant toLowerCase respond
             (fun c => forall k,
                  is_Some (c !! k) ->
                  is_Some (embeddingCache st !! k) \/
                  k = slice 0 200 (trim query) \/
                  exists v, v ∈ slice 0 MAX_VERSES_TO_EMBED (verses st) /\
                            k = slice 0 200 (text v))); [|now left].
    intros u id vec c Hu _ _ Hc k Hk.
    apply lookup_insert_is_Some' in Hk as [<-|Hk]; [|now apply Hc].
    right. destruct Hu as [->|(v & Hv & ->)]; [now left|].
    right. now exists v.
  - intros id req k Hk.
    destruct (usable (respond id req)) as [vec|] eqn:Hu.
    + rewrite (embedFinish_usable respond id _ req st vec Hu).
      cbn [snd embeddingCache]. apply lookup_insert_is_Some'. now right.
    + now destruct (embedFinish_unusable respond id
                      (slice 0 200 (input req)) req st Hu) as [e ->].
Qed.

(** X5: when the query itself cannot be embedded (its key is not cached
    and the provider's answer to its request carries no vector), the
    call stops there: it has sent this one request and none for the
    pool, the cache is as it was, and the result is the keyword search
    for the trimmed query. *)
Theorem query_failure_sends_one_request (toLowerCase : jsstring -> jsstring)
  (respond : nat -> Request -> Response) (sched : list nat)
  (query : jsstring) (topK : option Z) (st : State) :
  let req := {| model := EMBED_MODEL; input := trim query |} in
  truthy (trim query) = true ->
  embeddingCache st !! slice 0 200 (trim query) = None ->
  usable (respond (length (requests st)) req) = None ->
  semanticSearch toLowerCase respond sched query topK st
  = (Ok (keywordResults toLowerCase (trim query) (default 10 topK)
           (verses st)),
     {| verses := verses st;
        embeddingCache := embeddingCache st;
        requests := requests st ++ [req] |}).
Proof.
  intros req Hq Hc Hu.
  rewrite (semanticSearch_unfold toLowerCase respond sched query topK st Hq).
  unfold scorePool, bind.
  destruct (embed_miss_thrown respond (trim query) st Hc Hu) as [e ->].
  reflexivity.
Qed.

Lemma query_failure_sends_one_request_witness :
  semanticSearch asciiLower down [] (lit "moon") (Some 5) (loaded twoLines)
  = (Ok (keywordResults asciiLower (lit "moon") 5 (buildVerses twoLines)),
     {| verses := buildVerses twoLines;
        embeddingCache := ∅;
        requests := [{| model := EMBED_MODEL; input := lit "moon" |}] |}).
Proof.
  apply (query_failure_sends_one_request asciiLower down [] (lit "moon")
           (Some 5) (loaded twoLines)); reflexivity.
Defined.

(** ** A search repeated *)

Section Warm.

Variable toLowerCase : jsstring -> jsstring.

Variable respond : nat -> Request -> Response.

Lemma settle_fulfilled queryEmbedding (order : list nat) (slots : list Slot)
  (st : State) :
  Forall isFulfilled slots ->
  settle respond queryEmbedding order slots st = (Ok slots, st).
Proof.
  intros Hall. induction order as [|i order IH]; [reflexivity|].
  simpl. destruct (slots !! i) as [[v id key req|r]|] eqn:Hi; auto.
  exfalso. rewrite Forall_lookup in Hall.
  destruct (Hall i _ Hi) as [r Hr]. discriminate.
Qed.

Lemma omap_fulfilled (rs : list SearchResult) :
  omap fulfilled (Fulfilled <$> rs) = rs.
Proof.
  induction rs as [|r rs IH]; [reflexivity|].
  rewrite fmap_cons. cbn. now f_equal.
Qed.

(** With every key cached, each slot is fulfilled when it starts and
    nothing is sent. *)
Lemma planSlots_cached queryEmbedding cache (n : nat) (pool : list Verse)
  (scored : list SearchResult) :
  mapM (fun v =>
          (fun vec => {| verse := v;
                         score := cosineSimilarity queryEmbedding vec |})
            <$> cache !! slice 0 200 (text v)) pool = Some scored ->
  planSlots queryEmbedding cache n pool = Fulfilled <$> scored /\
  planRequests cache pool = [].
Proof.
  intros H. apply mapM_Some in H.
  induction H as [|v r pool scored Hvr _ [IH1 IH2]]; [split; reflexivity|].
  simpl. destruct (cache !! slice 0 200 (text v)) as [vec|]; [|discriminate].
  injection Hvr as <-. rewrite IH1, IH2. split; reflexivity.
Qed.

(** A call that finds everything in the cache is a function of the
    cache: it returns without a request, whatever the provider. *)
Lemma scorePool_warm sched (q : jsstring) (pool : list Verse) (st : State)
  (scored : list SearchResult) :
  cachedScores (embeddingCache st) q pool = Some scored ->
  scorePool respond sched q pool st = (Ok scored, st).
Proof.
  unfold cachedScores.
  destruct (embeddingCache st !! slice 0 200 q) as [qv|] eqn:Eq;
    [|discriminate].
  cbn [mbind option_bind]. intros H.
  unfold scorePool, bind. rewrite (embed_hit respond q st qv Eq).
  rewrite promiseAll_unfold.
  destruct (planSlots_cached qv (embeddingCache st) (length (requests st))
              pool scored H) as [-> ->].
  cbv zeta. rewrite settle_fulfilled.
  - rewrite omap_fulfilled, app_nil_r. now destruct st.
  - apply Forall_fmap, Forall_forall. intros r _. now exists r.
Qed.

(** After the responses are handled without a throw, the key of every
    slot that was running is cached. *)
Lemma settle_Ok_keys queryEmbedding (order : list nat) :
  forall (slots slots' : list Slot) (st st' : State),
    settle respond queryEmbedding order slots st = (Ok slots', st') ->
    forall (i : nat) v id key req,
      i ∈ order -> slots !! i = Some (Running v id key req) ->
      is_Some (embeddingCache st' !! key).
Proof.
  induction order as [|i0 order IH]; intros slots slots' st st' Hrun
    i v id key req Hin Hi; [inversion Hin|].
  simpl in Hrun.
  destruct (slots !! i0) as [[v0 id0 key0 req0|r]|] eqn:Hi0.
  - unfold bind in Hrun.
    destruct (usable (respond id0 req0)) as [vec|] eqn:Hu.
    + rewrite (embedFinish_usable _ _ _ _ _ _ Hu) in Hrun.
      destruct (decide (i = i0)) as [->|Hne].
      * rewrite Hi0 in Hi. injection Hi as -> -> -> ->.
        match type of Hrun with
        | settle _ _ _ ?sl ?s1 = _ =>
            pose proof (settle_invariant respond
                          (fun c => is_Some (c !! key)) queryEmbedding order
                          sl s1) as H
        end.
        rewrite Hrun in H. apply H.
        -- intros _ _ _ k _ x c _ _ Hc.
           apply lookup_insert_is_Some'. now right.
        -- simpl. apply lookup_insert_is_Some'. now left.
      * apply (IH _ _ _ _ Hrun i v id key req).
        -- apply elem_of_cons in Hin as [?|?]; [contradiction|assumption].
        -- now rewrite list_lookup_insert_ne by congruence.
    + destruct (embedFinish_unusable respond id0 key0 req0 st Hu) as [e He].
      rewrite He in Hrun. discriminate.
  - apply (IH _ _ _ _ Hrun i v id key req); [|exact Hi].
    apply elem_of_cons in Hin as [->|?]; [congruence | assumption].
  - apply (IH _ _ _ _ Hrun i v id key req); [|exact Hi].
    apply elem_of_cons in Hin as [->|?]; [congruence | assumption].
Qed.

(** A slot that is fulfilled when it starts took its vector from the
    cache. *)
Lemma planSlots_fulfilled_key queryEmbedding cache (n : nat) pool (i : nat)
  (r : SearchResult) :
  planSlots queryEmbedding cache n pool !! i = Some (Fulfilled r) ->
  exists v vec,
    pool !! i = Some v /\ cache !! slice 0 200 (text v) = Some vec /\
    r = {| verse := v; score := cosineSimilarity queryEmbedding vec |}.
Proof.
  revert n i. induction pool as [|w pool IH]; intros n i; simpl;
    [discriminate|].
  destruct (cache !! slice 0 200 (text w)) as [vec|] eqn:E.
  - destruct i as [|i]; simpl.
    + intros [= <-]. now exists w, vec.
    + apply IH.
  - destruct i as [|i]; simpl; [discriminate | apply IH].
Qed.

(** The try block completed: what it found and what it left. *)
Lemma scorePool_Ok_run sched (q : jsstring) (pool : list Verse) (st : State)
  (scored : list SearchResult) :
  fst (scorePool respond sched q pool st) = Ok scored ->
  exists qv st1 slots',
    embed respond q st = (Ok qv, st1) /\
    embeddingCache st1 !! slice 0 200 q = Some qv /\
    let slots := planSlots qv (embeddingCache st1) (length (requests st1))
                   pool in
    mapM (slotResult respond qv) slots = Some scored /\
    settle respond qv (sched ++ seq 0 (length slots)) slots
      {| verses := verses st1;
         embeddingCache := embeddingCache st1;
         requests := requests st1
                     ++ planRequests (embeddingCache st1) pool |}
    = (Ok slots', snd (scorePool respond sched q pool st)).
Proof.
  intros Hok.
  pose proof (proj1 (scorePool_Ok respond sched q pool st scored) Hok)
    as Hsem.
  revert Hok Hsem. unfold semanticScores, scorePool, bind.
  destruct (embed respond q st) as [[qv|e] st1] eqn:He; [|discriminate].
  rewrite promiseAll_unfold. cbv zeta.
  destruct (settle respond qv _ _ _) as [[slots'|e] st2] eqn:Hrun;
    [|discriminate].
  intros _ Hsem. exists qv, st1, slots'.
  split; [reflexivity|]. split; [|split; [exact Hsem | exact Hrun]].
  destruct (embed_cases respond q st)
    as [(cached & Hc & He')|(Hc & st1' & _ & Hcase)].
  - rewrite He' in He. injection He as <- <-. exact Hc.
  - destruct Hcase as [(vec & Hu & He')|(Hu & _ & e & He')];
      [|rewrite He' in He; discriminate].
    rewrite (embed_miss_stored respond q st vec Hc Hu) in He.
    injection He as <- <-. simpl. apply lookup_insert_eq.
Qed.

(** Two waiting promises with the same key are one promise, when the
    keys of the pool are pairwise distinct. *)
Lemma planSlots_key_inj (queryEmbedding : Vec) (cache : gmap jsstring Vec)
  (n : nat) (pool : list Verse) (i i' : nat) v v' id id' key req req' :
  NoDup ((fun v => slice 0 200 (text v)) <$> pool) ->
  planSlots queryEmbedding cache n pool !! i = Some (Running v id key req) ->
  planSlots queryEmbedding cache n pool !! i'
  = Some (Running v' id' key req') ->
  i = i'.
Proof.
  intros Hnd Hi Hi'.
  pose proof (planSlots_verses queryEmbedding cache n pool) as Hvs.
  assert (Hp : pool !! i = Some v).
  { rewrite <- Hvs, list_lookup_fmap, Hi. reflexivity. }
  assert (Hp' : pool !! i' = Some v').
  { rewrite <- Hvs, list_lookup_fmap, Hi'. reflexivity. }
  apply planSlots_running_key in Hi as (_ & Hk & _).
  apply planSlots_running_key in Hi' as (_ & Hk' & _).
  apply (NoDup_lookup _ i i' key Hnd);
    rewrite list_lookup_fmap; [rewrite Hp | rewrite Hp']; simpl;
    congruence.
Qed.

(** The cache after the try block has completed: what the query left
    is still there, every other entry is the vector of a promise that
    waited under that key, and every such promise has left one. *)
Lemma scorePool_Ok_cache sched (q : jsstring) (pool : list Verse) (st : State)
  (scored : list SearchResult) :
  fst (scorePool respond sched q pool st) = Ok scored ->
  exists qv st1,
    embed respond q st = (Ok qv, st1) /\
    embeddingCache st1 !! slice 0 200 q = Some qv /\
    let slots := planSlots qv (embeddingCache st1) (length (requests st1))
                   pool in
    let cache' := embeddingCache (snd (scorePool respond sched q pool st)) in
    mapM (slotResult respond qv) slots = Some scored /\
    embeddingCache st1 ⊆ cache' /\
    (forall k vec,
        cache' !! k = Some vec ->
        embeddingCache st1 !! k = Some vec \/
        exists i v id req,
          slots !! i = Some (Running v id k req) /\
          usable (respond id req) = Some vec) /\
    (forall (i : nat) v id key req,
        slots !! i = Some (Running v id key req) ->
        is_Some (cache' !! key)).
Proof.
  intros Hok.
  destruct (scorePool_Ok_run sched q pool st scored Hok)
    as (qv & st1 & slots' & He & Hq & Hsem & Hrun).
  exists qv, st1. split; [exact He|]. split; [exact Hq|].
  cbv zeta in Hsem, Hrun |- *.
  set (slots := planSlots qv (embeddingCache st1) (length (requests st1))
                  pool) in *.
  set (st2 := {| verses := verses st1 |}) in *.
  assert (Hst' : snd (settle respond qv (sched ++ seq 0 (length slots))
                        slots st2)
                 = snd (scorePool respond sched q pool st))
    by now rewrite Hrun.
  split; [exact Hsem|]. split; [|split].
  - rewrite <- Hst'.
    apply (settle_invariant respond (fun c => embeddingCache st1 ⊆ c));
      [|reflexivity].
    intros i v id key req vec c Hi _ Hc.
    apply planSlots_running_key in Hi as (_ & _ & _ & Hnone).
    now apply insert_subseteq_r.
  - rewrite <- Hst'.
    apply (settle_invariant respond
             (fun c => forall k vec,
                  c !! k = Some vec ->
                  embeddingCache st1 !! k = Some vec \/
                  exists i v id req,
                    slots !! i = Some (Running v id k req) /\
                    usable (respond id req) = Some vec)).
    + intros i v id key req vec c Hi Hu Hc k vec' Hk.
      destruct (decide (k = key)) as [->|Hne].
      * rewrite lookup_insert_eq in Hk. injection Hk as <-.
        right. now exists i, v, id, req.
      * rewrite lookup_insert_ne in Hk by congruence. now apply Hc.
    + intros k vec Hk. now left.
  - intros i v id key req Hi.
    apply (settle_Ok_keys qv _ _ _ _ _ Hrun i v id key req); [|exact Hi].
    apply elem_of_app. right. apply elem_of_seq.
    apply lookup_lt_Some in Hi. lia.
Qed.

(** After it, the cache has the key of the query and of every record of
    the pool. *)
Lemma scorePool_Ok_keys sched (q : jsstring) (pool : list Verse) (st : State)
  (scored : list SearchResult) :
  fst (scorePool respond sched q pool st) = Ok scored ->
  let cache' := embeddingCache (snd (scorePool respond sched q pool st)) in
  exists qv,
    cache' !! slice 0 200 q = Some qv /\
    (forall v, v ∈ pool -> is_Some (cache' !! slice 0 200 (text v))).
Proof.
  intros Hok cache'.
  destruct (scorePool_Ok_cache sched q pool st scored Hok)
    as (qv & st1 & He & Hq & Hsem & Hsub & Hnew & Hkey).
  cbv zeta in Hsem, Hsub, Hnew, Hkey. fold cache' in Hsub, Hnew, Hkey.
  set (slots := planSlots qv (embeddingCache st1) (length (requests st1))
                  pool) in *.
  assert (Hslot : forall (i : nat) v,
             pool !! i = Some v ->
             exists s, slots !! i = Some s /\ slotVerse s = v).
  { intros i v Hi.
    pose proof (planSlots_verses qv (embeddingCache st1)
                  (length (requests st1)) pool) as Hvs.
    fold slots in Hvs. rewrite <- Hvs, list_lookup_fmap in Hi.
    destruct (slots !! i) as [s|]; [|discriminate].
    injection Hi as Hi. now exists s. }
  exists qv. split; [eapply lookup_weaken; eauto|].
  intros v Hv. apply list_elem_of_lookup in Hv as [i Hi].
  destruct (Hslot i v Hi) as ([v' id key req|r] & Hs & Hsv).
  - pose proof Hs as Hs'.
    apply planSlots_running_key in Hs' as (_ & -> & _).
    simpl in Hsv. subst v'. eapply Hkey; eauto.
  - apply planSlots_fulfilled_key in Hs as (w & vec & Hw & Hc & _).
    rewrite Hi in Hw. injection Hw as <-.
    exists vec. eapply lookup_weaken; eauto.
Qed.

Lemma cachedScores_verses (queryEmbedding : Vec) (cache : gmap jsstring Vec)
  (pool : list Verse) (scored : list SearchResult) :
  mapM (fun v =>
          (fun vec => {| verse := v;
                         score := cosineSimilarity queryEmbedding vec |})
            <$> cache !! slice 0 200 (text v)) pool = Some scored ->
  verse <$> scored = pool.
Proof.
  intros H. apply mapM_Some in H.
  induction H as [|v r vs rs Hvr _ IH]; [reflexivity|].
  rewrite fmap_cons, IH. f_equal.
  destruct (cache !! slice 0 200 (text v)); simpl in Hvr; [|discriminate].
  now injection Hvr as <-.
Qed.

End Warm.

(** X3: a search repeated is served from the cache. Once a call has
    completed on the semantic path, the cache has the key of the trimmed
    query and of every record of the pool, and no store removes a key.
    So a later call with the same query (padded or not, with any [topK],
    under any order of arrival), from the state the first call left or
    from one that has these keys and the same index, sends no request
    and leaves the state as it is, whatever the provider would answer
    now, even nothing: it ranks the pool again, with the vectors that
    the cache has then, and cannot fall back to the keyword search. Its
    result is a rearrangement of these scores cut by [slice(0, topK)],
    the stable sort by descending score when none of them is NaN. *)
Theorem repeat_search_is_cached (toLowerCase : jsstring -> jsstring)
  (respond respond' : nat -> Request -> Response) (sched sched' : list nat)
  (query : jsstring) (topK topK' : option Z) (st st'' : State)
  (scored : list SearchResult) :
  truthy (trim query) = true ->
  fst (scorePool respond sched (trim query)
         (slice 0 MAX_VERSES_TO_EMBED (verses st)) st) = Ok scored ->
  let st' := snd (semanticSearch toLowerCase respond sched query topK st) in
  verses st'' = verses st' ->
  (forall k,
      is_Some (embeddingCache st' !! k) ->
      is_Some (embeddingCache st'' !! k)) ->
  exists scored' results sorted : list SearchResult,
    semanticSearch toLowerCase respond' sched' query topK' st''
    = (Ok results, st'') /\
    cachedScores (embeddingCache st'') (trim query)
      (slice 0 MAX_VERSES_TO_EMBED (verses st)) = Some scored' /\
    verse <$> scored' = slice 0 MAX_VERSES_TO_EMBED (verses st) /\
    results = slice 0 (default 10 topK') sorted /\
    sorted ≡ₚ scored' /\
    (Forall scoreIsNumber scored' -> sorted = sort scored').
Proof.
  intros Hq Hok st' Hv'' Hkeys.
  assert (Hst' : st' = snd (scorePool respond sched (trim query)
                              (slice 0 MAX_VERSES_TO_EMBED (verses st)) st))
    by apply (semanticSearch_state toLowerCase respond sched query topK st Hq).
  assert (Hv : verses st'' = verses st).
  { destruct (semanticSearch_sends toLowerCase respond sched query topK st)
      as (new & [Hv _] & _). fold st' in Hv. congruence. }
  destruct (scorePool_Ok_keys respond sched (trim query)
              (slice 0 MAX_VERSES_TO_EMBED (verses st)) st scored Hok)
    as (qv & Hqv & Hall).
  cbv zeta in Hqv, Hall. rewrite <- Hst' in Hqv, Hall.
  destruct (Hkeys _ (ex_intro _ qv Hqv)) as [qv'' Hqv''].
  assert (Hsome : is_Some
            (mapM (fun v =>
                     (fun vec => {| verse := v;
                                    score := cosineSimilarity qv'' vec |})
                       <$> embeddingCache st'' !! slice 0 200 (text v))
               (slice 0 MAX_VERSES_TO_EMBED (verses st)))).
  { apply mapM_is_Some, Forall_forall. intros v Hin. simpl.
    destruct (Hkeys _ (Hall v Hin)) as [vec ->]. now eexists. }
  destruct Hsome as [scored' Hscored'].
  assert (Hcached : cachedScores (embeddingCache st'') (trim query)
                      (slice 0 MAX_VERSES_TO_EMBED (verses st))
                    = Some scored').
  { unfold cachedScores. rewrite Hqv''. exact Hscored'. }
  exists scored', (slice 0 (default 10 topK') (sort scored')), (sort scored').
  split; [|split; [exact Hcached|split; [|split; [reflexivity|split]]]].
  - rewrite (semanticSearch_unfold toLowerCase respond' sched' query topK'
               st'' Hq).
    rewrite Hv.
    now rewrite (scorePool_warm respond' sched' (trim query)
                   (slice 0 MAX_VERSES_TO_EMBED (verses st)) st'' scored'
                   Hcached).
  - eapply cachedScores_verses. exact Hscored'.
  - apply sort_Permutation.
  - reflexivity.
Qed.

Lemma repeat_search_is_cached_witness :
  let st' := snd (semanticSearch asciiLower healthy [] (lit "sun") (Some 1)
                    (loaded twoLines)) in
  exists results,
    semanticSearch asciiLower down [1%nat] (lit "sun") None st'
    = (Ok results, st') /\
    score <$> results = [1; 0]%float.
Proof.
  intros st'.
  eassert (Hok : fst (scorePool healthy [] (trim (lit "sun"))
                        (slice 0 MAX_VERSES_TO_EMBED
                           (verses (loaded twoLines)))
                        (loaded twoLines)) = Ok _)
    by (vm_compute; reflexivity).
  destruct (repeat_search_is_cached asciiLower healthy down [] [1%nat]
              (lit "sun") (Some 1) None (loaded twoLines) st' _ eq_refl Hok
              eq_refl (fun k H => H))
    as (scored' & results & sorted & Hcall & Hcached & _ & Hr & _ & Hs).
  exists results. split; [exact Hcall|].
  eassert (Hc : cachedScores (embeddingCache st') (trim (lit "sun"))
                  (slice 0 MAX_VERSES_TO_EMBED (verses (loaded twoLines)))
                = Some _)
    by (vm_compute; reflexivity).
  assert (He : scored' = _)
    by (apply (inj Some); rewrite <- Hcached; exact Hc).
  rewrite Hr, Hs; rewrite He; [vm_compute; reflexivity|].
  repeat constructor; vm_compute; reflexivity.
Defined.

(** ** How many results, and which *)

Section Counting.

Variable toLowerCase : jsstring -> jsstring.

Variable respond : nat -> Request -> Response.

Lemma scorePool_Ok_length sched (q : jsstring) (pool : list Verse)
  (st : State) (scored : list SearchResult) :
  fst (scorePool respond sched q pool st) = Ok scored ->
  length scored = length pool.
Proof.
  intros Hok. rewrite <- (length_fmap verse scored). f_equal.
  eapply semanticScores_verses. apply (scorePool_Ok respond sched).
  exact Hok.
Qed.

Lemma keywordResults_length (q : jsstring) (k : Z) (vs : list Verse) :
  0 <= k ->
  (length (keywordResults toLowerCase q k vs) <= Z.to_nat k `min` length vs)%nat.
Proof.
  intros Hk. unfold keywordResults.
  rewrite length_fmap, slice_0_length_min by assumption.
  pose proof (length_filter
                (fun v => includes (text v) q
                          || includes (toLowerCase (text v)) (toLowerCase q))
                vs).
  lia.
Qed.

Lemma verse_fmap_scored (s : float) (vs : list Verse) :
  verse <$> ((fun v => {| verse := v; score := s |}) <$> vs) = vs.
Proof.
  induction vs as [|v vs IH]; [reflexivity|].
  rewrite !fmap_cons. simpl. now f_equal.
Qed.

Lemma keywordResults_sublist (q : jsstring) (k : Z) (vs : list Verse) :
  sublist (verse <$> keywordResults toLowerCase q k vs) vs.
Proof.
  unfold keywordResults. rewrite verse_fmap_scored.
  destruct (slice_0_sublist k
              (filter
                 (fun v => includes (text v) q
                           || includes (toLowerCase (text v)) (toLowerCase q))
                 vs)) as [n ->].
  etransitivity; [apply sublist_take | apply sublist_filter].
Qed.

(** The length of the result of a call, path by path. *)
Lemma semanticSearch_length sched (query : jsstring) (topK : option Z)
  (st : State) :
  0 <= default 10 topK ->
  exists results st',
    semanticSearch toLowerCase respond sched query topK st
    = (Ok results, st') /\
    (length results
     <= Z.to_nat (default 10%Z topK) `min` length (verses st))%nat /\
    (forall scored,
        truthy (trim query) = true ->
        fst (scorePool respond sched (trim query)
               (slice 0 MAX_VERSES_TO_EMBED (verses st)) st) = Ok scored ->
        length results
        = (Z.to_nat (default 10%Z topK) `min` (80 `min` length (verses st)))%nat).
Proof.
  intros Hk. destruct (truthy (trim query)) eqn:Hq.
  - rewrite (semanticSearch_unfold toLowerCase respond sched query topK st Hq).
    pose proof (scorePool_Ok_length sched (trim query)
                  (slice 0 MAX_VERSES_TO_EMBED (verses st)) st) as Hlen.
    destruct (semanticSearch_sends toLowerCase respond sched query topK st)
      as (new & [Hv _] & _).
    rewrite (semanticSearch_state toLowerCase respond sched query topK st Hq)
      in Hv.
    destruct (scorePool respond sched (trim query)
                (slice 0 MAX_VERSES_TO_EMBED (verses st)) st)
      as [[scored|e] st']; simpl in *.
    + specialize (Hlen scored eq_refl).
      rewrite slice_0_length_min in Hlen by (unfold MAX_VERSES_TO_EMBED; lia).
      change (Z.to_nat MAX_VERSES_TO_EMBED) with 80%nat in Hlen.
      assert (H : length (slice 0 (default 10 topK) (sort scored))
                  = (Z.to_nat (default 10%Z topK)
                     `min` (80 `min` length (verses st)))%nat).
      { rewrite slice_0_length_min by assumption.
        now rewrite sort_length, Hlen. }
      eexists _, _. split; [reflexivity|]. split; [lia|].
      intros scored' _ _. exact H.
    + eexists _, _. split; [reflexivity|]. split.
      * rewrite Hv. now apply keywordResults_length.
      * intros scored' _ Habs. discriminate.
  - rewrite (semanticSearch_blank_query toLowerCase respond sched query topK
               st Hq).
    eexists _, _. split; [reflexivity|]. split; [simpl; lia|].
    intros scored Habs. discriminate.
Qed.

End Counting.

(** X6: the size of the result. For [topK >= 0] (10 when omitted) a call
    of [semanticSearch] returns at most [topK] results and at most as
    many as the index has records, on every path; on the semantic path
    it returns exactly min(topK, 80, size of the index) of them, however
    low their scores are. [getContextForQuery] returns at most
    [maxVerses] records (5 when omitted). *)
Theorem result_count (toLowerCase : jsstring -> jsstring)
  (respond : nat -> Request -> Response) (sched : list nat)
  (query : jsstring) (topK maxVerses : option Z) (st : State) :
  (0 <= default 10 topK ->
   exists results st',
     semanticSearch toLowerCase respond sched query topK st
     = (Ok results, st') /\
     (length results <= Z.to_nat (default 10%Z topK))%nat /\
     (length results <= length (verses st))%nat /\
     (forall scored,
         truthy (trim query) = true ->
         fst (scorePool respond sched (trim query)
                (slice 0 MAX_VERSES_TO_EMBED (verses st)) st) = Ok scored ->
         length results
         = (Z.to_nat (default 10%Z topK)
            `min` (80 `min` length (verses st)))%nat)) /\
  (0 <= default 5 maxVerses ->
   exists records st',
     getContextForQuery toLowerCase respond sched query maxVerses st
     = (Ok records, st') /\
     (length records <= Z.to_nat (default 5%Z maxVerses))%nat /\
     (length records <= length (verses st))%nat).
Proof.
  split.
  - intros Hk.
    destruct (semanticSearch_length toLowerCase respond sched query topK st
                Hk) as (results & st' & Hcall & Hle & Hexact).
    exists results, st'. split; [exact Hcall|].
    split; [lia|]. split; [lia | exact Hexact].
  - intros Hk.
    destruct (semanticSearch_length toLowerCase respond sched query
                (Some (default 5 maxVerses)) st Hk)
      as (results & st' & Hcall & Hle & _).
    exists (verse <$> results), st'.
    rewrite getContextForQuery_unfold, Hcall, length_fmap.
    simpl in Hle. split; [reflexivity|]. split; lia.
Qed.

Lemma result_count_witness :
  (exists results st',
      semanticSearch asciiLower healthy [] (lit "sun") None (loaded twoLines)
      = (Ok results, st') /\
      length results = 2%nat) /\
  (exists records st',
      getContextForQuery asciiLower down [] (lit "the") (Some 1)
        (loaded twoLines)
      = (Ok records, st') /\
      (length records <= 1)%nat).
Proof.
  pose proof (result_count asciiLower healthy [] (lit "sun") None None
                (loaded twoLines)) as [H1 _].
  pose proof (result_count asciiLower down [] (lit "the") None (Some 1)
                (loaded twoLines)) as [_ H2].
  split.
  - destruct H1 as (results & st' & Hcall & _ & _ & Hexact); [simpl; lia|].
    exists results, st'. split; [exact Hcall|].
    eapply Hexact; [reflexivity | vm_compute; reflexivity].
  - destruct H2 as (records & st' & Hcall & Hle & _); [simpl; lia|].
    exists records, st'. split; [exact Hcall | exact Hle].
Defined.

(** X7: no record is repeated, no score invented. The records of a
    result occur in it at most as often as in the index. On the semantic
    path the results are entries of the array [scored], each with the
    score computed for it and at most as often as there, and all of them
    when [topK] reaches the size of the pool; on the keyword path the
    records stand in the order of the index. *)
Theorem results_without_repetition (toLowerCase : jsstring -> jsstring)
  (respond : nat -> Request -> Response) (sched : list nat)
  (query : jsstring) (topK : option Z) (st : State) :
  exists results st',
    semanticSearch toLowerCase respond sched query topK st
    = (Ok results, st') /\
    verse <$> results ⊆+ verses st /\
    (forall scored,
        truthy (trim query) = true ->
        fst (scorePool respond sched (trim query)
               (slice 0 MAX_VERSES_TO_EMBED (verses st)) st) = Ok scored ->
        results ⊆+ scored /\
        verse <$> scored = slice 0 MAX_VERSES_TO_EMBED (verses st) /\
        (80 <= default 10 topK \/
         Z.of_nat (length (verses st)) <= default 10 topK ->
         results ≡ₚ scored)) /\
    (forall e,
        truthy (trim query) = true ->
        fst (scorePool respond sched (trim query)
               (slice 0 MAX_VERSES_TO_EMBED (verses st)) st) = Throw e ->
        sublist (verse <$> results) (verses st)).
Proof.
  assert (Hpool : sublist (slice 0 MAX_VERSES_TO_EMBED (verses st))
                    (verses st)).
  { destruct (slice_0_sublist MAX_VERSES_TO_EMBED (verses st)) as [n ->].
    apply sublist_take. }
  destruct (truthy (trim query)) eqn:Hq.
  - rewrite (semanticSearch_unfold toLowerCase respond sched query topK st Hq).
    pose proof (scorePool_Ok respond sched (trim query)
                  (slice 0 MAX_VERSES_TO_EMBED (verses st)) st) as HOk.
    pose proof (scorePool_Ok_length respond sched (trim query)
                  (slice 0 MAX_VERSES_TO_EMBED (verses st)) st) as Hlen.
    destruct (semanticSearch_sends toLowerCase respond sched query topK st)
      as (new & [Hv _] & _).
    rewrite (semanticSearch_state toLowerCase respond sched query topK st Hq)
      in Hv.
    destruct (scorePool respond sched (trim query)
                (slice 0 MAX_VERSES_TO_EMBED (verses st)) st)
      as [[scored|e] st']; cbn [fst snd] in *.
    + pose proof (semanticScores_verses _ _ _ _ _
                    (proj1 (HOk scored) eq_refl)) as Hvs.
      specialize (Hlen scored eq_refl).
      assert (Hsub : slice 0 (default 10 topK) (sort scored) ⊆+ scored).
      { rewrite <- (sort_Permutation scored) at 2.
        destruct (slice_0_sublist (default 10 topK) (sort scored)) as [n ->].
        apply submseteq_take. }
      eexists _, _. split; [reflexivity|]. split; [|split].
      * rewrite Hsub, Hvs. now apply sublist_submseteq.
      * intros scored' _ [= <-]. split; [exact Hsub|]. split; [exact Hvs|].
        intros Hk. rewrite <- (sort_Permutation scored) at 2.
        rewrite slice_0_length_min in Hlen
          by (unfold MAX_VERSES_TO_EMBED; lia).
        change (Z.to_nat MAX_VERSES_TO_EMBED) with 80%nat in Hlen.
        rewrite slice_0_nonneg by lia.
        rewrite take_ge; [reflexivity|]. rewrite sort_length. lia.
      * intros e _ Habs. discriminate.
    + eexists _, _. split; [reflexivity|]. rewrite Hv.
      split; [|split].
      * apply sublist_submseteq, keywordResults_sublist.
      * intros scored' _ Habs. discriminate.
      * intros e' _ _. apply keywordResults_sublist.
  - rewrite (semanticSearch_blank_query toLowerCase respond sched query topK
               st Hq).
    eexists _, _. split; [reflexivity|]. split; [|split].
    + apply submseteq_nil_l.
    + intros scored Habs. discriminate.
    + intros e Habs. discriminate.
Qed.

Lemma results_without_repetition_witness :
  exists results st' scored,
    semanticSearch asciiLower healthy [] (lit "sun") None (loaded twoLines)
    = (Ok results, st') /\
    results ≡ₚ scored /\ verse <$> scored = buildVerses twoLines.
Proof.
  destruct (results_without_repetition asciiLower healthy [] (lit "sun") None
              (loaded twoLines))
    as (results & st' & Hcall & _ & Hsem & _).
  eassert (Hok : fst (scorePool healthy [] (trim (lit "sun"))
                        (slice 0 MAX_VERSES_TO_EMBED
                           (verses (loaded twoLines)))
                        (loaded twoLines)) = Ok _)
    by (vm_compute; reflexivity).
  destruct (Hsem _ eq_refl Hok) as (_ & Hvs & Hall).
  eexists results, st', _. split; [exact Hcall|].
  split; [apply Hall; right; simpl; lia | exact Hvs].
Defined.

(** X10: asking for more keeps what was there. For [0 <= k <= k'] the
    result of [semanticSearch(query, k)] is the first [k] results of
    [semanticSearch(query, k')] from the same state, on every path, and
    both calls leave the same state. *)
Theorem more_results_extend (toLowerCase : jsstring -> jsstring)
  (respond : nat -> Request -> Response) (sched : list nat)
  (query : jsstring) (k k' : Z) (st : State) :
  0 <= k <= k' ->
  exists results results' st',
    semanticSearch toLowerCase respond sched query (Some k) st
    = (Ok results, st') /\
    semanticSearch toLowerCase respond sched query (Some k') st
    = (Ok results', st') /\
    results = take (Z.to_nat k) results'.
Proof.
  intros Hk. destruct (truthy (trim query)) eqn:Hq.
  - rewrite !(semanticSearch_unfold toLowerCase respond sched query _ st Hq).
    destruct (scorePool respond sched (trim query)
                (slice 0 MAX_VERSES_TO_EMBED (verses st)) st)
      as [[scored|e] st']; simpl default.
    + eexists _, _, _. split; [reflexivity|]. split; [reflexivity|].
      rewrite !slice_0_nonneg by lia. rewrite take_take. f_equal. lia.
    + eexists _, _, _. split; [reflexivity|]. split; [reflexivity|].
      unfold keywordResults. rewrite !slice_0_nonneg by lia.
      rewrite <- fmap_take, take_take. do 2 f_equal. lia.
  - rewrite !(semanticSearch_blank_query toLowerCase respond sched query _
                st Hq).
    eexists _, _, _. split; [reflexivity|]. split; [reflexivity|].
    now rewrite take_nil.
Qed.

Lemma more_results_extend_witness :
  exists results results' st',
    semanticSearch asciiLower healthy [] (lit "sun") (Some 1)
      (loaded twoLines) = (Ok results, st') /\
    semanticSearch asciiLower healthy [] (lit "sun") (Some 2)
      (loaded twoLines) = (Ok results', st') /\
    results = take 1 results'.
Proof.
  apply (more_results_extend asciiLower healthy [] (lit "sun") 1 2
           (loaded twoLines)).
  lia.
Defined.

(** ** More binary64 arithmetic: commutation, equality, overflow *)

Section FloatFacts.

Local Open Scope float_scope.

Lemma SFmul_comm (x y : spec_float) :
  SFmul prec emax x y = SFmul prec emax y x.
Proof.
  destruct x as [sx|sx| |sx mx ex], y as [sy|sy| |sy my ey];
    cbn [SFmul]; rewrite ?(xorb_comm sx sy); try reflexivity.
  now rewrite (Pos.mul_comm mx my), (Z.add_comm ex ey).
Qed.

Lemma float_mul_comm (x y : float) : x * y = y * x.
Proof.
  apply Prim2SF_inj. rewrite !FloatAxioms.mul_spec. apply SFmul_comm.
Qed.

Lemma eqb_rank (x y : float) :
  is_nan x = false -> is_nan y = false ->
  (x =? y) = (rank (Prim2SF x) =? rank (Prim2SF y))%Z.
Proof.
  intros Hx Hy. rewrite FloatAxioms.eqb_spec. unfold SFeqb.
  rewrite B64.SFcompare_rank
    by auto using Prim2SF_valid, B64.not_nan_SF.
  destruct (Z.eqb_spec (rank (Prim2SF x)) (rank (Prim2SF y))) as [Heq|Hne].
  - now rewrite Heq, Z.compare_refl.
  - destruct (rank (Prim2SF x) ?= rank (Prim2SF y))%Z eqn:E;
      try reflexivity.
    apply Z.compare_eq in E. contradiction.
Qed.

Lemma eqb_true_number (x y : float) :
  (x =? y) = true -> is_nan x = false /\ is_nan y = false.
Proof.
  rewrite FloatAxioms.eqb_spec. unfold SFeqb. intros H.
  split.
  - destruct (is_nan x) eqn:E; [|reflexivity].
    apply B64.is_nan_SF in E. rewrite E in H. discriminate.
  - destruct (is_nan y) eqn:E; [|reflexivity].
    apply B64.is_nan_SF in E. rewrite E in H.
    destruct (Prim2SF x); discriminate.
Qed.

(** *** Infinities and NaN are absorbing *)

Lemma is_finite_false_SF (x : float) :
  is_finite x = false -> sf_nonfinite (Prim2SF x) = true.
Proof.
  unfold is_finite. intros H. apply negb_false_iff, orb_true_iff in H.
  destruct H as [H|H].
  - apply B64.is_nan_SF in H. now rewrite H.
  - unfold is_infinity in H.
    rewrite FloatAxioms.eqb_spec, FloatAxioms.abs_spec in H.
    change (Prim2SF PrimFloat.infinity) with (S754_infinity false) in H.
    destruct (Prim2SF x) as [s|s| |s m e]; try reflexivity; discriminate.
Qed.

Lemma SFmul_nonfinite (x y : spec_float) :
  sf_nonfinite x = true ->
  sf_nonfinite (SFmul prec emax x y) = true.
Proof.
  destruct x as [sx|sx| |sx mx ex]; try discriminate; intros _;
    destruct y as [sy|sy| |sy my ey]; reflexivity.
Qed.

Lemma SFadd_nonfinite_l (x y : spec_float) :
  sf_nonfinite x = true ->
  sf_nonfinite (SFadd prec emax x y) = true.
Proof.
  destruct x as [sx|sx| |sx mx ex]; try discriminate; intros _;
    destruct y as [sy|sy| |sy my ey]; try reflexivity.
  now destruct sx, sy.
Qed.

Lemma SFadd_nonfinite_r (x y : spec_float) :
  sf_nonfinite y = true ->
  sf_nonfinite (SFadd prec emax x y) = true.
Proof.
  destruct y as [sy|sy| |sy my ey]; try discriminate; intros _;
    destruct x as [sx|sx| |sx mx ex]; try reflexivity.
  now destruct sx, sy.
Qed.

Lemma SFsqrt_nonfinite (x : spec_float) :
  sf_nonfinite x = true -> sf_nonfinite (SFsqrt prec emax x) = true.
Proof.
  destruct x as [sx|sx| |sx mx ex]; try discriminate; intros _;
    [now destruct sx | reflexivity].
Qed.

Lemma SFdiv_nonfinite (x y : spec_float) :
  sf_nonfinite x = true -> sf_nonfinite y = true ->
  SFdiv prec emax x y = S754_nan.
Proof.
  destruct x as [sx|sx| |sx mx ex]; try discriminate; intros _;
    destruct y as [sy|sy| |sy my ey]; try discriminate; reflexivity.
Qed.

Lemma nonfinite_not_zero (x : float) :
  sf_nonfinite (Prim2SF x) = true -> (x =? 0) = false.
Proof.
  rewrite FloatAxioms.eqb_spec.
  change (Prim2SF 0) with (S754_zero false).
  destruct (Prim2SF x) as [s|s| |s m e]; try discriminate; intros _;
    [now destruct s | reflexivity].
Qed.

(** A sum of products with an infinite or NaN term, or started from an
    infinite or NaN value, is infinite or NaN. *)
Lemma fold_sum_nonfinite {A : Type} (term : A -> float) (l : list A)
  (acc : float) :
  sf_nonfinite (Prim2SF acc) = true \/
  Exists (fun p => sf_nonfinite (Prim2SF (term p)) = true) l ->
  sf_nonfinite (Prim2SF (fold_left (fun acc p => acc + term p) l acc)) = true.
Proof.
  revert acc. induction l as [|p l IH]; intros acc [H|H]; simpl.
  - exact H.
  - inversion H.
  - apply IH. left. rewrite FloatAxioms.add_spec.
    now apply SFadd_nonfinite_l.
  - apply IH. apply Exists_cons in H as [H|H]; [left | now right].
    rewrite FloatAxioms.add_spec. now apply SFadd_nonfinite_r.
Qed.

Lemma mul_nonfinite_l (x y : float) :
  sf_nonfinite (Prim2SF x) = true -> sf_nonfinite (Prim2SF (x * y)) = true.
Proof.
  intros H. rewrite FloatAxioms.mul_spec. now apply SFmul_nonfinite.
Qed.

Lemma mul_nonfinite_r (x y : float) :
  sf_nonfinite (Prim2SF y) = true -> sf_nonfinite (Prim2SF (x * y)) = true.
Proof.
  intros H. rewrite float_mul_comm. now apply mul_nonfinite_l.
Qed.

Lemma sumsq_nonfinite (v : Vec) :
  Exists (fun x => is_finite x = false) v ->
  sf_nonfinite (Prim2SF (norm v)) = true.
Proof.
  intros H. unfold norm. rewrite FloatAxioms.sqrt_spec.
  apply SFsqrt_nonfinite. unfold sumsq.
  apply (fold_sum_nonfinite (fun x => x * x)). right.
  eapply Exists_impl; [exact H|]. intros x Hx. cbv beta.
  now apply mul_nonfinite_l, is_finite_false_SF.
Qed.

Lemma Exists_zip_l {A B : Type} (P : A -> Prop) (a : list A) (b : list B) :
  length a = length b -> Exists P a -> Exists (fun p => P (fst p)) (zip a b).
Proof.
  revert b. induction a as [|x a IH]; intros [|y b] Hlen H;
    try discriminate Hlen; [inversion H|].
  simpl. apply Exists_cons in H as [H|H]; [now left|].
  right. apply IH; [simpl in Hlen; lia | exact H].
Qed.

Lemma Exists_zip_r {A B : Type} (P : B -> Prop) (a : list A) (b : list B) :
  length a = length b -> Exists P b -> Exists (fun p => P (snd p)) (zip a b).
Proof.
  revert b. induction a as [|x a IH]; intros [|y b] Hlen H;
    try discriminate Hlen; [inversion H|].
  simpl. apply Exists_cons in H as [H|H]; [now left|].
  right. apply IH; [simpl in Hlen; lia | exact H].
Qed.

Lemma cosineLoop_swap (a b : Vec) (dot normA normB : float) :
  cosineLoop b a dot normB normA
  = let '(d, na, nb) := cosineLoop a b dot normA normB in (d, nb, na).
Proof.
  revert b dot normA normB.
  induction a as [|x a IH]; intros [|y b] dot normA normB;
    try reflexivity.
  cbn [cosineLoop]. rewrite (float_mul_comm y x). apply IH.
Qed.

End FloatFacts.

(** X9: the scorer is symmetric. [cosineSimilarity(a, b)] and
    [cosineSimilarity(b, a)] are the same binary64 value, for all
    arrays, of equal length or not, with any components. *)
Theorem cosineSimilarity_symmetric (a b : Vec) :
  cosineSimilarity a b = cosineSimilarity b a.
Proof.
  unfold cosineSimilarity.
  rewrite (Nat.eqb_sym (length b) (length a)).
  rewrite (cosineLoop_swap a b).
  destruct (cosineLoop a b 0 0 0) as [[d na] nb].
  now rewrite (float_mul_comm (sqrt nb) (sqrt na)).
Qed.

(** X14: an infinite component spoils the score. When the arrays have
    the same length and one of them holds an infinity or a NaN, the
    similarity is NaN: the guards do not catch it. *)
Theorem cosineSimilarity_nonfinite (a b : Vec) :
  length a = length b ->
  Exists (fun x => is_finite x = false) a \/
  Exists (fun x => is_finite x = false) b ->
  is_nan (cosineSimilarity a b) = true.
Proof.
  intros Hlen H. rewrite cosineSimilarity_eq by assumption.
  assert (Hden : sf_nonfinite (Prim2SF (norm a * norm b)) = true).
  { destruct H as [H|H].
    - now apply mul_nonfinite_l, sumsq_nonfinite.
    - now apply mul_nonfinite_r, sumsq_nonfinite. }
  assert (Hdot : sf_nonfinite (Prim2SF (dotp a b)) = true).
  { unfold dotp.
    apply (fold_sum_nonfinite (fun p => (fst p * snd p)%float)). right.
    destruct H as [H|H].
    - eapply Exists_impl;
        [apply (Exists_zip_l (fun x => is_finite x = false) a b Hlen H)|].
      intros p Hp. cbv beta. now apply mul_nonfinite_l, is_finite_false_SF.
    - eapply Exists_impl;
        [apply (Exists_zip_r (fun x => is_finite x = false) a b Hlen H)|].
      intros p Hp. cbv beta. now apply mul_nonfinite_r, is_finite_false_SF. }
  rewrite (nonfinite_not_zero _ Hden).
  apply B64.is_nan_SF. rewrite FloatAxioms.div_spec.
  now apply SFdiv_nonfinite.
Qed.

Lemma cosineSimilarity_nonfinite_witness :
  is_nan (cosineSimilarity [1; 0]%float [infinity; 0]%float) = true.
Proof.
  apply cosineSimilarity_nonfinite; [reflexivity|].
  right. left. reflexivity.
Defined.

(** ** Ties *)

Lemma filter_take_prefix {A : Type} (P : A -> Prop)
  `{forall x, Decision (P x)} (n : nat) (l : list A) :
  filter P (take n l) `prefix_of` filter P l.
Proof.
  exists (filter P (drop n l)). now rewrite <- filter_app, take_drop.
Qed.

(** Inserting a result does not reorder the results of any one score:
    it goes in front of those that are already there. *)
Lemma insertSorted_sameScore (s : float) (x : SearchResult)
  (l : list SearchResult) :
  scoreIsNumber x -> Forall scoreIsNumber l ->
  filter (sameScore s) (insertSorted x l) = filter (sameScore s) (x :: l).
Proof.
  intros Hx Hl. induction Hl as [|y l Hy Hl IH]; [reflexivity|].
  cbn [insertSorted]. rewrite (sortsAfter_ltb x y Hx Hy).
  destruct (score x <? score y)%float eqn:E; [|reflexivity].
  rewrite (filter_cons _ y), IH, !filter_cons.
  destruct (decide (sameScore s x)) as [Px|Px]; [|reflexivity].
  destruct (decide (sameScore s y)) as [Py|Py]; [|reflexivity].
  exfalso. unfold sameScore in Px, Py.
  destruct (eqb_true_number _ _ Px) as [_ Hs].
  rewrite (eqb_rank _ _ Hx Hs) in Px. rewrite (eqb_rank _ _ Hy Hs) in Py.
  rewrite (B64.ltb_rank _ _ Hx Hy) in E.
  apply Z.eqb_eq in Px, Py. apply Z.ltb_lt in E. lia.
Qed.

Lemma sort_sameScore (s : float) (l : list SearchResult) :
  Forall scoreIsNumber l ->
  filter (sameScore s) (sort l) = filter (sameScore s) l.
Proof.
  induction 1 as [|x l Hx Hl IH]; [reflexivity|].
  cbn [sort foldr]. fold (sort l).
  rewrite insertSorted_sameScore;
    [|exact Hx | now rewrite sort_Permutation].
  now rewrite !filter_cons, IH.
Qed.

(** X8: ties keep the order of the pool. When no score is NaN, the
    sort is stable: for every score, the results with that score stand
    in the sorted array in the order they have in [scored], which is the
    order of the pool; and in the result of the call, which is cut by
    [slice(0, topK)], they are the first of them, in that order. *)
Theorem ties_keep_pool_order (toLowerCase : jsstring -> jsstring)
  (respond : nat -> Request -> Response) (sched : list nat)
  (query : jsstring) (topK : option Z) (st : State)
  (scored : list SearchResult) (s : float) :
  truthy (trim query) = true ->
  fst (scorePool respond sched (trim query)
         (slice 0 MAX_VERSES_TO_EMBED (verses st)) st) = Ok scored ->
  Forall scoreIsNumber scored ->
  filter (sameScore s) (sort scored) = filter (sameScore s) scored /\
  exists results,
    fst (semanticSearch toLowerCase respond sched query topK st) = Ok results /\
    filter (sameScore s) results `prefix_of` filter (sameScore s) scored.
Proof.
  intros Hq Hok Hnum. split; [now apply sort_sameScore|].
  rewrite (semanticSearch_unfold toLowerCase respond sched query topK st Hq).
  destruct (scorePool respond sched (trim query)
              (slice 0 MAX_VERSES_TO_EMBED (verses st)) st)
    as [[scored'|e] st']; [|discriminate].
  injection Hok as ->. eexists. split; [reflexivity|].
  destruct (slice_0_sublist (default 10 topK) (sort scored)) as [n ->].
  rewrite <- (sort_sameScore s scored Hnum).
  apply filter_take_prefix.
Qed.

Lemma ties_keep_pool_order_witness :
  exists results,
    fst (semanticSearch asciiLower healthy [] (lit "moon") (Some 2)
           (loaded threeLines)) = Ok results /\
    text <$> (verse <$> results) = [lit "north"; lit "huge"] /\
    score <$> results = [1; 1]%float.
Proof.
  eassert (Hok : fst (scorePool healthy [] (trim (lit "moon"))
                        (slice 0 MAX_VERSES_TO_EMBED
                           (verses (loaded threeLines)))
                        (loaded threeLines)) = Ok _)
    by (vm_compute; reflexivity).
  destruct (ties_keep_pool_order asciiLower healthy [] (lit "moon") (Some 2)
              (loaded threeLines) _ 1%float eq_refl Hok)
    as (_ & results & Hcall & _).
  { repeat constructor. }
  exists results. split; [exact Hcall|].
  assert (Hres : Ok results
                 = fst (semanticSearch asciiLower healthy [] (lit "moon")
                          (Some 2) (loaded threeLines)))
    by (symmetry; exact Hcall).
  vm_compute in Hres. injection Hres as ->. split; reflexivity.
Defined.

(** ** The result as a function of the provider *)

Lemma slice_200_short (t : jsstring) :
  (length (slice 0 200 t) < 200)%nat -> slice 0 200 t = t.
Proof.
  rewrite slice_0_nonneg by lia. change (Z.to_nat 200) with 200%nat.
  rewrite length_take. intros H. apply take_ge. lia.
Qed.

Lemma slice_200_id (t : jsstring) :
  (length t < 200)%nat -> slice 0 200 t = t.
Proof.
  intros H. rewrite slice_0_nonneg by lia. apply take_ge.
  change (Z.to_nat 200) with 200%nat. lia.
Qed.

Lemma cacheAgrees_insert (E : jsstring -> Response)
  (cache : gmap jsstring Vec) (t : jsstring) (vec : Vec) :
  cacheAgrees E cache -> usable (E t) = Some vec ->
  cacheAgrees E (<[slice 0 200 t := vec]> cache).
Proof.
  intros Hc Hu k vec' Hk Hl.
  destruct (decide (k = slice 0 200 t)) as [->|Hne].
  - rewrite lookup_insert_eq in Hl. injection Hl as <-.
    now rewrite (slice_200_short t Hk).
  - rewrite lookup_insert_ne in Hl by congruence. now apply Hc.
Qed.

Lemma mapM_cons_eq {A B : Type} (f : A -> option B) (x : A) (l : list A) :
  mapM f (x :: l) = y ← f x; k ← mapM f l; Some (y :: k).
Proof. reflexivity. Qed.

Section ByContent.

Variable toLowerCase : jsstring -> jsstring.

Variable E : jsstring -> Response.

(** The invariant holds in every state that calls and late stores have
    led to: each store puts the vector for a text under the key of that
    text. *)
Lemma reachable_cacheAgrees (surahs : list Surah) (st : State) :
  reachable toLowerCase (byContent E) surahs st ->
  cacheAgrees E (embeddingCache st).
Proof.
  assert (Hstep : forall sched query topK st0,
             cacheAgrees E (embeddingCache st0) ->
             cacheAgrees E
               (embeddingCache
                  (snd (semanticSearch toLowerCase (byContent E) sched query
                          topK st0)))).
  { intros sched query topK st0 H0.
    apply (semanticSearch_invariant toLowerCase (byContent E)
             (cacheAgrees E)); [|exact H0].
    intros t id vec c _ _ Hu Hc. now apply cacheAgrees_insert. }
  induction 1 as [|sched query topK st _ IH|sched query maxVerses st _ IH
                  |id req st _ IH _].
  - intros k vec _ Hl. simpl in Hl. now rewrite lookup_empty in Hl.
  - now apply Hstep.
  - rewrite getContextForQuery_state. now apply Hstep.
  - destruct (usable (byContent E id req)) as [vec|] eqn:Hu.
    + rewrite (embedFinish_usable (byContent E) id _ req st vec Hu).
      cbn [snd embeddingCache]. now apply cacheAgrees_insert.
    + now destruct (embedFinish_unusable (byContent E) id
                      (slice 0 200 (input req)) req st Hu) as [e ->].
Qed.

Lemma planSlots_byContent (queryEmbedding : Vec) (cache : gmap jsstring Vec)
  (n : nat) (pool : list Verse) :
  cacheAgrees E cache ->
  Forall (fun v => (length (text v) < 200)%nat) pool ->
  mapM (slotResult (byContent E) queryEmbedding)
    (planSlots queryEmbedding cache n pool)
  = mapM (fun v =>
            (fun vec => {| verse := v;
                           score := cosineSimilarity queryEmbedding vec |})
              <$> usable (E (text v)))
         pool.
Proof.
  intros Hc Hshort. revert n.
  induction Hshort as [|v pool Hv _ IH]; intros n; [reflexivity|].
  cbn [planSlots]. rewrite (slice_200_id (text v) Hv).
  rewrite (mapM_cons_eq _ v pool).
  destruct (cache !! text v) as [vec|] eqn:El.
  - rewrite mapM_cons_eq, IH. cbn [slotResult].
    now rewrite (Hc (text v) vec Hv El).
  - rewrite mapM_cons_eq, IH. reflexivity.
Qed.

Lemma semanticScores_byContent (q : jsstring) (pool : list Verse)
  (st : State) :
  cacheAgrees E (embeddingCache st) ->
  (length q < 200)%nat ->
  Forall (fun v => (length (text v) < 200)%nat) pool ->
  semanticScores (byContent E) q pool st = cosineScores E q pool.
Proof.
  intros Hc Hq Hpool. unfold semanticScores, cosineScores.
  destruct (embed_cases (byContent E) q st)
    as [(cached & Hl & He)|(Hl & st1 & _ & Hcase)].
  - rewrite He. rewrite (slice_200_id q Hq) in Hl.
    rewrite (Hc q cached Hq Hl). cbn [mbind option_bind].
    now apply planSlots_byContent.
  - destruct Hcase as [(vec & Hu & He)|(Hu & _ & e & He)].
    + rewrite He.
      rewrite (embed_miss_stored (byContent E) q st vec Hl Hu) in He.
      injection He as <-. cbn [embeddingCache requests].
      unfold byContent in Hu. cbn [input] in Hu. rewrite Hu.
      cbn [mbind option_bind].
      apply planSlots_byContent; [|exact Hpool].
      now apply cacheAgrees_insert.
    + rewrite He. unfold byContent in Hu. cbn [input] in Hu.
      now rewrite Hu.
Qed.

End ByContent.

(** X11: what the search computes. With a provider that answers by the
    text it is sent, a query and pool texts of less than 200 code units
    (so that the cache key is the text), in every state that calls and
    late stores have led to: when the provider has a vector for the
    trimmed query and for every record of the pool, the result is a
    rearrangement, cut by [slice(0, topK)], of the pool scored by the
    cosine similarity between the provider's vector for the query and
    its vector for the record, and when no score is NaN it is the
    stable sort by descending score; otherwise the result is the
    keyword search. The cache, the calls made before and the order of
    arrival make no difference. *)
Theorem scores_are_cosines (toLowerCase : jsstring -> jsstring)
  (E : jsstring -> Response) (surahs : list Surah) (st : State)
  (sched : list nat) (query : jsstring) (topK : option Z) :
  reachable toLowerCase (byContent E) surahs st ->
  truthy (trim query) = true ->
  (length (trim query) < 200)%nat ->
  Forall (fun v => (length (text v) < 200)%nat)
    (slice 0 MAX_VERSES_TO_EMBED (buildVerses surahs)) ->
  exists results : list SearchResult,
    fst (semanticSearch toLowerCase (byContent E) sched query topK st)
    = Ok results /\
    match cosineScores E (trim query)
            (slice 0 MAX_VERSES_TO_EMBED (buildVerses surahs)) with
    | Some scored =>
        exists sorted,
          results = slice 0 (default 10 topK) sorted /\
          sorted ≡ₚ scored /\
          (Forall scoreIsNumber scored -> sorted = sort scored)
    | None =>
        results = keywordResults toLowerCase (trim query) (default 10 topK)
                    (buildVerses surahs)
    end.
Proof.
  intros Hreach Hq Hshort Hpool.
  pose proof (reachable_verses toLowerCase (byContent E) surahs st Hreach)
    as Hv.
  pose proof (reachable_cacheAgrees toLowerCase E surahs st Hreach) as Hc.
  pose proof (scorePool_spec (byContent E) sched (trim query)
                (slice 0 MAX_VERSES_TO_EMBED (verses st)) st) as Hspec.
  rewrite Hv in Hspec.
  rewrite (semanticScores_byContent E (trim query) _ st Hc Hshort Hpool)
    in Hspec.
  destruct (cosineScores E (trim query)
              (slice 0 MAX_VERSES_TO_EMBED (buildVerses surahs)))
    as [scored|].
  - exists (slice 0 (default 10 topK) (sort scored)). split.
    + rewrite (semanticSearch_unfold toLowerCase (byContent E) sched query
                 topK st Hq).
      rewrite Hv.
      destruct (scorePool (byContent E) sched (trim query)
                  (slice 0 MAX_VERSES_TO_EMBED (buildVerses surahs)) st)
        as [[scored'|e] st']; simpl in *; congruence.
    + exists (sort scored). split; [reflexivity|].
      split; [apply sort_Permutation | reflexivity].
  - destruct Hspec as [e He]. rewrite <- Hv in He.
    exists (keywordResults toLowerCase (trim query) (default 10 topK)
              (buildVerses surahs)).
    split; [|reflexivity].
    rewrite (semanticSearch_caught toLowerCase (byContent E) sched query topK
               st e Hq He).
    now rewrite Hv.
Qed.

Lemma scores_are_cosines_witness :
  exists a b,
    fst (semanticSearch asciiLower (byContent sunOrOther) [1%nat]
           (lit " sun ") (Some 2) (loaded twoLines))
    = Ok [a; b] /\
    text (verse a) = lit "the sun rises" /\ score a = 1%float /\
    text (verse b) = lit "the moon sets" /\ score b = 0%float.
Proof.
  assert (Hlen : (length (trim (lit " sun ")) < 200)%nat)
    by (vm_compute; lia).
  assert (Hpool : Forall (fun v => (length (text v) < 200)%nat)
                    (slice 0 MAX_VERSES_TO_EMBED (buildVerses twoLines)))
    by (vm_compute; repeat constructor; lia).
  destruct (scores_are_cosines asciiLower sunOrOther twoLines
              (loaded twoLines) [1%nat] (lit " sun ") (Some 2)
              (reach_loaded _ _ _) eq_refl Hlen Hpool)
    as (results & Hcall & Hres).
  eassert (Hcos : cosineScores sunOrOther (trim (lit " sun "))
                    (slice 0 MAX_VERSES_TO_EMBED (buildVerses twoLines))
                  = Some _)
    by (vm_compute; reflexivity).
  rewrite Hcos in Hres. destruct Hres as (sorted & Hr & _ & Hs).
  rewrite Hs in Hr by (repeat constructor; vm_compute; reflexivity).
  eexists _, _. split.
  - etransitivity; [exact Hcall|]. rewrite Hr. vm_compute. reflexivity.
  - repeat split.
Defined.

(** ** Identifiers *)

(** X12: an identifier tells where its record comes from. Two records,
    of one index or of two, that carry the same [ayahId] have the same
    [surahNumber] and the same [ayahNumber]; in an index built from
    groups with pairwise distinct numbers they are the same record. *)
Theorem ayahId_determines_record (surahs surahs' : list Surah) (v w : Verse) :
  v ∈ buildVerses surahs -> w ∈ buildVerses surahs' ->
  ayahId v = ayahId w ->
  surahNumber v = surahNumber w /\ ayahNumber v = ayahNumber w /\
  (surahs = surahs' -> NoDup (number <$> surahs) -> v = w).
Proof.
  intros Hv Hw Hid.
  apply buildVerses_elem in Hv as (s & i & t & Hs & Ht & ->).
  apply buildVerses_elem in Hw as (s' & i' & t' & Hs' & Ht' & ->).
  apply ayahId_inj in Hid as [Hn ->].
  split; [exact Hn|]. split; [reflexivity|].
  intros <- Hnd.
  assert (s = s').
  { apply list_elem_of_lookup in Hs as [j Hj], Hs' as [j' Hj'].
    assert (j = j').
    { eapply NoDup_lookup; [exact Hnd| |];
        rewrite list_lookup_fmap; [rewrite Hj | rewrite Hj']; simpl;
        [reflexivity | now rewrite Hn]. }
    subst j'. congruence. }
  subst s'. congruence.
Qed.

Lemma ayahId_determines_record_witness :
  let s := {| number := 1; name := lit "A";
              content := Some [lit "the sun rises"; lit "the moon sets"] |} in
  let s' := {| number := 1; name := lit "A"; content := Some [lit "first"] |} in
  ayahId (mkVerse s 0 (lit "the sun rises")) = lit "1:1" /\
  surahNumber (mkVerse s 0 (lit "the sun rises"))
  = surahNumber (mkVerse s' 0 (lit "first")) /\
  ayahNumber (mkVerse s 0 (lit "the sun rises"))
  = ayahNumber (mkVerse s' 0 (lit "first")).
Proof.
  intros s s'. split; [reflexivity|].
  destruct (ayahId_determines_record twoLines sameNumber
              (mkVerse s 0 (lit "the sun rises")) (mkVerse s' 0 (lit "first")))
    as (H1 & H2 & _).
  - apply buildVerses_elem. exists s, 0%nat, (lit "the sun rises").
    split; [left|split; reflexivity].
  - apply buildVerses_elem. exists s', 0%nat, (lit "first").
    split; [left|split; reflexivity].
  - reflexivity.
  - split; assumption.
Defined.

(** ** The size of the cache *)

Section CacheSize.

Variable toLowerCase : jsstring -> jsstring.

Variable respond : nat -> Request -> Response.

Lemma semanticSearch_models sched (query : jsstring) (topK : option Z)
  (st : State) :
  Forall (fun req => model req = EMBED_MODEL) (requests st) ->
  Forall (fun req => model req = EMBED_MODEL)
    (requests (snd (semanticSearch toLowerCase respond sched query topK st))).
Proof.
  intros H.
  destruct (semanticSearch_sends toLowerCase respond sched query topK st)
    as (new & [_ ->] & Hnew).
  apply Forall_app. split; [exact H|].
  apply Forall_forall. intros req Hreq.
  destruct (Hnew req Hreq) as [->|(v & _ & ->)]; reflexivity.
Qed.

(** Every cached vector is in the answer to a request of the log, for a
    text that has its key. *)
Lemma scorePool_provenance sched (q : jsstring) (pool : list Verse)
  (st : State) :
  (forall k vec,
      embeddingCache st !! k = Some vec ->
      exists (id : nat) req,
        requests st !! id = Some req /\ k = slice 0 200 (input req) /\
        usable (respond id req) = Some vec) ->
  forall k vec,
    embeddingCache (snd (scorePool respond sched q pool st)) !! k = Some vec ->
    exists (id : nat) req,
      requests (snd (scorePool respond sched q pool st)) !! id = Some req /\
      k = slice 0 200 (input req) /\
      usable (respond id req) = Some vec.
Proof.
  intros Hst.
  assert (Hpool : forall queryEmbedding st1,
             (forall k vec,
                 embeddingCache st1 !! k = Some vec ->
                 exists (id : nat) req,
                   requests st1 !! id = Some req /\
                   k = slice 0 200 (input req) /\
                   usable (respond id req) = Some vec) ->
             forall k vec,
               embeddingCache
                 (snd (promiseAll respond sched queryEmbedding pool st1))
               !! k = Some vec ->
               exists (id : nat) req,
                 requests
                   (snd (promiseAll respond sched queryEmbedding pool st1))
                 !! id = Some req /\
                 k = slice 0 200 (input req) /\
                 usable (respond id req) = Some vec).
  { intros queryEmbedding st1 H1.
    destruct (promiseAll_spec respond sched queryEmbedding pool st1)
      as [[_ Hreq] _].
    rewrite Hreq. rewrite promiseAll_unfold. cbv zeta.
    set (slots := planSlots _ _ _ _). set (st2 := {| verses := _ |}).
    assert (H2 : forall k vec,
               embeddingCache
                 (snd (settle respond queryEmbedding
                         (sched ++ seq 0 (length slots)) slots st2))
               !! k = Some vec ->
               exists (id : nat) req,
                 (requests st1 ++ planRequests (embeddingCache st1) pool)
                 !! id = Some req /\
                 k = slice 0 200 (input req) /\
                 usable (respond id req) = Some vec).
    { apply (settle_invariant respond
               (fun c => forall k vec,
                    c !! k = Some vec ->
                    exists (id : nat) req,
                      (requests st1 ++ planRequests (embeddingCache st1) pool)
                      !! id = Some req /\
                      k = slice 0 200 (input req) /\
                      usable (respond id req) = Some vec)).
      - intros i v id key req vec c Hi Hu Hc k vec' Hk.
        destruct (decide (k = key)) as [->|Hne].
        + rewrite lookup_insert_eq in Hk. injection Hk as <-.
          destruct (planSlots_running queryEmbedding (embeddingCache st1)
                      (length (requests st1)) pool (requests st1) i v id key
                      req eq_refl Hi) as (Hreq' & _ & Hin & _).
          apply planSlots_running_key in Hi as (_ & -> & _).
          exists id, req. rewrite Hin. auto.
        + rewrite lookup_insert_ne in Hk by congruence. now apply Hc.
      - intros k vec Hk. simpl in Hk.
        destruct (H1 k vec Hk) as (id & req & Hid & Hkey & Hu).
        exists id, req. split; [|auto].
        now apply lookup_app_l_Some. }
    now destruct (settle respond queryEmbedding
                    (sched ++ seq 0 (length slots)) slots st2) as [[?|?] ?]. }
  unfold scorePool, bind.
  destruct (embed_cases respond q st)
    as [(cached & Hc & He)|(Hc & st1 & [_ Hr] & Hcase)].
  - rewrite He. now apply Hpool.
  - destruct Hcase as [(vec & Hu & He)|(Hu & Hsame & e & He)]; rewrite He.
    + apply Hpool.
      rewrite (embed_miss_stored respond q st vec Hc Hu) in He.
      injection He as <-. cbn [embeddingCache requests].
      intros k vec' Hk.
      destruct (decide (k = slice 0 200 q)) as [->|Hne].
      * rewrite lookup_insert_eq in Hk. injection Hk as <-.
        exists (length (requests st)), {| model := EMBED_MODEL; input := q |}.
        split; [|auto].
        rewrite lookup_app_r by lia. now rewrite Nat.sub_diag.
      * rewrite lookup_insert_ne in Hk by congruence.
        destruct (Hst k vec' Hk) as (id & req & Hid & Hkey & Hu').
        exists id, req. split; [|auto]. now apply lookup_app_l_Some.
    + cbn [snd]. rewrite Hsame, Hr. intros k vec Hk.
      destruct (Hst k vec Hk) as (id & req & Hid & Hkey & Hu').
      exists id, req. split; [|auto]. now apply lookup_app_l_Some.
Qed.

Lemma semanticSearch_provenance sched (query : jsstring) (topK : option Z)
  (st : State) :
  (forall k vec,
      embeddingCache st !! k = Some vec ->
      exists (id : nat) req,
        requests st !! id = Some req /\ k = slice 0 200 (input req) /\
        usable (respond id req) = Some vec) ->
  forall k vec,
    embeddingCache
      (snd (semanticSearch toLowerCase respond sched query topK st)) !! k
    = Some vec ->
    exists (id : nat) req,
      requests (snd (semanticSearch toLowerCase respond sched query topK st))
      !! id = Some req /\
      k = slice 0 200 (input req) /\
      usable (respond id req) = Some vec.
Proof.
  destruct (truthy (trim query)) eqn:Hq.
  - rewrite (semanticSearch_state toLowerCase respond sched query topK st Hq).
    apply scorePool_provenance.
  - now rewrite (semanticSearch_blank_query toLowerCase respond sched query
                   topK st Hq).
Qed.

End CacheSize.

(** A cache whose keys all come from requests of the log has no more
    entries than the log. *)
Lemma grounded_size (cache : gmap jsstring Vec) (log : list Request) :
  (forall k, is_Some (cache !! k) ->
             exists req, req ∈ log /\ k = slice 0 200 (input req)) ->
  (size cache <= length log)%nat.
Proof.
  intros H.
  rewrite <- (length_fmap (fun req => slice 0 200 (input req)) log).
  rewrite <- length_map_to_list.
  rewrite <- (length_fmap fst (map_to_list cache)).
  apply submseteq_length, NoDup_submseteq; [apply NoDup_fst_map_to_list|].
  intros k Hk. apply list_elem_of_fmap in Hk as ([k' vec] & -> & Hin).
  apply elem_of_map_to_list in Hin.
  destruct (H k' (ex_intro _ vec Hin)) as (req & Hreq & ->).
  apply list_elem_of_fmap. now exists req.
Qed.

(** X13: the cache is grounded in the traffic. In every state that
    calls and late stores have led to, every cached vector is the vector
    of the response to a request of the log, sent for a text whose first
    200 code units are the key; the cache has at most as many entries as
    requests have been sent; each of its keys has at most 200 code
    units; and every request sent names the model [nomic-embed-text]. *)
Theorem cache_grounded_in_requests (toLowerCase : jsstring -> jsstring)
  (respond : nat -> Request -> Response) (surahs : list Surah) (st : State) :
  reachable toLowerCase respond surahs st ->
  (forall k vec,
      embeddingCache st !! k = Some vec ->
      exists (id : nat) req,
        requests st !! id = Some req /\ k = slice 0 200 (input req) /\
        usable (respond id req) = Some vec) /\
  (size (embeddingCache st) <= length (requests st))%nat /\
  (forall k, is_Some (embeddingCache st !! k) -> (length k <= 200)%nat) /\
  Forall (fun req => model req = lit "nomic-embed-text") (requests st).
Proof.
  intros Hreach.
  assert (Hinv : (forall k vec,
                     embeddingCache st !! k = Some vec ->
                     exists (id : nat) req,
                       requests st !! id = Some req /\
                       k = slice 0 200 (input req) /\
                       usable (respond id req) = Some vec) /\
                 Forall (fun req => model req = EMBED_MODEL) (requests st)).
  { induction Hreach as [|sched query topK st _ [Hprov Hmodel]
                         |sched query maxVerses st _ [Hprov Hmodel]
                         |id req st _ [Hprov Hmodel] Hid].
    - split; [|constructor].
      intros k vec Hk. simpl in Hk. now rewrite lookup_empty in Hk.
    - split; [now apply semanticSearch_provenance
             |now apply semanticSearch_models].
    - rewrite getContextForQuery_state.
      split; [now apply semanticSearch_provenance
             |now apply semanticSearch_models].
    - destruct (usable (respond id req)) as [vec|] eqn:Hu.
      + rewrite (embedFinish_usable respond id _ req st vec Hu).
        cbn [snd embeddingCache requests]. split; [|exact Hmodel].
        intros k vec' Hk.
        destruct (decide (k = slice 0 200 (input req))) as [->|Hne].
        * rewrite lookup_insert_eq in Hk. injection Hk as <-.
          now exists id, req.
        * rewrite lookup_insert_ne in Hk by congruence. now apply Hprov.
      + now destruct (embedFinish_unusable respond id
                        (slice 0 200 (input req)) req st Hu) as [e ->]. }
  destruct Hinv as [Hprov Hmodel].
  split; [exact Hprov|]. split; [|split; [|exact Hmodel]].
  - apply grounded_size. intros k [vec Hk].
    destruct (Hprov k vec Hk) as (id & req & Hid & -> & _).
    exists req. split; [|reflexivity].
    eapply list_elem_of_lookup_2; eauto.
  - intros k [vec Hk].
    destruct (Hprov k vec Hk) as (id & req & _ & -> & _).
    rewrite slice_0_nonneg, length_take by lia.
    change (Z.to_nat 200) with 200%nat. lia.
Qed.

Lemma cache_grounded_in_requests_witness :
  let st := snd (semanticSearch asciiLower failsOnce [] (lit "sun") None
                   (snd (semanticSearch asciiLower failsOnce [] (lit "sun")
                           None (loaded twoLines)))) in
  (size (embeddingCache st) <= length (requests st))%nat /\
  length (requests st) = 4%nat.
Proof.
  intros st. split; [|vm_compute; reflexivity].
  pose proof (reach_semanticSearch asciiLower failsOnce twoLines []
                (lit "sun") None _
                (reach_semanticSearch asciiLower failsOnce twoLines []
                   (lit "sun") None _
                   (reach_loaded asciiLower failsOnce twoLines))) as Hreach.
  exact (proj1 (proj2 (cache_grounded_in_requests _ _ _ _ Hreach))).
Defined.

(** ** The order of arrival *)

Lemma State_eq (a b : State) :
  verses a = verses b -> embeddingCache a = embeddingCache b ->
  requests a = requests b -> a = b.
Proof. destruct a, b; simpl; intros -> -> ->; reflexivity. Qed.

Section Arrival.

Variable toLowerCase : jsstring -> jsstring.

Variable respond : nat -> Request -> Response.

(** The value of a call is the same for every order of arrival. *)
Lemma semanticSearch_value_sched sched sched' (query : jsstring)
  (topK : option Z) (st : State) :
  fst (semanticSearch toLowerCase respond sched query topK st)
  = fst (semanticSearch toLowerCase respond sched' query topK st).
Proof.
  destruct (truthy (trim query)) eqn:Hq.
  - pose proof (scorePool_spec respond sched (trim query)
                  (slice 0 MAX_VERSES_TO_EMBED (verses st)) st) as H.
    pose proof (scorePool_spec respond sched' (trim query)
                  (slice 0 MAX_VERSES_TO_EMBED (verses st)) st) as H'.
    destruct (semanticScores respond (trim query)
                (slice 0 MAX_VERSES_TO_EMBED (verses st)) st) as [scored|].
    + rewrite !(semanticSearch_unfold toLowerCase respond _ query topK st Hq).
      destruct (scorePool respond sched (trim query)
                  (slice 0 MAX_VERSES_TO_EMBED (verses st)) st)
        as [[rs|e] st1];
        destruct (scorePool respond sched' (trim query)
                    (slice 0 MAX_VERSES_TO_EMBED (verses st)) st)
        as [[rs'|e'] st1']; simpl in *; congruence.
    + destruct H as [e He], H' as [e' He'].
      now rewrite (semanticSearch_caught toLowerCase respond sched query topK
                     st e Hq He),
        (semanticSearch_caught toLowerCase respond sched' query topK
           st e' Hq He').
  - now rewrite !(semanticSearch_blank_query toLowerCase respond _ query topK
                    st Hq).
Qed.

(** When the keys of the pool are pairwise distinct, so is the state
    the try block leaves when it has completed. *)
Lemma scorePool_Ok_state_sched sched sched' (q : jsstring)
  (pool : list Verse) (st : State) (scored : list SearchResult) :
  fst (scorePool respond sched q pool st) = Ok scored ->
  NoDup ((fun v => slice 0 200 (text v)) <$> pool) ->
  snd (scorePool respond sched q pool st)
  = snd (scorePool respond sched' q pool st).
Proof.
  intros Hok Hnd.
  assert (Hok' : fst (scorePool respond sched' q pool st) = Ok scored).
  { apply scorePool_Ok. now apply (scorePool_Ok respond sched). }
  destruct (scorePool_requests respond q pool st) as (new & _ & Hreq).
  destruct (scorePool_sends respond sched q pool st) as (n1 & [Hv1 _] & _).
  destruct (scorePool_sends respond sched' q pool st) as (n2 & [Hv2 _] & _).
  apply State_eq; [congruence | | now rewrite !Hreq].
  destruct (scorePool_Ok_cache respond sched q pool st scored Hok)
    as (qv & st1 & He & _ & _ & Hsub & Hnew & Hkey).
  destruct (scorePool_Ok_cache respond sched' q pool st scored Hok')
    as (qv' & st1' & He' & _ & _ & Hsub' & Hnew' & Hkey').
  rewrite He in He'. injection He' as <- <-.
  cbv zeta in *.
  set (slots := planSlots qv (embeddingCache st1) (length (requests st1))
                  pool) in *.
  set (c := embeddingCache (snd (scorePool respond sched q pool st))) in *.
  set (c' := embeddingCache (snd (scorePool respond sched' q pool st))) in *.
  apply map_eq. intros k.
  destruct (c !! k) as [x|] eqn:Ec, (c' !! k) as [x'|] eqn:Ec';
    [|exfalso..|reflexivity].
  - f_equal.
    destruct (Hnew k x Ec) as [Hold|(i & v & id & req & Hs & Hu)],
        (Hnew' k x' Ec') as [Hold'|(i' & v' & id' & req' & Hs' & Hu')].
    + congruence.
    + apply planSlots_running_key in Hs' as (_ & _ & _ & Hnone). congruence.
    + apply planSlots_running_key in Hs as (_ & _ & _ & Hnone). congruence.
    + pose proof (planSlots_key_inj _ _ _ _ _ _ _ _ _ _ _ _ _ Hnd Hs Hs').
      subst i'. unfold slots in Hs, Hs'. rewrite Hs in Hs'.
      injection Hs' as <- <- <-. congruence.
  - destruct (Hnew k x Ec) as [Hold|(i & v & id & req & Hs & Hu)].
    + eapply lookup_weaken in Hold; [|exact Hsub']. congruence.
    + destruct (Hkey' _ _ _ _ _ Hs) as [y Hy]. congruence.
  - destruct (Hnew' k x' Ec') as [Hold|(i & v & id & req & Hs & Hu)].
    + eapply lookup_weaken in Hold; [|exact Hsub]. congruence.
    + destruct (Hkey _ _ _ _ _ Hs) as [y Hy]. congruence.
Qed.

End Arrival.

(** X15: the order of arrival does not show. For every two orders in
    which the responses to the concurrent requests may arrive, a call of
    [semanticSearch] (and of [getContextForQuery]) returns the same
    value, on the semantic path and on the keyword path, and sends the
    same requests. When the call completes on the semantic path and the
    records of the pool have pairwise distinct cache keys, it also
    leaves the same cache: the whole state is the same. *)
Theorem result_independent_of_arrival_order
  (toLowerCase : jsstring -> jsstring)
  (respond : nat -> Request -> Response) (sched sched' : list nat)
  (query : jsstring) (topK : option Z) (st : State) :
  fst (semanticSearch toLowerCase respond sched query topK st)
  = fst (semanticSearch toLowerCase respond sched' query topK st) /\
  fst (getContextForQuery toLowerCase respond sched query topK st)
  = fst (getContextForQuery toLowerCase respond sched' query topK st) /\
  requests (snd (semanticSearch toLowerCase respond sched query topK st))
  = requests (snd (semanticSearch toLowerCase respond sched' query topK st)) /\
  (forall scored,
      truthy (trim query) = true ->
      fst (scorePool respond sched (trim query)
             (slice 0 MAX_VERSES_TO_EMBED (verses st)) st) = Ok scored ->
      NoDup ((fun v => slice 0 200 (text v))
               <$> slice 0 MAX_VERSES_TO_EMBED (verses st)) ->
      snd (semanticSearch toLowerCase respond sched query topK st)
      = snd (semanticSearch toLowerCase respond sched' query topK st)).
Proof.
  split; [apply semanticSearch_value_sched|]. split; [|split].
  - rewrite !getContextForQuery_unfold.
    pose proof (semanticSearch_value_sched toLowerCase respond sched sched'
                  query (Some (default 5 topK)) st) as H.
    destruct (semanticSearch toLowerCase respond sched query
                (Some (default 5 topK)) st) as [[rs|e] st1];
      destruct (semanticSearch toLowerCase respond sched' query
                  (Some (default 5 topK)) st) as [[rs'|e'] st1'];
      simpl in *; congruence.
  - destruct (truthy (trim query)) eqn:Hq.
    + rewrite !(semanticSearch_state toLowerCase respond _ query topK st Hq).
      destruct (scorePool_requests respond (trim query)
                  (slice 0 MAX_VERSES_TO_EMBED (verses st)) st)
        as (new & _ & Hreq).
      now rewrite !Hreq.
    + now rewrite !(semanticSearch_blank_query toLowerCase respond _ query
                      topK st Hq).
  - intros scored Hq Hok Hnd.
    rewrite !(semanticSearch_state toLowerCase respond _ query topK st Hq).
    now apply (scorePool_Ok_state_sched respond sched sched' _ _ _ scored).
Qed.

Lemma result_independent_of_arrival_order_witness :
  semanticSearch asciiLower healthy [] (lit "sun") None (loaded twoLines)
  = semanticSearch asciiLower healthy [1%nat; 0%nat] (lit "sun") None
      (loaded twoLines).
Proof.
  pose proof (result_independent_of_arrival_order asciiLower healthy []
                [1%nat; 0%nat] (lit "sun") None (loaded twoLines))
    as (Hval & _ & _ & Hstate).
  eassert (Hok : fst (scorePool healthy [] (trim (lit "sun"))
                        (slice 0 MAX_VERSES_TO_EMBED
                           (verses (loaded twoLines)))
                        (loaded twoLines)) = Ok _)
    by (vm_compute; reflexivity).
  specialize (Hstate _ eq_refl Hok).
  apply injective_projections; [exact Hval|].
  apply Hstate. vm_compute.
  apply NoDup_cons. split; [|apply NoDup_singleton].
  intros H. apply list_elem_of_singleton in H. discriminate H.
Defined.

(** ** Reading the content back *)

Lemma filter_all {A : Type} (P : A -> Prop) `{forall x, Decision (P x)}
  (l : list A) :
  Forall P l -> filter P l = l.
Proof.
  induction 1 as [|x l Hx _ IH]; [reflexivity|].
  now rewrite filter_cons_True, IH.
Qed.

Lemma filter_none {A : Type} (P : A -> Prop) `{forall x, Decision (P x)}
  (l : list A) :
  Forall (fun x => ~ P x) l -> filter P l = [].
Proof.
  induction 1 as [|x l Hx _ IH]; [reflexivity|].
  now rewrite filter_cons_False.
Qed.

Lemma surahVerses_fields (s : Surah) :
  Forall (fun v => surahNumber v = number s /\ surahName v = name s)
    (surahVerses s).
Proof.
  apply Forall_lookup. intros i v Hi.
  apply surahVerses_lookup in Hi as (t & _ & ->). split; reflexivity.
Qed.

Lemma surahVerses_ayahNumbers (s : Surah) :
  ayahNumber <$> surahVerses s
  = (fun i => Z.of_nat i + 1) <$> seq 0 (length (default [] (content s))).
Proof.
  unfold surahVerses. rewrite fmap_imap.
  apply (imap_seq_0 (default [] (content s)) (fun i => Z.of_nat i + 1)).
Qed.

Lemma buildVerses_filter_other (n : Z) (surahs : list Surah) :
  n ∉ number <$> surahs ->
  filter (fun v => surahNumber v = n) (buildVerses surahs) = [].
Proof.
  intros Hn. apply filter_none, Forall_forall. intros v Hv Heq.
  apply buildVerses_elem in Hv as (s & i & t & Hs & _ & ->).
  apply Hn. simpl in Heq. rewrite <- Heq. now apply list_elem_of_fmap_2.
Qed.

Lemma buildVerses_filter (surahs : list Surah) (s : Surah) :
  NoDup (number <$> surahs) -> s ∈ surahs ->
  filter (fun v => surahNumber v = number s) (buildVerses surahs)
  = surahVerses s.
Proof.
  induction surahs as [|s0 surahs IH]; intros Hnd Hs; [inversion Hs|].
  rewrite fmap_cons in Hnd. apply NoDup_cons in Hnd as [Hs0 Hnd].
  rewrite buildVerses_cons, filter_app.
  apply elem_of_cons in Hs as [->|Hs].
  - rewrite (buildVerses_filter_other _ _ Hs0), app_nil_r.
    apply filter_all. eapply Forall_impl; [apply surahVerses_fields|].
    now intros v [Hv _].
  - rewrite IH by assumption.
    rewrite filter_none; [reflexivity|].
    eapply Forall_impl; [apply surahVerses_fields|].
    intros v [Hv _] Heq. apply Hs0. rewrite <- Hv, Heq.
    now apply list_elem_of_fmap_2.
Qed.

(** X16: the index gives the content back. When the groups have
    pairwise distinct numbers, the records of the index whose
    [surahNumber] is that of a group are the records of that group: their
    texts are its lines, in order, their [ayahNumber]s run from 1 to the
    number of lines, and each carries the name of the group. *)
Theorem index_recovers_content (surahs : list Surah) (s : Surah) :
  NoDup (number <$> surahs) -> s ∈ surahs ->
  let records :=
    filter (fun v => surahNumber v = number s) (buildVerses surahs) in
  text <$> records = default [] (content s) /\
  ayahNumber <$> records
  = (fun i => Z.of_nat i + 1) <$> seq 0 (length (default [] (content s))) /\
  Forall (fun v => surahName v = name s) records.
Proof.
  intros Hnd Hs records. unfold records.
  rewrite (buildVerses_filter surahs s Hnd Hs).
  split; [apply surahVerses_text|]. split; [apply surahVerses_ayahNumbers|].
  eapply Forall_impl; [apply surahVerses_fields|]. now intros v [_ Hv].
Qed.

Lemma index_recovers_content_witness :
  text <$> filter (fun v => surahNumber v = 1) (buildVerses twoLines)
  = [lit "the sun rises"; lit "the moon sets"].
Proof.
  refine (proj1 (index_recovers_content twoLines
                   {| number := 1; name := lit "A";
                      content := Some [lit "the sun rises";
                                       lit "the moon sets"] |} _ _)).
  - simpl. apply NoDup_singleton.
  - left.
Defined.
